(** * MINDMAP: the tree edit engine, its undo/redo history and the layout geometry

    A shallow embedding of [src/utils.js], [src/App.jsx] and the layout memo of
    [src/MindMap.jsx].

    Modelling conventions.
    - A JS node object is a [node]: the fields the program reads and writes
      ([id], [name], [children], [collapsed], [px], [py]).  An absent field and
      a field holding [undefined] read the same in JS; both are [None].
    - Coordinates are finite numbers of a type [C] the edit engine never
      inspects (it only copies them); the layout instantiates [C] with the
      real numbers.
    - [JSON.parse (JSON.stringify v)] is the identity on such values, so a
      snapshot (a JSON string in the source) is the record it serialises and
      [clone] rebuilds the tree node by node.
    - [nanoid] is an external generator: [nanoid k] is the id returned by its
      k-th call, and the number of calls made so far is threaded through the
      code that draws ids.
    - React state: a handler reads the state of the render it was created in
      and queues updates; handlers are modelled one per render, so that state
      is the current one and the queued updates are applied in order. *)

From Stdlib Require Import List String Ascii DecimalString Bool Arith ZArith Lia Reals Lra.
From Stdlib Require Import Permutation DecimalNat.
Import ListNotations.
Open Scope string_scope.
Open Scope list_scope.

Set Implicit Arguments.

(** ** Outcomes of a handler: a value, or a thrown JS error *)

Inductive error : Type :=
| TypeError        (* property read on null *)
| StackExhausted.  (* recursion deeper than the call stack allows *)

Inductive result (A : Type) : Type :=
| Ok (a : A)
| Threw (e : error).
Arguments Threw {A} e.

(** Code that may draw ids from [nanoid] and may throw: the argument is the
    number of ids drawn so far. *)
Definition M (A : Type) : Type := nat -> result (A * nat).

Definition ret {A} (a : A) : M A := fun c => Ok (a, c).
Definition throw {A} (e : error) : M A := fun _ => Threw e.
Definition bind {A B} (m : M A) (k : A -> M B) : M B :=
  fun c => match m c with
           | Ok (a, c') => k a c'
           | Threw e => Threw e
           end.

Declare Scope js_scope.
Delimit Scope js_scope with js.
Notation "x <- m ;; k" := (bind m (fun x => k))
  (at level 61, m at next level, right associativity) : js_scope.
Open Scope js_scope.

Section Arrays.

Variables A B : Type.

(** [Array.prototype.map] with an effectful callback, left to right. *)
Section mapM.
Variable f : A -> M B.
Fixpoint mapM (l : list A) : M (list B) :=
  match l with
  | [] => ret []
  | a :: l' => b <- f a ;; bs <- mapM l' ;; ret (b :: bs)
  end.
End mapM.

(** A [for .. of] loop that returns the first truthy result. *)
Section firstSome.
Variable f : A -> option B.
Fixpoint firstSome (l : list A) : option B :=
  match l with
  | [] => None
  | a :: l' => match f a with
               | Some found => Some found
               | None => firstSome l'
               end
  end.
End firstSome.

End Arrays.

(** ** Data model *)

Section Model.

Variable C : Type.                 (* coordinates *)
Variable nanoid : nat -> string.   (* the k-th id the generator returns *)
Variable trim : string -> string.  (* String.prototype.trim *)

Unset Elimination Schemes.

Inductive node : Type :=
  Node { id : string;
         name : string;
         children : list node;
         collapsed : option bool;
         px : option C;
         py : option C }.

(** A parsed JSON document that is a tree of objects, before ids are
    assigned: any field may be absent, [children] is an array of such objects
    when it is there.  The functions below are total on these; on other
    documents (a [null] in the place of a node, [children] that is not an
    array) the source throws, which is not modelled. *)
Inductive raw : Type :=
  Raw { rid : option string;
        rname : option string;
        rchildren : list raw;
        rcollapsed : option bool;
        rpx : option C;
        rpy : option C }.

Set Elimination Schemes.

Definition set_children (n : node) (cs : list node) : node :=
  Node (id n) (name n) cs (collapsed n) (px n) (py n).

(** ** utils.js *)

(** [node.id || nanoid(8)]: an absent or empty id is falsy. *)
Definition idOr (i : option string) : M string :=
  fun c => match i with
           | Some s => if (s =? "")%string then Ok (nanoid c, S c) else Ok (s, c)
           | None => Ok (nanoid c, S c)
           end.

Fixpoint assignIds (r : raw) : M node :=
  match r with
  | Raw i nm cs col x y =>
      i' <- idOr i ;;
      kids <- mapM assignIds cs ;;
      ret (Node i' (match nm with Some s => s | None => "Node" end) kids col x y)
  end.

Fixpoint findNode (root : node) (i : string) : option node :=
  match root with
  | Node rid _ cs _ _ _ =>
      if (rid =? i)%string then Some root
      else firstSome (fun c => findNode c i) cs
  end.

(** [mapTree] recurses on the children of [fn node], which [fn] may have
    extended: the recursion is bounded by the depth [fuel] of the call stack. *)
Fixpoint mapTree (fuel : nat) (fn : node -> M node) (n : node) : M node :=
  match fuel with
  | 0 => throw StackExhausted
  | S fuel' =>
      next <- fn n ;;
      kids <- mapM (mapTree fuel' fn) (children next) ;;
      ret (set_children next kids)
  end.

Fixpoint clone (n : node) : node :=
  match n with
  | Node i nm cs col x y => Node i nm (map clone cs) col x y
  end.

(** ** App.jsx: editor state *)

Record snapshot : Type :=
  Snapshot { snap_tree : node; snap_selectedId : option string }.

Record editor : Type :=
  Editor { tree : node;
           selectedId : option string;
           undoStack : list snapshot;
           redoStack : list snapshot;
           preDragSnapshot : option snapshot }.

Definition takeSnapshot (st : editor) : snapshot :=
  Snapshot (tree st) (selectedId st).

Definition restore (snap : snapshot) (st : editor) : editor :=
  Editor (snap_tree snap) (snap_selectedId snap)
         (undoStack st) (redoStack st) (preDragSnapshot st).

Definition setTree (t : node) (st : editor) : editor :=
  Editor t (selectedId st) (undoStack st) (redoStack st) (preDragSnapshot st).

Definition setSelectedId (s : option string) (st : editor) : editor :=
  Editor (tree st) s (undoStack st) (redoStack st) (preDragSnapshot st).

Definition setUndoStack (u : list snapshot) (st : editor) : editor :=
  Editor (tree st) (selectedId st) u (redoStack st) (preDragSnapshot st).

Definition setRedoStack (r : list snapshot) (st : editor) : editor :=
  Editor (tree st) (selectedId st) (undoStack st) r (preDragSnapshot st).

Definition setPreDragSnapshot (p : option snapshot) (st : editor) : editor :=
  Editor (tree st) (selectedId st) (undoStack st) (redoStack st) p.

(** [next.length > 10 ? next.slice(next.length - 10) : next] *)
Definition capHistory (next : list snapshot) : list snapshot :=
  if Nat.ltb 10 (List.length next) then skipn (List.length next - 10) next else next.

(** [pushUndo]: [snapshot()] reads [tree] and [selectedId] of the handler's
    render. *)
Definition pushUndo (st : editor) : editor :=
  setRedoStack [] (setUndoStack (capHistory (undoStack st ++ [takeSnapshot st])) st).

(** [if (!preDragSnapshot) pushUndo()] *)
Definition pushUnlessDragging (st : editor) : editor :=
  match preDragSnapshot st with
  | None => pushUndo st
  | Some _ => st
  end.

Definition newNodeRaw : raw := Raw None (Some "New Node") [] None None None.

Definition addChild (fuel : nat) (i : string) (st : editor) : M editor :=
  let st1 := pushUnlessDragging st in
  newTree <- mapTree fuel
               (fun n => if (id n =? i)%string
                         then child <- assignIds newNodeRaw ;;
                              ret (set_children n (children n ++ [child]))
                         else ret n)
               (clone (tree st)) ;;
  ret (setSelectedId (Some i) (setTree newTree st1)).

(** The named function expression [remove] of [deleteNode]:
    [children.filter(c => c.id !== id).map(remove)]. *)
Fixpoint remove (i : string) (n : node) : node :=
  match n with
  | Node ni nm cs col x y =>
      Node ni nm
           ((fix go (l : list node) : list node :=
               match l with
               | [] => []
               | c :: l' => if (id c =? i)%string then go l' else remove i c :: go l'
               end) cs)
           col x y
  end.

Definition deleteNode (i : string) (st : editor) : editor :=
  if (id (tree st) =? i)%string then st
  else
    let st1 := pushUnlessDragging st in
    let newTree := remove i (clone (tree st)) in
    setSelectedId (Some (id newTree)) (setTree newTree st1).

(** [(name || 'Node').trim() || 'Node'] *)
Definition orNode (s : string) : string :=
  if (s =? "")%string then "Node" else s.

Definition renameNode (fuel : nat) (i nm : string) (st : editor) : M editor :=
  let st1 := pushUnlessDragging st in
  newTree <- mapTree fuel
               (fun n => if (id n =? i)%string
                         then ret (Node (id n) (orNode (trim (orNode nm))) (children n)
                                        (collapsed n) (px n) (py n))
                         else ret n)
               (clone (tree st)) ;;
  ret (setTree newTree st1).

(** [!n.collapsed]: an absent flag is falsy. *)
Definition notCollapsed (n : node) : bool :=
  match collapsed n with
  | Some b => negb b
  | None => true
  end.

Definition toggleCollapse (fuel : nat) (i : string) (st : editor) : M editor :=
  let st1 := pushUnlessDragging st in
  newTree <- mapTree fuel
               (fun n => if (id n =? i)%string
                         then ret (Node (id n) (name n) (children n)
                                        (Some (notCollapsed n)) (px n) (py n))
                         else ret n)
               (clone (tree st)) ;;
  ret (setTree newTree st1).

Fixpoint isDesc (n : node) (i : string) : bool :=
  match n with
  | Node ni _ cs _ _ _ =>
      if (ni =? i)%string then true
      else existsb (fun c => isDesc c i) cs
  end.

(** The [remove] of [reparent].  Its filter callback assigns [moved] at every
    child it drops; the filter runs over all children of a node before the
    kept ones are visited, and the last assignment wins. *)
Section visitKept.
Variable childId : string.
Variable visit : node -> option node -> node * option node.

(** [.filter(..)] as a pass of its own: the value of [moved] after it. *)
Definition movedAfterFilter (cs : list node) (moved : option node) : option node :=
  fold_left (fun m c => if (id c =? childId)%string then Some c else m) cs moved.

(** [.map(remove)] over the children the filter kept. *)
Fixpoint visitKept (l : list node) (moved : option node) : list node * option node :=
  match l with
  | [] => ([], moved)
  | c :: l' =>
      if (id c =? childId)%string then visitKept l' moved
      else let '(c', m1) := visit c moved in
           let '(r, m2) := visitKept l' m1 in
           (c' :: r, m2)
  end.
End visitKept.

Fixpoint removeMoved (childId : string) (n : node) (moved : option node)
  : node * option node :=
  match n with
  | Node ni nm cs col x y =>
      let '(kids, moved2) :=
        visitKept childId (removeMoved childId) cs (movedAfterFilter childId cs moved) in
      (Node ni nm kids col x y, moved2)
  end.

Definition reparent (fuel : nat) (childId newParentId : string) (st : editor)
  : M editor :=
  if (childId =? id (tree st))%string then ret st
  else if (childId =? newParentId)%string then ret st
  else
    match findNode (tree st) childId with
    | None => throw TypeError   (* [isDesc(null, _)] reads [n.id] *)
    | Some childNode =>
        if isDesc childNode newParentId then ret st
        else
          let st1 := pushUnlessDragging st in
          let '(without, moved) := removeMoved childId (clone (tree st)) None in
          match moved with
          | None => ret st1
          | Some m =>
              reattached <- mapTree fuel
                              (fun n => if (id n =? newParentId)%string
                                        then ret (set_children n (children n ++ [m]))
                                        else ret n)
                              without ;;
              ret (setSelectedId (Some childId) (setTree reattached st1))
          end
    end.

Definition moveNode (fuel : nat) (i : string) (x y : C) (st : editor) : M editor :=
  let st1 := match preDragSnapshot st with
             | None => setPreDragSnapshot (Some (takeSnapshot st)) st
             | Some _ => st
             end in
  newTree <- mapTree fuel
               (fun n => if (id n =? i)%string
                         then ret (Node (id n) (name n) (children n)
                                        (collapsed n) (Some x) (Some y))
                         else ret n)
               (clone (tree st)) ;;
  ret (setTree newTree st1).

Definition moveCommit (st : editor) : editor :=
  match preDragSnapshot st with
  | Some pre =>
      setPreDragSnapshot None
        (setRedoStack [] (setUndoStack (capHistory (undoStack st ++ [pre])) st))
  | None => st
  end.

(** The last element of an array and [slice(0, -1)], when it is not empty. *)
Definition pop {A} (l : list A) : option (list A * A) :=
  match rev l with
  | [] => None
  | x :: _ => Some (removelast l, x)
  end.

Definition undo (st : editor) : editor :=
  match pop (undoStack st) with
  | None => st
  | Some (rest, last) =>
      restore last (setRedoStack (redoStack st ++ [takeSnapshot st])
                                 (setUndoStack rest st))
  end.

Definition redo (st : editor) : editor :=
  match pop (redoStack st) with
  | None => st
  | Some (rest, last) =>
      restore last (setUndoStack (undoStack st ++ [takeSnapshot st])
                                 (setRedoStack rest st))
  end.

(** [n.px !== undefined && n.py !== undefined] *)
Definition bothPresent (x y : option C) : bool :=
  match x, y with
  | Some _, Some _ => true
  | _, _ => false
  end.

(** [strip] of [exportJSON]; the exported document is its JSON text. *)
Fixpoint strip (n : node) : raw :=
  match n with
  | Node _ nm cs _ x y =>
      Raw None (Some nm) (map strip cs) None
          (if bothPresent x y then x else None)
          (if bothPresent x y then y else None)
  end.

Definition exportJSON (st : editor) : raw := strip (tree st).

(** [addIds] of [importJSON]: [assignIds] labels a copy of the whole subtree,
    whose children are then replaced by the recursive results. *)
Fixpoint addIds (n : raw) : M node :=
  match n with
  | Raw _ nm cs _ x y =>
      base <- assignIds (Raw None nm cs None None None) ;;
      kids <- mapM addIds cs ;;
      ret (Node (id base) (name base) kids (collapsed base)
                (if bothPresent x y then x else px base)
                (if bothPresent x y then y else py base))
  end.

(** [reader.onload] of [importJSON] on a document that parsed to [json]. *)
Definition importJSON (json : raw) (st : editor) : M editor :=
  withIds <- addIds json ;;
  ret (setRedoStack [] (setUndoStack []
         (setSelectedId (Some (id withIds)) (setTree withIds st)))).

Definition reset (st : editor) : M editor :=
  t <- assignIds (Raw None (Some "Central Topic") [] None None None) ;;
  ret (setRedoStack [] (setUndoStack [] (setSelectedId None (setTree t st)))).

(** The effect "Ensure selected exists", run after every render. *)
Definition selectedExists (t : node) (s : option string) : bool :=
  match s with
  | Some i => match findNode t i with Some _ => true | None => false end
  | None => false
  end.

Definition ensureSelected (st : editor) : editor :=
  if selectedExists (tree st) (selectedId st) then st
  else setSelectedId (Some (id (tree st))) st.

(** ** The operations of the editor as one transition function *)

Inductive op : Type :=
| AddChild (i : string)
| DeleteNode (i : string)
| RenameNode (i nm : string)
| ToggleCollapse (i : string)
| Reparent (childId newParentId : string)
| MoveNode (i : string) (x y : C)
| MoveCommit
| Undo
| Redo
| ImportJSON (json : raw)
| Reset
| Select (i : string).

Definition handle (fuel : nat) (o : op) (st : editor) : M editor :=
  match o with
  | AddChild i => addChild fuel i st
  | DeleteNode i => ret (deleteNode i st)
  | RenameNode i nm => renameNode fuel i nm st
  | ToggleCollapse i => toggleCollapse fuel i st
  | Reparent c p => reparent fuel c p st
  | MoveNode i x y => moveNode fuel i x y st
  | MoveCommit => ret (moveCommit st)
  | Undo => ret (undo st)
  | Redo => ret (redo st)
  | ImportJSON json => importJSON json st
  | Reset => reset st
  | Select i => ret (setSelectedId (Some i) st)
  end.

(** A handler followed by the render it triggers and that render's effect. *)
Definition step (fuel : nat) (o : op) (st : editor) : M editor :=
  st' <- handle fuel o st ;; ret (ensureSelected st').

Fixpoint run (fuel : nat) (os : list op) (st : editor) : M editor :=
  match os with
  | [] => ret st
  | o :: os' => st' <- step fuel o st ;; run fuel os' st'
  end.

(** A drag gesture: the [moveNode] calls of its mouse moves, then [moveCommit]. *)
Definition moveOps (moves : list (string * C * C)) : list op :=
  map (fun m => MoveNode (fst (fst m)) (snd (fst m)) (snd m)) moves.

Definition drag (moves : list (string * C * C)) : list op :=
  moveOps moves ++ [MoveCommit].

(** The edits that the history records. *)
Inductive edit : Type :=
| EAddChild (i : string)
| EDeleteNode (i : string)
| ERenameNode (i nm : string)
| EToggleCollapse (i : string)
| EReparent (childId newParentId : string)
| EDrag (moves : list (string * C * C)).

Definition edit_ops (e : edit) : list op :=
  match e with
  | EAddChild i => [AddChild i]
  | EDeleteNode i => [DeleteNode i]
  | ERenameNode i nm => [RenameNode i nm]
  | EToggleCollapse i => [ToggleCollapse i]
  | EReparent c p => [Reparent c p]
  | EDrag moves => drag moves
  end.


(** ** The rest of utils.js *)

Fixpoint stripIds (n : node) : raw :=
  match n with
  | Node _ nm cs _ _ _ => Raw None (Some nm) (map stripIds cs) None None None
  end.

Definition normalize (json : raw) : M node := assignIds json.

(** ** App.jsx: the toolbar *)

(** [useMemo(() => findNode(tree, selectedId) || tree)] *)
Definition selected (st : editor) : node :=
  match selectedId st with
  | Some i => match findNode (tree st) i with
              | Some n => n
              | None => tree st
              end
  | None => tree st
  end.

(** [selected?.id || tree.id], the id the toolbar buttons act on. *)
Definition toolbarTarget (st : editor) : string :=
  if (id (selected st) =? "")%string then id (tree st) else id (selected st).

Inductive button : Type :=
| BtnChild | BtnToggle | BtnDelete | BtnUndo | BtnRedo | BtnNew.

(** What a click on a toolbar button calls; [None] for a disabled button. *)
Definition toolbarOp (b : button) (st : editor) : option op :=
  match b with
  | BtnChild => Some (AddChild (toolbarTarget st))
  | BtnToggle => Some (ToggleCollapse (toolbarTarget st))
  | BtnDelete =>
      if (toolbarTarget st =? id (tree st))%string then None
      else Some (DeleteNode (toolbarTarget st))
  | BtnUndo => match undoStack st with [] => None | _ :: _ => Some Undo end
  | BtnRedo => match redoStack st with [] => None | _ :: _ => Some Redo end
  | BtnNew => Some Reset
  end.

(** ** App.jsx: the keyboard shortcuts

    The [keydown] listener for Enter and Delete is registered by an effect
    whose dependencies are [selectedId] and [tree.id]: the listener in place
    is the one of the last render in which one of the two changed, and the
    [addChild] and [deleteNode] it calls read the [tree], the [selectedId]
    and the [preDragSnapshot] of that render.  [setUndoStack] is given a
    function and so extends the stack as it is when the key is pressed.  F2
    only sets [editSignal], which is not part of the state here. *)

Inductive key : Type := KeyEnter | KeyDelete.

(** The state of the editor and the render the [keydown] listener is of. *)
Record app : Type :=
  App { current : editor;
        listener : editor }.

(** What a handler of the render [l] works with when it runs in state [st]. *)
Definition seenBy (l st : editor) : editor :=
  Editor (tree l) (selectedId l) (undoStack st) (redoStack st) (preDragSnapshot l).

(** [onKey], from the render [l], in state [st]. *)
Definition onKey (fuel : nat) (k : key) (l st : editor) : M editor :=
  match k with
  | KeyEnter =>
      (* [addChild(selectedId || tree.id)] *)
      let target := match selectedId l with
                    | Some i => if (i =? "")%string then id (tree l) else i
                    | None => id (tree l)
                    end in
      st' <- addChild fuel target (seenBy l st) ;;
      ret (setPreDragSnapshot (preDragSnapshot st) st')
  | KeyDelete =>
      (* [if ((selectedId || tree.id) !== tree.id) deleteNode(selectedId)] *)
      match selectedId l with
      | None => ret st
      | Some i =>
          if (i =? "")%string then ret st
          else if (i =? id (tree l))%string then ret st
          else ret (setPreDragSnapshot (preDragSnapshot st)
                                       (deleteNode i (seenBy l st)))
      end
  end.

Definition sameOption (a b : option string) : bool :=
  match a, b with
  | Some x, Some y => (x =? y)%string
  | None, None => true
  | _, _ => false
  end.

(** The effect of the render [st]: a new listener when a dependency is not
    what it was for the listener [l]. *)
Definition relisten (l st : editor) : editor :=
  if sameOption (selectedId l) (selectedId st) && (id (tree l) =? id (tree st))%string
  then l else st.

(** A key press, or a call of a handler of the current render (the toolbar,
    the callbacks of the map, the undo and redo shortcuts). *)
Inductive event : Type :=
| Key (k : key)
| Call (o : op).

(** A handler, the render it triggers and that render's effects, then the
    render that "Ensure selected exists" triggers and its effects. *)
Definition appStep (fuel : nat) (e : event) (a : app) : M app :=
  mid <- match e with
         | Key k => onKey fuel k (listener a) (current a)
         | Call o => handle fuel o (current a)
         end ;;
  let st' := ensureSelected mid in
  ret (App st' (relisten (relisten (listener a) mid) st')).

Fixpoint appRun (fuel : nat) (es : list event) (a : app) : M app :=
  match es with
  | [] => ret a
  | e :: es' => a' <- appStep fuel e a ;; appRun fuel es' a'
  end.

End Model.

Arguments AddChild {C} i.
Arguments DeleteNode {C} i.
Arguments RenameNode {C} i nm.
Arguments ToggleCollapse {C} i.
Arguments Reparent {C} childId newParentId.
Arguments MoveCommit {C}.
Arguments Undo {C}.
Arguments Redo {C}.
Arguments Reset {C}.
Arguments Select {C} i.
Arguments Key {C} k.
Arguments Call {C} o.
Arguments EAddChild {C} i.
Arguments EDeleteNode {C} i.
Arguments ERenameNode {C} i nm.
Arguments EToggleCollapse {C} i.
Arguments EReparent {C} childId newParentId.
Arguments newNodeRaw {C}.

(** ** MindMap.jsx: the layout memo

    [d3.hierarchy] and [d3.tree] are library code: what they return is taken
    as it comes.  Numbers are real numbers here; the rounding of JS doubles is
    outside the model. *)

(** A node of the laid-out hierarchy, with the fields the memo reads. *)
Record hnode : Type :=
  HNode { h_data : node R;               (* d.data *)
          h_depth : nat;                 (* d.depth *)
          h_x : R;                       (* d.x, the polar angle *)
          h_y : R;                       (* d.y, the polar radius *)
          h_parentId : option string;    (* d.parent?.data?.id *)
          h_children : nat }.            (* d.children.length, 0 when absent *)

(** [laid.descendants()] and [laid.links()] (source, target). *)
Record laidOut : Type :=
  LaidOut { descendants : list hnode;
            links : list (hnode * hnode) }.

Record LayoutNode : Type :=
  MkLayoutNode { ln_data : node R;       (* ...d.data *)
                 ln_depth : nat;
                 ln_x : R;
                 ln_y : R;
                 ln_autoX : R;
                 ln_autoY : R;
                 ln_angle : R;
                 ln_r : R;
                 ln_parentId : option string;
                 ln_hasChildren : bool }.

(** The control points, depth and stroke width of a connector; the branch
    colour is not modelled. *)
Record Link : Type :=
  MkLink { l_from : R * R;
           l_c1 : R * R;
           l_c2 : R * R;
           l_to : R * R;
           l_depth : nat;
           l_width : R }.

Section Layout.

(** [d3.tree().size([a, radius]).separation(..)(d3.hierarchy(data, accessor))],
    as a function of the accessor, the size and the data. *)
Variable d3_tree : (node R -> list (node R)) -> R -> R -> node R -> laidOut.

(** [d => (d.collapsed ? [] : (d.children || []))] *)
Definition visibleChildren (d : node R) : list (node R) :=
  match collapsed d with
  | Some true => []
  | _ => children d
  end.

(** [Math.max(260, Math.min(size.w, size.h) * 0.42)] *)
Definition radius (w h : R) : R := Rmax 260 (Rmin w h * 0.42).

Definition laid (w h : R) (data : node R) : laidOut :=
  d3_tree visibleChildren (2 * PI) (radius w h) data.

(** [v ?? d] *)
Definition orElse (v : option R) (d : R) : R :=
  match v with
  | Some x => x
  | None => d
  end.

(** The callback of [laid.descendants().map]. *)
Definition layoutNode (d : hnode) : LayoutNode :=
  let autoX := (h_y d * cos (h_x d - PI / 2))%R in
  let autoY := (h_y d * sin (h_x d - PI / 2))%R in
  let px := orElse (px (h_data d)) autoX in
  let py := orElse (py (h_data d)) autoY in
  MkLayoutNode (h_data d) (h_depth d) px py autoX autoY (h_x d) (h_y d)
               (match h_parentId d with
                | Some i => if (i =? "")%string then None else Some i
                | None => None
                end)
               (Nat.ltb 0 (h_children d)).

Definition layoutNodes (w h : R) (data : node R) : list LayoutNode :=
  map layoutNode (descendants (laid w h data)).

(** [idMap.get]: of the nodes with this id, the [Map] keeps the last. *)
Definition idMapGet (nodes : list LayoutNode) (i : string) : option LayoutNode :=
  find (fun n => (id (ln_data n) =? i)%string) (rev nodes).

(** [Math.hypot(dx, dy)] *)
Definition hypot (dx dy : R) : R := sqrt (dx * dx + dy * dy).

(** [dist || 1] *)
Definition divisor (dist : R) : R :=
  if Req_dec_T dist 0 then 1%R else dist.

(** [Math.min(80, Math.max(20, dist * 0.2))] *)
Definition bendOf (dist : R) : R := Rmin 80 (Rmax 20 (dist * 0.2)).

(** [Math.max(1.5, 4 - depth * 0.4)] *)
Definition widthOf (depth : nat) : R := Rmax 1.5 (4 - INR depth * 0.4).

(** The usual clamp of [v] to the interval from [lo] to [hi]. *)
Definition clamp (v lo hi : R) : R := Rmax lo (Rmin v hi).

(** The callback of [laid.links().map], from [s] and [t] on. *)
Definition curve (s t : LayoutNode) (depth : nat) : Link :=
  let dx := (ln_x t - ln_x s)%R in
  let dy := (ln_y t - ln_y s)%R in
  let dist := hypot dx dy in
  let nx := (dx / divisor dist)%R in
  let ny := (dy / divisor dist)%R in
  let ox := (- ny)%R in
  let oy := nx in
  let bend := bendOf dist in
  MkLink (ln_x s, ln_y s)
         (ln_x s + dx * 0.33 + ox * bend * 0.2, ln_y s + dy * 0.33 + oy * bend * 0.2)%R
         (ln_x s + dx * 0.66 - ox * bend * 0.2, ln_y s + dy * 0.66 - oy * bend * 0.2)%R
         (ln_x t, ln_y t)
         depth
         (widthOf depth).

(** A link whose endpoint is not in [idMap] reads a field of [undefined]. *)
Definition linkOf (nodes : list LayoutNode) (l : hnode * hnode) : result Link :=
  match idMapGet nodes (id (h_data (fst l))), idMapGet nodes (id (h_data (snd l))) with
  | Some s, Some t => Ok (curve s t (h_depth (snd l)))
  | _, _ => Threw TypeError
  end.

Definition layoutLinks (w h : R) (data : node R) : list (result Link) :=
  map (linkOf (layoutNodes w h data)) (links (laid w h data)).

End Layout.

(** ** MindMap.jsx: the pointer handlers

    The handlers are those of the current render: each reads the [dragging]
    and [hoverTargetId] that the event before it left.  The pointer comes in
    graph coordinates, as [toGraph(e.clientX, e.clientY)] returns it. *)

Inductive dragMode : Type := MoveMode | ReparentMode.

(** [{ id, mode, dx, dy }] *)
Record dragState : Type :=
  Dragging { dg_id : string;
             dg_mode : dragMode;
             dg_dx : R;
             dg_dy : R }.

Record pointer : Type :=
  Pointer { dragging : option dragState;
            hoverTargetId : option string }.

(** What the handlers read besides: [lockCanvas], the laid-out [nodes] and
    [zoomTransform.k]. *)
Record props : Type :=
  Props { lockCanvas : bool;
          p_nodes : list LayoutNode;
          p_k : R }.

(** The events of the drag gesture.  The click handlers of a node (select,
    rename on double click, the collapse badge) read neither [lockCanvas] nor
    [dragging] and are not events here. *)
Inductive mouse : Type :=
| MouseDownNode (n : LayoutNode) (shiftKey : bool) (gx gy : R)
| MouseMove (shiftKey : bool) (gx gy : R)
| MouseUp.

(** [e.shiftKey ? 'reparent' : 'move'] *)
Definition modeOf (shiftKey : bool) : dragMode :=
  if shiftKey then ReparentMode else MoveMode.

(** [dx*dx + dy*dy] for [nd] and the pointer. *)
Definition dist2 (gx gy : R) (nd : LayoutNode) : R :=
  ((ln_x nd - gx) * (ln_x nd - gx) + (ln_y nd - gy) * (ln_y nd - gy))%R.

(** One round of the loop over [nodes]; [None] is [nearest = null] with
    [minD = Infinity]. *)
Definition nearer (dragId : string) (gx gy : R)
                  (acc : option (R * LayoutNode)) (nd : LayoutNode)
  : option (R * LayoutNode) :=
  if (id (ln_data nd) =? dragId)%string then acc
  else match acc with
       | None => Some (dist2 gx gy nd, nd)
       | Some (minD, _) =>
           if Rlt_dec (dist2 gx gy nd) minD then Some (dist2 gx gy nd, nd) else acc
       end.

Definition nearest (dragId : string) (gx gy : R) (nodes : list LayoutNode)
  : option (R * LayoutNode) :=
  fold_left (nearer dragId gx gy) nodes None.

(** The argument of [setHoverTargetId] in reparent mode. *)
Definition hoverOf (k : R) (dragId : string) (gx gy : R) (nodes : list LayoutNode)
  : option string :=
  match nearest dragId gx gy nodes with
  | Some (minD, nd) =>
      if Rlt_dec (sqrt minD) (60 / divisor k) then Some (id (ln_data nd)) else None
  | None => None
  end.

Definition handleMouseDownNode (v : props) (n : LayoutNode) (shiftKey : bool)
                               (gx gy : R) (p : pointer) : pointer * list (op R) :=
  if lockCanvas v then (p, [])
  else (Pointer (Some (Dragging (id (ln_data n)) (modeOf shiftKey)
                                (ln_x n - gx) (ln_y n - gy)))
                (hoverTargetId p),
        [Select (id (ln_data n))]).

Definition handleMouseMove (v : props) (shiftKey : bool) (gx gy : R) (p : pointer)
  : pointer * list (op R) :=
  if lockCanvas v then (p, [])
  else match dragging p with
       | None => (p, [])
       | Some d =>
           let d' := Dragging (dg_id d) (modeOf shiftKey) (dg_dx d) (dg_dy d) in
           match modeOf shiftKey with
           | MoveMode =>
               (Pointer (Some d') None,
                [MoveNode (dg_id d) (gx + dg_dx d)%R (gy + dg_dy d)%R])
           | ReparentMode =>
               (Pointer (Some d') (hoverOf (p_k v) (dg_id d) gx gy (p_nodes v)), [])
           end
       end.

Definition handleMouseUp (v : props) (p : pointer) : pointer * list (op R) :=
  if lockCanvas v then (p, [])
  else match dragging p with
       | None => (p, [])
       | Some d =>
           (Pointer None None,
            match dg_mode d, hoverTargetId p with
            | ReparentMode, Some h =>
                if (h =? "")%string then []
                else if (h =? dg_id d)%string then []
                else [Reparent (dg_id d) h]
            | _, _ => []
            end
            ++ match dg_mode d with
               | MoveMode => [MoveCommit]
               | ReparentMode => []
               end)
       end.

Definition pointerStep (v : props) (e : mouse) (p : pointer) : pointer * list (op R) :=
  match e with
  | MouseDownNode n shiftKey gx gy => handleMouseDownNode v n shiftKey gx gy p
  | MouseMove shiftKey gx gy => handleMouseMove v shiftKey gx gy p
  | MouseUp => handleMouseUp v p
  end.

(** A sequence of events, each with what its render shows, and the calls
    they make in order. *)
Fixpoint pointerRun (es : list (props * mouse)) (p : pointer) : pointer * list (op R) :=
  match es with
  | [] => (p, [])
  | (v, e) :: es' =>
      let (p1, ops1) := pointerStep v e p in
      let (p2, ops2) := pointerRun es' p1 in
      (p2, ops1 ++ ops2)
  end.

(** The events of mouse moves without Shift, each in its render. *)
Definition moveEvents (moves : list (props * (R * R))) : list (props * mouse) :=
  map (fun m => (fst m, MouseMove false (fst (snd m)) (snd (snd m)))) moves.

(** What [nearest] and [minD] hold after the loop has gone through [seen]:
    nothing when every node of [seen] is the dragged one, and otherwise a
    node of [seen] other than the dragged one with its squared distance,
    which no such node of [seen] undercuts. *)
Definition nearestAmong (dragId : string) (gx gy : R) (seen : list LayoutNode)
                        (acc : option (R * LayoutNode)) : Prop :=
  match acc with
  | None => forall nd, In nd seen -> id (ln_data nd) = dragId
  | Some (minD, n0) =>
      minD = dist2 gx gy n0 /\ In n0 seen /\ id (ln_data n0) <> dragId /\
      forall nd, In nd seen -> id (ln_data nd) <> dragId ->
                 (minD <= dist2 gx gy nd)%R
  end.

(** ** Vocabulary of the statements *)

Section Vocabulary.

Variable C : Type.

(** The nodes of a tree in document order, and their ids. *)
Fixpoint nodes (n : node C) : list (node C) :=
  match n with
  | Node _ _ cs _ _ _ => n :: flat_map nodes cs
  end.

Definition ids (n : node C) : list string := map (@id C) (nodes n).

Fixpoint height (n : node C) : nat :=
  match n with
  | Node _ _ cs _ _ _ => S (list_max (map height cs))
  end.

(** [focus a a' t t']: [t'] is [t] with one occurrence of the subtree [a]
    replaced by [a']; everything outside that occurrence is the same. *)
Inductive focus (a a' : node C) : node C -> node C -> Prop :=
| focus_here : focus a a' a a'
| focus_below t l1 c c' l2 :
    children t = l1 ++ c :: l2 ->
    focus a a' c c' ->
    focus a a' t (set_children t (l1 ++ c' :: l2)).

(** [t'] is [t] without the child subtree [m] of one of its nodes. *)
Definition detached (m t t' : node C) : Prop :=
  exists p l1 l2,
    children p = l1 ++ m :: l2 /\ focus p (set_children p (l1 ++ l2)) t t'.

(** [t'] is [t] with [m] appended as the last child of a node with id [pid]. *)
Definition attached (pid : string) (m t t' : node C) : Prop :=
  exists p,
    id p = pid /\ focus p (set_children p (children p ++ [m])) t t'.

(** [c => c.id !== id], the filter of [remove]. *)
Definition keeps (i : string) : node C -> bool :=
  fun c => negb (id c =? i)%string.

(** The fields of a node other than its children. *)
Definition label (n : node C) : string * string * option bool * option C * option C :=
  (id n, name n, collapsed n, px n, py n).

Definition labels (n : node C) := map label (nodes n).

(** Same names, same shape and order of children, and the same manual
    position wherever the first tree has both coordinates. *)
Unset Elimination Schemes.
Set Elimination Schemes.

(** [i] is one of the ids the generator returned between two points. *)
Definition generated (nanoid : nat -> string) (c c' : nat) (i : string) : Prop :=
  exists k, c <= k < c' /\ i = nanoid k.

Definition redoOp (st : editor C) : editor C := ensureSelected (redo st).

(** The selection of [st] is a node of its tree. *)
Definition settled (st : editor C) : Prop :=
  selectedExists (tree st) (selectedId st) = true.


(** An edit that the history records when it runs in [st]: no pre-drag
    snapshot is pending ([preDragSnapshot] is [null]) and no guard of the
    handler rejects it. *)
Definition recorded (e : edit C) (st : editor C) : Prop :=
  preDragSnapshot st = None /\
  match e with
  | EDeleteNode i => id (tree st) <> i
  | EReparent c p =>
      c <> id (tree st) /\ c <> p /\
      exists n, findNode (tree st) c = Some n /\ isDesc n p = false
  | EDrag moves => moves <> []
  | _ => True
  end.

(** What a callback that rewrites the fields of the nodes with id [i], and
    leaves their children alone, makes of a tree. *)
Fixpoint updateNodes (i : string) (f : node C -> node C) (n : node C) : node C :=
  match n with
  | Node ni nm cs col x y =>
      let n' := if (ni =? i)%string then f n else n in
      Node (id n') (name n') (map (updateNodes i f) cs) (collapsed n') (px n') (py n')
  end.

(** The same on the fields of one node. *)
Definition relabel (i : string)
           (g : string * string * option bool * option C * option C ->
                string * string * option bool * option C * option C)
           (l : string * string * option bool * option C * option C) :=
  if (fst (fst (fst (fst l))) =? i)%string then g l else l.

(** The number of children of each node, in document order: with it, two
    trees have the same shape. *)
Definition shape (n : node C) : list nat :=
  map (fun d => List.length (children d)) (nodes n).

(** [l1] is [l2] with some elements left out. *)
Inductive sublist {A} : list A -> list A -> Prop :=
| sublist_nil : sublist [] []
| sublist_skip x l1 l2 : sublist l1 l2 -> sublist l1 (x :: l2)
| sublist_keep x l1 l2 : sublist l1 l2 -> sublist (x :: l1) (x :: l2).

(** [d.collapsed] as a condition. *)
Definition isCollapsed (n : node C) : bool :=
  match collapsed n with
  | Some b => b
  | None => false
  end.

(** A tree read as a document: every field it has, ids included. *)
Fixpoint rawOf (n : node C) : raw C :=
  match n with
  | Node i nm cs col x y => Raw (Some i) (Some nm) (map rawOf cs) col x y
  end.

(** A document of names and children only. *)
Fixpoint plain (r : raw C) : bool :=
  match r with
  | Raw i nm cs col x y =>
      match i, nm, col, x, y with
      | None, Some _, None, None, None => forallb plain cs
      | _, _, _, _, _ => false
      end
  end.

(** No node of the document has an id or a collapsed flag, and none has one
    coordinate without the other. *)
Fixpoint exportShaped (r : raw C) : bool :=
  match r with
  | Raw i nm cs col x y =>
      match i, nm, col with
      | None, Some _, None =>
          Bool.eqb (match x with Some _ => true | None => false end)
                   (match y with Some _ => true | None => false end)
          && forallb exportShaped cs
      | _, _, _ => false
      end
  end.

(** The history holds at most ten snapshots, both stacks together. *)
Definition historyBounded (st : editor C) : Prop :=
  List.length (undoStack st) + List.length (redoStack st) <= 10.

End Vocabulary.

(** A decision procedure for [NoDup] on ids. *)
Fixpoint nodupb (l : list string) : bool :=
  match l with
  | [] => true
  | x :: l' => negb (existsb (String.eqb x) l') && nodupb l'
  end.

(** ** Sample data *)

(** A generator that numbers its ids. *)
Definition sample_nanoid (k : nat) : string :=
  "id" ++ NilEmpty.string_of_uint (Nat.to_uint k).

(** [String.prototype.trim] on ASCII white space. *)
Definition is_space (a : ascii) : bool :=
  match nat_of_ascii a with
  | 9 | 10 | 11 | 12 | 13 | 32 => true
  | _ => false
  end.

Fixpoint trimStart (s : string) : string :=
  match s with
  | EmptyString => EmptyString
  | String a s' => if is_space a then trimStart s' else s
  end.

Fixpoint trimEnd (s : string) : string :=
  match s with
  | EmptyString => EmptyString
  | String a s' =>
      match trimEnd s' with
      | EmptyString => if is_space a then EmptyString else String a EmptyString
      | r => String a r
      end
  end.

Definition ascii_trim (s : string) : string := trimEnd (trimStart s).

Definition leaf (i nm : string) : node Z := Node i nm [] None None None.

(** The shape of [DEFAULT_TREE], with ids chosen by hand. *)
Definition sampleA : node Z :=
  Node "a" "Idea A" [leaf "a1" "Detail A1"; leaf "a2" "Detail A2"] None None None.

Definition sampleB : node Z :=
  Node "b" "Idea B" [leaf "b1" "Detail B1"] None None None.

Definition sampleTree : node Z :=
  Node "r" "Central Topic" [sampleA; sampleB; leaf "c" "Idea C"] None None None.

Definition sampleEditor : editor Z :=
  Editor sampleTree (Some "a") [] [] None.

(** A laid-out hierarchy of one node, and a node with one coordinate set. *)
Definition sample_d3 (_ : node R -> list (node R)) (_ r : R) (data : node R) : laidOut :=
  LaidOut [HNode data 0 0 r None 0] [].

Definition sampleData : node R := Node "r" "Central Topic" [] None None None.

Definition halfPlaced : hnode :=
  HNode (Node "a" "Idea A" [] None (Some 5%R) None) 1 0 1 (Some "r") 0.

(** An unlocked canvas with nothing laid out, and the root laid out at the
    origin. *)
Definition sampleProps : props := Props false [] 1.

Definition sampleRoot : LayoutNode :=
  MkLayoutNode sampleData 0 0 0 0 0 0 0 None false.

Definition sampleEditorR : editor R := Editor sampleData (Some "r") [] [] None.


(** A laid-out hierarchy in which two children have the same id. *)
Definition twinData : node R :=
  Node "r" "Central Topic"
       [Node "a" "Idea A" [] None (Some 1%R) (Some 1%R);
        Node "a" "Idea A" [] None (Some 2%R) (Some 2%R)] None None None.

Definition twinRoot : hnode := HNode twinData 0 0 0 None 2.

Definition twinFirst : hnode :=
  HNode (Node "a" "Idea A" [] None (Some 1%R) (Some 1%R)) 1 0 1 (Some "r") 0.

Definition twinLast : hnode :=
  HNode (Node "a" "Idea A" [] None (Some 2%R) (Some 2%R)) 1 1 1 (Some "r") 0.

Definition twin_d3 (_ : node R -> list (node R)) (_ _ : R) (_ : node R) : laidOut :=
  LaidOut [twinRoot; twinFirst; twinLast] [(twinRoot, twinFirst); (twinRoot, twinLast)].

(** * Facts *)

Unset Implicit Arguments.

Section node_induction.

Variable C : Type.
Variable P : node C -> Prop.
Hypothesis step_case : forall n, Forall P (children n) -> P n.

Fixpoint node_children_ind (n : node C) : P n :=
  match n as n0 return P n0 with
  | Node i nm cs col x y =>
      step_case (Node i nm cs col x y)
        ((fix go (l : list (node C)) : Forall P l :=
            match l with
            | [] => Forall_nil P
            | c :: l' => Forall_cons c (node_children_ind c) (go l')
            end) cs)
  end.

End node_induction.

Section raw_induction.

Variable C : Type.
Variable P : raw C -> Prop.
Hypothesis step_case : forall r, Forall P (rchildren r) -> P r.

Fixpoint raw_children_ind (r : raw C) : P r :=
  match r as r0 return P r0 with
  | Raw i nm cs col x y =>
      step_case (Raw i nm cs col x y)
        ((fix go (l : list (raw C)) : Forall P l :=
            match l with
            | [] => Forall_nil P
            | c :: l' => Forall_cons c (raw_children_ind c) (go l')
            end) cs)
  end.

End raw_induction.

Lemma bind_ok {A B} (m : M A) (k : A -> M B) c a c' :
  m c = Ok (a, c') -> bind m k c = k a c'.
Proof. unfold bind; intros ->; reflexivity. Qed.

Lemma bind_inv {A B} (m : M A) (k : A -> M B) c b c2 :
  bind m k c = Ok (b, c2) ->
  exists a c1, m c = Ok (a, c1) /\ k a c1 = Ok (b, c2).
Proof.
  unfold bind; destruct (m c) as [[a c1]|e]; [|discriminate].
  intros H; exists a, c1; split; [reflexivity|exact H].
Qed.

(** Rewrite the first [bind] of the goal with a known result. *)
Ltac bind_with H := rewrite (bind_ok _ _ _ _ _ H).

Lemma mapM_map {A B} (f : A -> M B) (g : A -> B) l c :
  (forall x, In x l -> f x c = Ok (g x, c)) -> mapM f l c = Ok (map g l, c).
Proof.
  induction l as [|x l IH]; intros H; simpl; [reflexivity|].
  bind_with (H x (or_introl eq_refl)).
  bind_with (IH (fun y Hy => H y (or_intror Hy))).
  reflexivity.
Qed.

Lemma mapM_same {A} (f : A -> M A) l c :
  (forall x, In x l -> f x c = Ok (x, c)) -> mapM f l c = Ok (l, c).
Proof.
  intros H. rewrite (mapM_map f (fun x => x) l c H), map_id. reflexivity.
Qed.

Lemma mapM_focus {A} (f : A -> M A) l1 y y' l2 c :
  (forall x, In x (l1 ++ l2) -> f x c = Ok (x, c)) ->
  f y c = Ok (y', c) ->
  mapM f (l1 ++ y :: l2) c = Ok (l1 ++ y' :: l2, c).
Proof.
  induction l1 as [|x l1 IH]; intros H Hy; simpl.
  - bind_with Hy.
    bind_with (mapM_same f l2 c (fun z Hz => H z Hz)).
    reflexivity.
  - bind_with (H x (or_introl eq_refl)).
    bind_with (IH (fun z Hz => H z (or_intror Hz)) Hy).
    reflexivity.
Qed.

(** ** Trees *)

Section Facts.

Variable C : Type.
Implicit Types (n t d : node C) (i : string).

Lemma set_children_same n : set_children n (children n) = n.
Proof. destruct n; reflexivity. Qed.

Lemma nodes_eq n : nodes n = n :: flat_map (@nodes C) (children n).
Proof. destruct n; reflexivity. Qed.

Lemma ids_flat_map (l : list (node C)) :
  map (@id C) (flat_map (@nodes C) l) = flat_map (@ids C) l.
Proof.
  induction l as [|c l IH]; simpl; [reflexivity|].
  rewrite map_app, IH; reflexivity.
Qed.

Lemma ids_eq n : ids n = id n :: flat_map (@ids C) (children n).
Proof. unfold ids at 1; rewrite nodes_eq; simpl; rewrite ids_flat_map; reflexivity. Qed.

Lemma height_eq n : height n = S (list_max (map (@height C) (children n))).
Proof. destruct n; reflexivity. Qed.

Lemma list_max_in (l : list nat) x : In x l -> x <= list_max l.
Proof.
  induction l as [|y l IH]; simpl; [tauto|].
  intros [->|H]; [lia|]. specialize (IH H); lia.
Qed.

Lemma height_child n c : In c (children n) -> height c < height n.
Proof.
  intros H. rewrite (height_eq n).
  pose proof (list_max_in (map (@height C) (children n)) (height c)
                (in_map _ _ _ H)); lia.
Qed.

Lemma in_nodes t d :
  In d (nodes t) <-> d = t \/ exists c, In c (children t) /\ In d (nodes c).
Proof.
  rewrite nodes_eq; simpl; rewrite in_flat_map.
  split; intros [H|H]; auto.
Qed.

Lemma in_ids t i :
  In i (ids t) <-> i = id t \/ exists c, In c (children t) /\ In i (ids c).
Proof.
  rewrite ids_eq; simpl; rewrite in_flat_map.
  split; intros [H|H]; auto.
Qed.

Lemma in_nodes_ids t d : In d (nodes t) -> In (id d) (ids t).
Proof. intros H; unfold ids; apply in_map; exact H. Qed.

Lemma nodes_trans t d e : In d (nodes t) -> In e (nodes d) -> In e (nodes t).
Proof.
  induction t as [t IH] using node_children_ind; intros Hd He.
  apply in_nodes in Hd; destruct Hd as [->|[c [Hc Hd]]]; [exact He|].
  apply in_nodes; right; exists c; split; [exact Hc|].
  rewrite Forall_forall in IH; auto.
Qed.

Lemma clone_id n : clone n = n.
Proof.
  induction n as [n IH] using node_children_ind.
  destruct n as [i nm cs col x y]; simpl in *.
  f_equal. induction IH as [|c l Hc _ IHl]; simpl; [reflexivity|].
  rewrite Hc, IHl; reflexivity.
Qed.

Lemma findNode_eq t i :
  findNode t i = if (id t =? i)%string then Some t
                 else firstSome (fun c => findNode c i) (children t).
Proof. destruct t; reflexivity. Qed.

Lemma findNode_root t : findNode t (id t) = Some t.
Proof. rewrite findNode_eq, String.eqb_refl; reflexivity. Qed.

Lemma firstSome_none {A B} (f : A -> option B) l :
  firstSome f l = None <-> forall a, In a l -> f a = None.
Proof.
  induction l as [|a l IH]; simpl; [tauto|].
  destruct (f a) eqn:E.
  - split; [discriminate|]. intros H; rewrite <- E; apply H; auto.
  - rewrite IH; split; [intros H b [<-|Hb]; auto | intros H b Hb; auto].
Qed.

Lemma firstSome_some {A B} (f : A -> option B) l b :
  firstSome f l = Some b ->
  exists l1 a l2, l = l1 ++ a :: l2 /\ f a = Some b /\ forall x, In x l1 -> f x = None.
Proof.
  induction l as [|a l IH]; simpl; [discriminate|].
  destruct (f a) eqn:E.
  - intros [= <-]; exists [], a, l; simpl; tauto.
  - intros H; destruct (IH H) as (l1 & a' & l2 & -> & Ha & Hl).
    exists (a :: l1), a', l2; simpl; repeat split; auto.
    intros x [<-|Hx]; auto.
Qed.

Lemma findNode_in t i d : findNode t i = Some d -> In d (nodes t) /\ id d = i.
Proof.
  induction t as [t IH] using node_children_ind; rewrite findNode_eq.
  destruct (String.eqb_spec (id t) i) as [E|E].
  - intros [= <-]; split; [apply in_nodes; auto|exact E].
  - intros H; apply firstSome_some in H.
    destruct H as (l1 & c & l2 & Hcs & Hc & _).
    rewrite Forall_forall in IH.
    assert (Hin : In c (children t)) by (rewrite Hcs; apply in_elt).
    destruct (IH c Hin Hc) as [H1 H2]; split; [|exact H2].
    apply in_nodes; right; exists c; auto.
Qed.

Lemma findNode_none t i : findNode t i = None <-> ~ In i (ids t).
Proof.
  induction t as [t IH] using node_children_ind; rewrite findNode_eq, in_ids.
  rewrite Forall_forall in IH.
  destruct (String.eqb_spec (id t) i) as [E|E].
  - split; [discriminate|]. intros H; exfalso; apply H; auto.
  - rewrite firstSome_none; split.
    + intros H [E'|[c [Hc Hi]]]; [congruence|].
      apply (IH c Hc); auto.
    + intros H c Hc; apply (IH c Hc); intros Hi; apply H; right; eauto.
Qed.

Lemma findNode_present t i : In i (ids t) -> exists d, findNode t i = Some d.
Proof.
  intros H; destruct (findNode t i) eqn:E; [eauto|].
  apply findNode_none in E; contradiction.
Qed.

Lemma isDesc_eq n i :
  isDesc n i = if (id n =? i)%string then true
               else existsb (fun c => isDesc c i) (children n).
Proof. destruct n; reflexivity. Qed.

Lemma isDesc_true n i : isDesc n i = true <-> In i (ids n).
Proof.
  induction n as [n IH] using node_children_ind; rewrite isDesc_eq, in_ids.
  rewrite Forall_forall in IH.
  destruct (String.eqb_spec (id n) i) as [E|E].
  - split; auto.
  - rewrite existsb_exists; split.
    + intros [c [Hc H]]; right; exists c; split; [exact Hc|apply IH; auto].
    + intros [E'|[c [Hc H]]]; [congruence|].
      exists c; split; [exact Hc|apply IH; auto].
Qed.

Lemma isDesc_false n i : isDesc n i = false <-> ~ In i (ids n).
Proof.
  rewrite <- isDesc_true; destruct (isDesc n i); split; congruence.
Qed.

(** ** Unique ids *)

Lemma NoDup_app_inv {A} (l1 l2 : list A) :
  NoDup (l1 ++ l2) ->
  NoDup l1 /\ NoDup l2 /\ (forall a, In a l1 -> ~ In a l2).
Proof.
  induction l1 as [|x l1 IH]; simpl; intros H.
  - repeat split; [constructor|exact H|tauto].
  - inversion H as [|? ? Hx Hnd]; subst.
    destruct (IH Hnd) as (H1 & H2 & H3).
    repeat split; auto.
    + constructor; [intros Hin; apply Hx, in_or_app; auto|exact H1].
    + intros a [<-|Ha] Hin; [apply Hx, in_or_app; auto|exact (H3 a Ha Hin)].
Qed.

Lemma NoDup_map_eq {A B} (f : A -> B) (l : list A) a b :
  NoDup (map f l) -> In a l -> In b l -> f a = f b -> a = b.
Proof.
  induction l as [|x l IH]; simpl; [tauto|].
  intros H Ha Hb E; inversion H as [|? ? Hx Hnd]; subst.
  destruct Ha as [->|Ha], Hb as [->|Hb]; auto.
  - exfalso; apply Hx; rewrite E; apply in_map; exact Hb.
  - exfalso; apply Hx; rewrite <- E; apply in_map; exact Ha.
Qed.

Lemma unique_node t a b :
  NoDup (ids t) -> In a (nodes t) -> In b (nodes t) -> id a = id b -> a = b.
Proof. intros H; apply NoDup_map_eq; exact H. Qed.

Lemma ids_self n : In (id n) (ids n).
Proof. rewrite ids_eq; left; reflexivity. Qed.

Lemma nodes_self n : In n (nodes n).
Proof. rewrite nodes_eq; left; reflexivity. Qed.

Lemma ids_in_nodes t i : In i (ids t) -> exists d, In d (nodes t) /\ id d = i.
Proof.
  unfold ids; rewrite in_map_iff; intros [d [E H]]; eauto.
Qed.

Lemma nodes_ids_incl t d i : In d (nodes t) -> In i (ids d) -> In i (ids t).
Proof.
  intros Hd Hi; apply ids_in_nodes in Hi; destruct Hi as [e [He <-]].
  apply in_nodes_ids; eapply nodes_trans; eauto.
Qed.

(** The subtrees under the children of a node have pairwise disjoint ids,
    none of which is the node's own. *)
Lemma unique_split t l1 c l2 :
  NoDup (ids t) -> children t = l1 ++ c :: l2 ->
  NoDup (ids c) /\ ~ In (id t) (ids c) /\
  (forall i, In i (ids c) -> forall x, In x (l1 ++ l2) -> ~ In i (ids x)) /\
  (forall x, In x (l1 ++ l2) -> ~ In (id t) (ids x)).
Proof.
  intros H E; rewrite ids_eq, E in H.
  inversion H as [|? ? Ht Hnd]; subst.
  rewrite flat_map_app in Hnd, Ht; simpl in Hnd, Ht.
  destruct (NoDup_app_inv _ _ Hnd) as (_ & H2 & H12).
  destruct (NoDup_app_inv _ _ H2) as (Hc & _ & H23).
  repeat split.
  - exact Hc.
  - intros Hin; apply Ht, in_or_app; right; apply in_or_app; auto.
  - intros i Hi x Hx Hix; apply in_app_or in Hx; destruct Hx as [Hx|Hx].
    + apply (H12 i); [apply in_flat_map; eauto|apply in_or_app; auto].
    + apply (H23 i Hi); apply in_flat_map; eauto.
  - intros x Hx Hin; apply Ht; apply in_app_or in Hx; destruct Hx as [Hx|Hx].
    + apply in_or_app; left; apply in_flat_map; eauto.
    + apply in_or_app; right; apply in_or_app; right; apply in_flat_map; eauto.
Qed.

Lemma unique_child t c : NoDup (ids t) -> In c (children t) -> NoDup (ids c).
Proof.
  intros H Hc; destruct (in_split _ _ Hc) as (l1 & l2 & E).
  exact (proj1 (unique_split t l1 c l2 H E)).
Qed.

(** A proper descendant never carries the id of the node above it. *)
Lemma proper_descendant_id t a b :
  NoDup (ids t) -> In a (nodes t) -> In b (children a) -> ~ In (id t) (ids b).
Proof.
  intros H Ha Hb Hin.
  apply in_nodes in Ha; destruct Ha as [->|[c [Hc Ha]]].
  - destruct (in_split _ _ Hb) as (l1 & l2 & E).
    exact (proj1 (proj2 (unique_split _ _ _ _ H E)) Hin).
  - destruct (in_split _ _ Hc) as (l1 & l2 & E).
    apply (proj1 (proj2 (unique_split _ _ _ _ H E))).
    apply (nodes_ids_incl c a); [exact Ha|].
    apply in_ids; right; eauto.
Qed.

(** ** [remove]: dropping a subtree *)

Lemma filter_map_same {A} (keep : A -> bool) (f : A -> A) l :
  (forall x, In x l -> keep x = true /\ f x = x) -> map f (filter keep l) = l.
Proof.
  induction l as [|x l IH]; simpl; intros H; [reflexivity|].
  destruct (H x (or_introl eq_refl)) as [-> E]; simpl.
  rewrite E, IH; [reflexivity|]. intros y Hy; apply H; auto.
Qed.

Lemma remove_eq i n :
  remove i n = set_children n (map (remove i) (filter (keeps i) (children n))).
Proof.
  destruct n as [ni nm cs col x y]; unfold set_children; simpl; f_equal.
  induction cs as [|c cs IH]; simpl; [reflexivity|].
  unfold keeps at 1; destruct (id c =? i)%string; simpl; rewrite IH; reflexivity.
Qed.

Lemma remove_absent i n : ~ In i (flat_map (@ids C) (children n)) -> remove i n = n.
Proof.
  induction n as [n IH] using node_children_ind; intros H.
  rewrite Forall_forall in IH.
  rewrite remove_eq, filter_map_same; [apply set_children_same|].
  intros c Hc.
  assert (Hi : ~ In i (ids c)) by (intros Hi; apply H, in_flat_map; eauto).
  split.
  - unfold keeps; destruct (String.eqb_spec (id c) i) as [E|E]; [|reflexivity].
    exfalso; apply Hi; rewrite <- E; apply ids_self.
  - apply IH; [exact Hc|]. intros Hin; apply Hi; rewrite ids_eq; right; exact Hin.
Qed.

Lemma remove_absent_ids i n : ~ In i (ids n) -> remove i n = n.
Proof. intros H; apply remove_absent; intros Hin; apply H; rewrite ids_eq; right; exact Hin. Qed.

Lemma remove_here t l1 b l2 :
  NoDup (ids t) -> children t = l1 ++ b :: l2 ->
  remove (id b) t = set_children t (l1 ++ l2).
Proof.
  intros H E; destruct (unique_split t l1 b l2 H E) as (_ & _ & Hsep & _).
  rewrite remove_eq, E, filter_app, map_app; simpl.
  unfold keeps at 2; rewrite String.eqb_refl; simpl.
  rewrite <- map_app, <- filter_app, filter_map_same; [reflexivity|].
  intros x Hx.
  assert (Hi : ~ In (id b) (ids x)) by (apply Hsep; [apply ids_self|exact Hx]).
  split; [|apply remove_absent_ids; exact Hi].
  unfold keeps; destruct (String.eqb_spec (id x) (id b)) as [Ex|Ex]; [|reflexivity].
  exfalso; apply Hi; rewrite <- Ex; apply ids_self.
Qed.

Lemma remove_below t k1 x k2 i :
  NoDup (ids t) -> children t = k1 ++ x :: k2 ->
  In i (ids x) -> i <> id x ->
  remove i t = set_children t (k1 ++ remove i x :: k2).
Proof.
  intros H E Hi Hne; destruct (unique_split t k1 x k2 H E) as (_ & _ & Hsep & _).
  assert (Hother : forall y, In y (k1 ++ k2) -> keeps i y = true /\ remove i y = y).
  { intros y Hy; pose proof (Hsep i Hi y Hy) as Hy'.
    split; [|apply remove_absent_ids; exact Hy'].
    unfold keeps; destruct (String.eqb_spec (id y) i) as [Ey|Ey]; [|reflexivity].
    exfalso; apply Hy'; rewrite <- Ey; apply ids_self. }
  rewrite remove_eq, E, filter_app, map_app; simpl.
  unfold keeps at 2; destruct (String.eqb_spec (id x) i) as [Ex|_]; [congruence|]; simpl.
  rewrite (filter_map_same (keeps i) (remove i) k1), (filter_map_same (keeps i) (remove i) k2);
    [reflexivity| |]; intros y Hy; apply Hother, in_or_app; auto.
Qed.

(** With unique ids, [remove (id b)] drops [b] from the children of its
    parent [a] and touches nothing else. *)
Lemma remove_focus t a l1 b l2 :
  NoDup (ids t) -> In a (nodes t) -> children a = l1 ++ b :: l2 ->
  focus a (set_children a (l1 ++ l2)) t (remove (id b) t).
Proof.
  induction t as [t IH] using node_children_ind; intros H Ha E.
  rewrite Forall_forall in IH.
  apply in_nodes in Ha; destruct Ha as [->|[x [Hx Ha]]].
  - rewrite (remove_here _ _ _ _ H E); constructor.
  - destruct (in_split _ _ Hx) as (k1 & k2 & Et).
    assert (Hb : In b (children a)) by (rewrite E; apply in_elt).
    assert (Hux : NoDup (ids x)) by (eapply unique_child; eauto).
    rewrite (remove_below t k1 x k2 (id b) H Et).
    + eapply focus_below; [exact Et|]. apply IH; auto.
    + apply (nodes_ids_incl x a); [exact Ha|]. apply in_ids; right; exists b; split; [exact Hb|apply ids_self].
    + intros Eid; apply (proper_descendant_id x a b Hux Ha Hb); rewrite <- Eid; apply ids_self.
Qed.


(** ** [removeMoved]: the same tree as [remove], and the node it dropped *)

Lemma removeMoved_eq i n m :
  removeMoved i n m =
  let '(kids, m2) := visitKept i (removeMoved i) (children n)
                               (movedAfterFilter i (children n) m) in
  (set_children n kids, m2).
Proof. destruct n; reflexivity. Qed.

Lemma visitKept_same i (visit : node C -> option (node C) -> node C * option (node C)) l m :
  (forall x, In x l -> id x <> i /\ forall m', visit x m' = (x, m')) ->
  visitKept i visit l m = (l, m).
Proof.
  induction l as [|x l IH]; simpl; intros H; [reflexivity|].
  destruct (H x (or_introl eq_refl)) as [Hne Hx].
  destruct (String.eqb_spec (id x) i) as [E|_]; [contradiction|].
  rewrite Hx, IH; [reflexivity|]. intros y Hy; apply H; auto.
Qed.

Lemma visitKept_skip i (visit : node C -> option (node C) -> node C * option (node C)) l1 b l2 m :
  (forall x, In x (l1 ++ l2) -> id x <> i /\ forall m', visit x m' = (x, m')) ->
  id b = i ->
  visitKept i visit (l1 ++ b :: l2) m = (l1 ++ l2, m).
Proof.
  induction l1 as [|x l1 IH]; simpl; intros H Eb.
  - rewrite Eb, String.eqb_refl. apply visitKept_same; exact H.
  - destruct (H x (or_introl eq_refl)) as [Hne Hx].
    destruct (String.eqb_spec (id x) i) as [E|_]; [contradiction|].
    rewrite Hx, IH; [reflexivity| |exact Eb]. intros y Hy; apply H; auto.
Qed.

Lemma visitKept_focus i (visit : node C -> option (node C) -> node C * option (node C))
      k1 x x' k2 m m' :
  (forall y, In y (k1 ++ k2) -> id y <> i /\ forall m0, visit y m0 = (y, m0)) ->
  id x <> i -> visit x m = (x', m') ->
  visitKept i visit (k1 ++ x :: k2) m = (k1 ++ x' :: k2, m').
Proof.
  induction k1 as [|y k1 IH]; simpl; intros H Hne Hx.
  - destruct (String.eqb_spec (id x) i) as [E|_]; [contradiction|].
    rewrite Hx, visitKept_same; [reflexivity|exact H].
  - destruct (H y (or_introl eq_refl)) as [Hy1 Hy2].
    destruct (String.eqb_spec (id y) i) as [E|_]; [contradiction|].
    rewrite Hy2, IH; [reflexivity| |exact Hne|exact Hx]. intros z Hz; apply H; auto.
Qed.

Lemma movedAfterFilter_same i (l : list (node C)) m :
  (forall x, In x l -> id x <> i) -> movedAfterFilter i l m = m.
Proof.
  unfold movedAfterFilter; revert m; induction l as [|x l IH]; simpl; intros m H; [reflexivity|].
  destruct (String.eqb_spec (id x) i) as [E|_]; [exfalso; apply (H x); auto|].
  apply IH; intros y Hy; apply H; auto.
Qed.

Lemma movedAfterFilter_found i (l1 : list (node C)) b l2 m :
  id b = i -> (forall x, In x l2 -> id x <> i) ->
  movedAfterFilter i (l1 ++ b :: l2) m = Some b.
Proof.
  intros Eb H; unfold movedAfterFilter; rewrite fold_left_app; simpl.
  rewrite Eb, String.eqb_refl. apply (movedAfterFilter_same i l2 (Some b) H).
Qed.

Lemma removeMoved_absent i n m :
  ~ In i (flat_map (@ids C) (children n)) -> removeMoved i n m = (n, m).
Proof.
  revert m; induction n as [n IH] using node_children_ind; intros m H.
  rewrite Forall_forall in IH.
  assert (Hc : forall x, In x (children n) ->
                 id x <> i /\ forall m', removeMoved i x m' = (x, m')).
  { intros x Hx.
    assert (Hi : ~ In i (ids x)) by (intros Hi; apply H, in_flat_map; eauto).
    split; [intros E; apply Hi; rewrite <- E; apply ids_self|].
    intros m'; apply IH; [exact Hx|].
    intros Hin; apply Hi; rewrite ids_eq; right; exact Hin. }
  rewrite removeMoved_eq, movedAfterFilter_same by (intros x Hx; apply Hc; exact Hx).
  rewrite visitKept_same by exact Hc.
  rewrite set_children_same; reflexivity.
Qed.

Lemma removeMoved_absent_ids i n m : ~ In i (ids n) -> removeMoved i n m = (n, m).
Proof.
  intros H; apply removeMoved_absent; intros Hin; apply H; rewrite ids_eq; right; exact Hin.
Qed.

Lemma removeMoved_fst i n m : fst (removeMoved i n m) = remove i n.
Proof.
  revert m; induction n as [n IH] using node_children_ind; intros m.
  rewrite removeMoved_eq, remove_eq.
  generalize (movedAfterFilter i (children n) m); intros m0.
  assert (H : fst (visitKept i (removeMoved i) (children n) m0)
              = map (remove i) (filter (keeps i) (children n))).
  { revert m0; induction IH as [|c l Hc _ IHl]; intros m0; simpl; [reflexivity|].
    unfold keeps at 1; destruct (id c =? i)%string; simpl; [apply IHl|].
    specialize (Hc m0); destruct (removeMoved i c m0) as [c' m1]; simpl in Hc.
    specialize (IHl m1); destruct (visitKept i (removeMoved i) l m1) as [r m2].
    simpl in *; rewrite Hc, IHl; reflexivity. }
  destruct (visitKept i (removeMoved i) (children n) m0) as [kids m2].
  simpl in *; rewrite H; reflexivity.
Qed.

(** With unique ids, [moved] ends up holding the child dropped from [a]. *)
Lemma removeMoved_snd t a l1 b l2 m :
  NoDup (ids t) -> In a (nodes t) -> children a = l1 ++ b :: l2 ->
  snd (removeMoved (id b) t m) = Some b.
Proof.
  revert m; induction t as [t IH] using node_children_ind; intros m H Ha E.
  rewrite Forall_forall in IH.
  apply in_nodes in Ha; destruct Ha as [->|[x [Hx Ha]]].
  - destruct (unique_split t l1 b l2 H E) as (_ & _ & Hsep & _).
    assert (Hc : forall y, In y (l1 ++ l2) ->
                   id y <> id b /\ forall m', removeMoved (id b) y m' = (y, m')).
    { intros y Hy; pose proof (Hsep (id b) (ids_self b) y Hy) as Hi.
      split; [intros Ey; apply Hi; rewrite <- Ey; apply ids_self|].
      intros m'; apply removeMoved_absent_ids; exact Hi. }
    rewrite removeMoved_eq, E.
    rewrite movedAfterFilter_found;
      [|reflexivity|intros y Hy; apply Hc, in_or_app; auto].
    rewrite visitKept_skip; [reflexivity|exact Hc|reflexivity].
  - destruct (in_split _ _ Hx) as (k1 & k2 & Et).
    assert (Hb : In b (children a)) by (rewrite E; apply in_elt).
    assert (Hux : NoDup (ids x)) by (eapply unique_child; eauto).
    assert (Hbx : In (id b) (ids x)).
    { apply (nodes_ids_incl x a); [exact Ha|].
      apply in_ids; right; exists b; split; [exact Hb|apply ids_self]. }
    assert (Hne : id x <> id b).
    { intros Eid; apply (proper_descendant_id x a b Hux Ha Hb); rewrite Eid; apply ids_self. }
    destruct (unique_split t k1 x k2 H Et) as (_ & _ & Hsep & _).
    assert (Hc : forall y, In y (k1 ++ k2) ->
                   id y <> id b /\ forall m', removeMoved (id b) y m' = (y, m')).
    { intros y Hy; pose proof (Hsep (id b) Hbx y Hy) as Hi.
      split; [intros Ey; apply Hi; rewrite <- Ey; apply ids_self|].
      intros m'; apply removeMoved_absent_ids; exact Hi. }
    rewrite removeMoved_eq, Et.
    rewrite movedAfterFilter_same.
    2:{ intros y Hy; apply in_elt_inv in Hy; destruct Hy as [<-|Hy]; [exact Hne|apply Hc; exact Hy]. }
    specialize (IH x Hx m Hux Ha E).
    destruct (removeMoved (id b) x m) as [x' m'] eqn:Ex; simpl in IH; subst m'.
    rewrite (visitKept_focus (id b) (removeMoved (id b)) k1 x x' k2 m (Some b) Hc Hne Ex).
    reflexivity.
Qed.

Lemma removeMoved_found t a l1 b l2 m :
  NoDup (ids t) -> In a (nodes t) -> children a = l1 ++ b :: l2 ->
  removeMoved (id b) t m = (remove (id b) t, Some b).
Proof.
  intros H Ha E.
  rewrite (surjective_pairing (removeMoved (id b) t m)).
  rewrite removeMoved_fst, (removeMoved_snd t a l1 b l2 m H Ha E); reflexivity.
Qed.

(** ** [focus] *)

Lemma parent_exists t c d :
  In c (children t) -> In d (nodes c) ->
  exists a l1 l2, In a (nodes t) /\ children a = l1 ++ d :: l2.
Proof.
  revert c; induction t as [t IH] using node_children_ind; intros c Hc Hd.
  rewrite Forall_forall in IH.
  apply in_nodes in Hd; destruct Hd as [->|[c2 [Hc2 Hd]]].
  - destruct (in_split _ _ Hc) as (l1 & l2 & E).
    exists t, l1, l2; split; [apply nodes_self|exact E].
  - destruct (IH c Hc c2 Hc2 Hd) as (a & l1 & l2 & Ha & E).
    exists a, l1, l2; split; [|exact E].
    apply in_nodes; right; eauto.
Qed.

Lemma focus_in_source a a' t t' : focus a a' t t' -> In a (nodes t).
Proof.
  induction 1 as [|t l1 c c' l2 E _ IH]; [apply nodes_self|].
  apply in_nodes; right; exists c; split; [rewrite E; apply in_elt|exact IH].
Qed.

Lemma focus_in_result a a' t t' : focus a a' t t' -> In a' (nodes t').
Proof.
  induction 1 as [|t l1 c c' l2 E _ IH]; [apply nodes_self|].
  apply in_nodes; right; exists c'; split; [simpl; apply in_elt|exact IH].
Qed.

(** Outside the replaced occurrence the document order is untouched. *)
Lemma focus_map_nodes {X} (g : node C -> X) a a' t t' :
  (forall n cs, g (set_children n cs) = g n) ->
  focus a a' t t' ->
  exists L1 L2,
    map g (nodes t) = L1 ++ map g (nodes a) ++ L2 /\
    map g (nodes t') = L1 ++ map g (nodes a') ++ L2.
Proof.
  intros Hg; induction 1 as [|t l1 c c' l2 E _ (L1 & L2 & H1 & H2)].
  - exists [], []; simpl; rewrite !app_nil_r; auto.
  - exists (g t :: map g (flat_map (@nodes C) l1) ++ L1),
           (L2 ++ map g (flat_map (@nodes C) l2)).
    rewrite (nodes_eq t), (nodes_eq (set_children t _)), E; simpl.
    rewrite Hg, !flat_map_app; simpl.
    rewrite !map_app, H1, H2.
    split; f_equal; repeat rewrite <- app_assoc; reflexivity.
Qed.

(** ** [mapTree] *)

Lemma mapTree_eq fuel (fn : node C -> M (node C)) n :
  mapTree (S fuel) fn n =
  (next <- fn n ;; kids <- mapM (mapTree fuel fn) (children next) ;;
   ret (set_children next kids)).
Proof. reflexivity. Qed.

(** Where [fn] returns every node of the tree as it is, so does [mapTree],
    once the stack is as deep as the tree. *)
Lemma mapTree_same (fn : node C -> M (node C)) (c : nat) n :
  forall fuel, height n <= fuel ->
  (forall d, In d (nodes n) -> fn d c = Ok (d, c)) ->
  mapTree fuel fn n c = Ok (n, c).
Proof.
  induction n as [n IH] using node_children_ind; intros fuel Hf H.
  rewrite Forall_forall in IH.
  destruct fuel as [|fuel]; [exfalso; rewrite height_eq in Hf; lia|].
  rewrite mapTree_eq. bind_with (H n (nodes_self n)).
  assert (Hk : mapM (mapTree fuel fn) (children n) c = Ok (children n, c)).
  { apply mapM_same; intros x Hx; apply IH; [exact Hx| |].
    - pose proof (height_child n x Hx); lia.
    - intros d Hd; apply H, in_nodes; right; eauto. }
  bind_with Hk. unfold ret; rewrite set_children_same; reflexivity.
Qed.

Lemma set_children_twice n (l l' : list (node C)) :
  set_children (set_children n l) l' = set_children n l'.
Proof. reflexivity. Qed.

(** The callback of [reparent]'s [mapTree]. *)
Lemma mapTree_attach pid m (c : nat) t a :
  forall fuel,
  NoDup (ids t) -> In a (nodes t) -> id a = pid -> ~ In pid (ids m) ->
  height t + height m <= fuel ->
  exists t',
    mapTree fuel (fun n => if (id n =? pid)%string
                           then ret (set_children n (children n ++ [m]))
                           else ret n) t c = Ok (t', c) /\
    focus a (set_children a (children a ++ [m])) t t'.
Proof.
  set (fn := fun n => if (id n =? pid)%string
                      then ret (set_children n (children n ++ [m])) else ret n).
  assert (Hfn : forall d, id d <> pid -> fn d c = Ok (d, c)).
  { intros d Hd; unfold fn; destruct (String.eqb_spec (id d) pid); [contradiction|reflexivity]. }
  assert (Hsame : forall x fuel, ~ In pid (ids x) -> height x <= fuel ->
                                 mapTree fuel fn x c = Ok (x, c)).
  { intros x fuel Hx Hf; apply mapTree_same; [exact Hf|].
    intros d Hd; apply Hfn; intros E; apply Hx; rewrite <- E; apply in_nodes_ids; exact Hd. }
  induction t as [t IH] using node_children_ind; intros fuel H Ha Ea Hm Hf.
  rewrite Forall_forall in IH.
  assert (Hm1 : 1 <= height m) by (rewrite height_eq; lia).
  destruct fuel as [|fuel]; [lia|].
  apply in_nodes in Ha; destruct Ha as [->|[x [Hx Ha]]].
  - exists (set_children t (children t ++ [m])); split; [|constructor].
    rewrite mapTree_eq.
    assert (E1 : fn t c = Ok (set_children t (children t ++ [m]), c)).
    { unfold fn; rewrite Ea, String.eqb_refl; reflexivity. }
    bind_with E1. simpl children.
    assert (Hk : mapM (mapTree fuel fn) (children t ++ [m]) c = Ok (children t ++ [m], c)).
    { apply mapM_same; intros y Hy; apply in_app_or in Hy; destruct Hy as [Hy|[<-|[]]].
      - apply Hsame; [|pose proof (height_child t y Hy); lia].
        destruct (in_split _ _ Hy) as (k1 & k2 & E).
        rewrite <- Ea; exact (proj1 (proj2 (unique_split t k1 y k2 H E))).
      - apply Hsame; [exact Hm|rewrite (height_eq t) in Hf; lia]. }
    bind_with Hk. reflexivity.
  - destruct (in_split _ _ Hx) as (k1 & k2 & Et).
    destruct (unique_split t k1 x k2 H Et) as (Hux & Htx & Hsep & _).
    assert (Hpx : In pid (ids x)) by (rewrite <- Ea; apply in_nodes_ids; exact Ha).
    destruct (IH x Hx fuel Hux Ha Ea Hm) as (x' & Ex & Fx).
    { pose proof (height_child t x Hx); lia. }
    exists (set_children t (k1 ++ x' :: k2)); split; [|eapply focus_below; eauto].
    rewrite mapTree_eq.
    assert (E1 : fn t c = Ok (t, c)).
    { apply Hfn; intros E; apply Htx; rewrite E; exact Hpx. }
    bind_with E1. rewrite Et.
    assert (Hk : mapM (mapTree fuel fn) (k1 ++ x :: k2) c = Ok (k1 ++ x' :: k2, c)).
    { apply mapM_focus; [|exact Ex].
      intros y Hy; apply Hsame; [apply (Hsep pid Hpx y Hy)|].
      assert (In y (children t)).
      { rewrite Et; apply in_app_or in Hy; apply in_or_app; simpl; tauto. }
      pose proof (height_child t y H0); lia. }
    bind_with Hk. reflexivity.
Qed.


Lemma detached_map_nodes {X} (g : node C -> X) m t t' :
  (forall n cs, g (set_children n cs) = g n) ->
  detached m t t' ->
  exists L1 L2,
    map g (nodes t) = L1 ++ map g (nodes m) ++ L2 /\
    map g (nodes t') = L1 ++ L2.
Proof.
  intros Hg (p & l1 & l2 & E & F).
  destruct (focus_map_nodes g _ _ _ _ Hg F) as (L1 & L2 & H1 & H2).
  exists (L1 ++ g p :: map g (flat_map (@nodes C) l1)),
         (map g (flat_map (@nodes C) l2) ++ L2).
  rewrite H1, H2, (nodes_eq p), (nodes_eq (set_children p _)), E; simpl.
  rewrite Hg, !flat_map_app; simpl. rewrite !map_app.
  split; repeat (rewrite <- app_assoc; simpl); reflexivity.
Qed.

(** A node found under an id other than the root's has a parent. *)
Lemma found_has_parent t i d :
  findNode t i = Some d -> i <> id t ->
  id d = i /\ exists a l1 l2, In a (nodes t) /\ children a = l1 ++ d :: l2.
Proof.
  intros Hf Hne; destruct (findNode_in t i d Hf) as [Hd Ei]; split; [exact Ei|].
  apply in_nodes in Hd; destruct Hd as [->|[x [Hx Hd]]]; [congruence|].
  eapply parent_exists; eauto.
Qed.

Lemma remove_detached t i d :
  NoDup (ids t) -> findNode t i = Some d -> i <> id t ->
  detached d t (remove i t).
Proof.
  intros H Hf Hne.
  destruct (found_has_parent t i d Hf Hne) as (<- & a & l1 & l2 & Ha & E).
  exists a, l1, l2; split; [exact E|apply remove_focus; assumption].
Qed.

Lemma remove_id i t : id (remove i t) = id t.
Proof. rewrite remove_eq; reflexivity. Qed.

Lemma ensureSelected_root (st : editor C) :
  selectedId st = Some (id (tree st)) -> ensureSelected st = st.
Proof.
  intros E; unfold ensureSelected, selectedExists; rewrite E, findNode_root; reflexivity.
Qed.

(** ** deleteNode *)

(** C3.  In a tree with unique ids, [deleteNode] of a node [d] other than the
    root yields the tree without the subtree [d]: one parent loses the child
    [d], everything else (nodes, their order, their fields) is as before, and
    the selection is the root id, also after the render's effect.
    [deleteNode] of the root id changes nothing. *)
Theorem deleteNode_removes_exactly (st : editor C) i d :
  NoDup (ids (tree st)) ->
  findNode (tree st) i = Some d ->
  i <> id (tree st) ->
  detached d (tree st) (tree (deleteNode i st)) /\
  (exists L1 L2, labels (tree st) = L1 ++ labels d ++ L2 /\
                 labels (tree (deleteNode i st)) = L1 ++ L2) /\
  selectedId (deleteNode i st) = Some (id (tree st)) /\
  selectedId (ensureSelected (deleteNode i st)) = Some (id (tree st)) /\
  id (tree (deleteNode i st)) = id (tree st) /\
  deleteNode (id (tree st)) st = st.
Proof.
  intros H Hf Hne.
  assert (Et : tree (deleteNode i st) = remove i (tree st)).
  { unfold deleteNode; destruct (String.eqb_spec (id (tree st)) i) as [E|_]; [congruence|].
    simpl; rewrite clone_id; reflexivity. }
  assert (Es : selectedId (deleteNode i st) = Some (id (tree st))).
  { unfold deleteNode; destruct (String.eqb_spec (id (tree st)) i) as [E|_]; [congruence|].
    simpl; rewrite clone_id, remove_id; reflexivity. }
  assert (Hd : detached d (tree st) (remove i (tree st))) by (apply remove_detached; assumption).
  rewrite Et; repeat split.
  - exact Hd.
  - apply (detached_map_nodes (@label C)); [reflexivity|exact Hd].
  - exact Es.
  - rewrite ensureSelected_root; [exact Es|].
    rewrite Es, Et, remove_id; reflexivity.
  - apply remove_id.
  - unfold deleteNode; rewrite String.eqb_refl; reflexivity.
Qed.

(** ** reparent *)

Lemma height_in t d : In d (nodes t) -> height d <= height t.
Proof.
  induction t as [t IH] using node_children_ind; intros Hd.
  rewrite Forall_forall in IH.
  apply in_nodes in Hd; destruct Hd as [->|[x [Hx Hd]]]; [lia|].
  pose proof (IH x Hx Hd); pose proof (height_child t x Hx); lia.
Qed.

Lemma height_remove i t : height (remove i t) <= height t.
Proof.
  induction t as [t IH] using node_children_ind.
  rewrite Forall_forall in IH.
  rewrite remove_eq, (height_eq t), height_eq; simpl.
  apply le_n_S, list_max_le, Forall_forall.
  intros h Hh; apply in_map_iff in Hh; destruct Hh as (x' & <- & Hx').
  apply in_map_iff in Hx'; destruct Hx' as (x & <- & Hx).
  apply filter_In in Hx; destruct Hx as [Hx _].
  pose proof (IH x Hx).
  pose proof (list_max_in (map (@height C) (children t)) (height x) (in_map _ _ _ Hx)); lia.
Qed.

Lemma NoDup_drop_middle {A} (l1 l l2 : list A) :
  NoDup (l1 ++ l ++ l2) -> NoDup (l1 ++ l2).
Proof.
  intros H; destruct (NoDup_app_inv _ _ H) as (H1 & H2 & H3).
  destruct (NoDup_app_inv _ _ H2) as (_ & H4 & _).
  apply NoDup_app; [exact H1|exact H4|].
  intros a Ha Hin; apply (H3 a Ha), in_or_app; auto.
Qed.

Lemma selectedExists_present t i : In i (ids t) -> selectedExists t (Some i) = true.
Proof.
  intros H; destruct (findNode_present t i H) as [d E].
  unfold selectedExists; rewrite E; reflexivity.
Qed.

Lemma ensureSelected_present (st : editor C) i :
  selectedId st = Some i -> In i (ids (tree st)) -> ensureSelected st = st.
Proof.
  intros E H; unfold ensureSelected; rewrite E, selectedExists_present; auto.
Qed.

Lemma attached_contains pid m t t' : attached pid m t t' -> In (id m) (ids t').
Proof.
  intros (p & _ & F). apply in_nodes_ids.
  apply (nodes_trans t' (set_children p (children p ++ [m]))).
  - apply (focus_in_result _ _ _ _ F).
  - apply in_nodes; right; exists m; simpl; split;
      [apply in_or_app; simpl; auto|apply nodes_self].
Qed.

(** The tree that [reparent] builds once its guards have passed. *)
Lemma reparent_tree t childId newParentId d fuel (c : nat) :
  NoDup (ids t) ->
  findNode t childId = Some d -> childId <> id t ->
  In newParentId (ids t) -> ~ In newParentId (ids d) ->
  2 * height t <= fuel ->
  removeMoved childId t None = (remove childId t, Some d) /\
  detached d t (remove childId t) /\
  exists t',
    mapTree fuel (fun n => if (id n =? newParentId)%string
                           then ret (set_children n (children n ++ [d]))
                           else ret n) (remove childId t) c = Ok (t', c) /\
    attached newParentId d (remove childId t) t'.
Proof.
  intros H Hf Hne Hp Hnd Hfuel.
  pose proof (remove_detached t childId d H Hf Hne) as Hdet.
  destruct (found_has_parent t childId d Hf Hne) as (Ei & a & l1 & l2 & Ha & E).
  subst childId.
  split; [apply (removeMoved_found t a l1 d l2 None H Ha E)|].
  split; [exact Hdet|].
  destruct (detached_map_nodes (@id C) _ _ _ (fun _ _ => eq_refl) Hdet)
    as (L1 & L2 & H1 & H2).
  fold (ids t) in H1; fold (ids d) in H1; fold (ids (remove (id d) t)) in H2.
  assert (Hw : NoDup (ids (remove (id d) t))).
  { rewrite H2; apply (NoDup_drop_middle L1 (ids d) L2); rewrite <- H1; exact H. }
  assert (Hpw : In newParentId (ids (remove (id d) t))).
  { rewrite H2; rewrite H1 in Hp.
    apply in_app_or in Hp; destruct Hp as [Hp|Hp]; [apply in_or_app; auto|].
    apply in_app_or in Hp; destruct Hp as [Hp|Hp]; [contradiction|apply in_or_app; auto]. }
  destruct (ids_in_nodes _ _ Hpw) as (p & Hpn & Ep).
  destruct (mapTree_attach newParentId d c (remove (id d) t) p fuel Hw Hpn Ep Hnd)
    as (t' & Et' & F).
  { pose proof (height_remove (id d) t).
    pose proof (height_in t d (proj1 (findNode_in _ _ _ Hf))). lia. }
  exists t'; split; [exact Et'|]. exists p; split; [exact Ep|exact F].
Qed.

(** C4.  On a tree with unique ids, let [d] be the node of the tree that has
    the child's id, with its subtree, and let the new parent's id be in the
    tree.  [reparent] returns the state it was given when the child is the
    root, equals the new parent, or has the new parent in [d]; otherwise [d]
    is dropped from its parent's children and appended as the last child of
    the new parent, and the selection is the child. *)
Theorem reparent_guards_and_move (st : editor C) childId newParentId d fuel (c : nat) :
  NoDup (ids (tree st)) ->
  In d (nodes (tree st)) -> id d = childId ->
  In newParentId (ids (tree st)) ->
  ((childId = id (tree st) \/ childId = newParentId \/ In newParentId (ids d)) ->
   reparent fuel childId newParentId st c = Ok (st, c)) /\
  (childId <> id (tree st) -> childId <> newParentId -> ~ In newParentId (ids d) ->
   2 * height (tree st) <= fuel ->
   exists st' w,
     reparent fuel childId newParentId st c = Ok (st', c) /\
     detached d (tree st) w /\
     attached newParentId d w (tree st') /\
     selectedId st' = Some childId /\
     selectedId (ensureSelected st') = Some childId).
Proof.
  intros H Hd Hid Hp.
  assert (Hf : findNode (tree st) childId = Some d).
  { destruct (findNode_present (tree st) childId) as [d' Hf'].
    - rewrite <- Hid; apply in_nodes_ids; exact Hd.
    - destruct (findNode_in _ _ _ Hf') as [Hd' Hid'].
      rewrite Hf'; f_equal.
      apply (unique_node (tree st) d' d H Hd' Hd); congruence. }
  split.
  - intros Hrej; unfold reparent.
    destruct (String.eqb_spec childId (id (tree st))) as [|N1]; [reflexivity|].
    destruct (String.eqb_spec childId newParentId) as [|N2]; [reflexivity|].
    destruct Hrej as [E|[E|Hin]]; try contradiction.
    rewrite Hf. apply isDesc_true in Hin; rewrite Hin; reflexivity.
  - intros N1 N2 Hnd Hfuel.
    destruct (reparent_tree (tree st) childId newParentId d fuel c H Hf N1 Hp Hnd Hfuel)
      as (Erm & Hdet & t' & Et' & Hatt).
    exists (setSelectedId (Some childId) (setTree t' (pushUnlessDragging st))),
           (remove childId (tree st)).
    assert (Ei : id d = childId) by (apply (findNode_in _ _ _ Hf)).
    repeat split; try assumption.
    + unfold reparent.
      destruct (String.eqb_spec childId (id (tree st))) as [|_]; [contradiction|].
      destruct (String.eqb_spec childId newParentId) as [|_]; [contradiction|].
      rewrite Hf. apply isDesc_false in Hnd; rewrite Hnd.
      rewrite clone_id, Erm. bind_with Et'. reflexivity.
    + rewrite (ensureSelected_present _ childId); [reflexivity|reflexivity|].
      rewrite <- Ei; apply (attached_contains _ _ _ _ Hatt).
Qed.

Lemma unique_sub t d : NoDup (ids t) -> In d (nodes t) -> NoDup (ids d).
Proof.
  induction t as [t IH] using node_children_ind; intros H Hd.
  rewrite Forall_forall in IH.
  apply in_nodes in Hd; destruct Hd as [->|[x [Hx Hd]]]; [exact H|].
  apply (IH x Hx); [eapply unique_child; eauto|exact Hd].
Qed.

Lemma focus_same a t t' : focus a a t t' -> t' = t.
Proof.
  induction 1 as [|t l1 c c' l2 E _ IH]; [reflexivity|].
  rewrite IH, <- E; apply set_children_same.
Qed.

Lemma attach_same pid m (c : nat) x fuel :
  ~ In pid (ids x) -> height x <= fuel ->
  mapTree fuel (fun n => if (id n =? pid)%string
                         then ret (set_children n (children n ++ [m]))
                         else ret n) x c = Ok (x, c).
Proof.
  intros Hx Hf; apply mapTree_same; [exact Hf|].
  intros d Hd; destruct (String.eqb_spec (id d) pid) as [E|_]; [|reflexivity].
  exfalso; apply Hx; rewrite <- E; apply in_nodes_ids; exact Hd.
Qed.

(** Dropping [b] from its parent [a] and appending it to [a] again. *)
Lemma reattach_same_parent t a l1 b l2 (c : nat) :
  forall fuel,
  NoDup (ids t) -> In a (nodes t) -> children a = l1 ++ b :: l2 ->
  height t + height b <= fuel ->
  exists t',
    mapTree fuel (fun n => if (id n =? id a)%string
                           then ret (set_children n (children n ++ [b]))
                           else ret n) (remove (id b) t) c = Ok (t', c) /\
    focus a (set_children a (l1 ++ l2 ++ [b])) t t'.
Proof.
  set (fn := fun n : node C => if (id n =? id a)%string
                      then ret (set_children n (children n ++ [b])) else ret n).
  assert (Hmiss : forall d, id d <> id a -> fn d c = Ok (d, c)).
  { intros d Hd; unfold fn; destruct (String.eqb_spec (id d) (id a)); [contradiction|reflexivity]. }
  assert (Hhit : forall d, id d = id a ->
                           fn d c = Ok (set_children d (children d ++ [b]), c)).
  { intros d Hd; unfold fn; rewrite Hd, String.eqb_refl; reflexivity. }
  assert (Hsame : forall y fuel, ~ In (id a) (ids y) -> height y <= fuel ->
                                 mapTree fuel fn y c = Ok (y, c)).
  { intros y fuel; apply attach_same. }
  induction t as [t IH] using node_children_ind; intros fuel H Ha E Hf.
  rewrite Forall_forall in IH.
  assert (Hb1 : 1 <= height b) by (rewrite height_eq; lia).
  destruct fuel as [|fuel]; [exfalso; lia|].
  apply in_nodes in Ha; destruct Ha as [Eat|[x [Hx Ha]]].
  - subst t.
    destruct (unique_split a l1 b l2 H E) as (_ & Htb & _ & Hsep).
    exists (set_children a (l1 ++ l2 ++ [b])); split; [|constructor].
    rewrite (remove_here a l1 b l2 H E), mapTree_eq.
    bind_with (Hhit (set_children a (l1 ++ l2)) eq_refl). simpl children.
    assert (Hk : mapM (mapTree fuel fn) ((l1 ++ l2) ++ [b]) c = Ok ((l1 ++ l2) ++ [b], c)).
    { apply mapM_same; intros y Hy; apply Hsame.
      - apply in_app_or in Hy; destruct Hy as [Hy|[<-|[]]]; [apply Hsep; exact Hy|exact Htb].
      - apply in_app_or in Hy; destruct Hy as [Hy|[<-|[]]]; [|rewrite (height_eq a) in Hf; lia].
        assert (Hyt : In y (children a)).
        { rewrite E; apply in_app_or in Hy; apply in_or_app; simpl; tauto. }
        pose proof (height_child a y Hyt); lia. }
    bind_with Hk. unfold ret; rewrite set_children_twice, <- app_assoc; reflexivity.
  - destruct (in_split _ _ Hx) as (k1 & k2 & Et).
    destruct (unique_split t k1 x k2 H Et) as (Hux & Htx & Hsep & _).
    assert (Hb : In b (children a)) by (rewrite E; apply in_elt).
    assert (Hax : In (id a) (ids x)) by (apply in_nodes_ids; exact Ha).
    assert (Hbx : In (id b) (ids x)).
    { apply (nodes_ids_incl x a); [exact Ha|].
      apply in_ids; right; exists b; split; [exact Hb|apply ids_self]. }
    assert (Hne : id b <> id x).
    { intros Eid; apply (proper_descendant_id x a b Hux Ha Hb); rewrite <- Eid; apply ids_self. }
    destruct (IH x Hx fuel Hux Ha E) as (x' & Ex & Fx).
    { pose proof (height_child t x Hx); lia. }
    exists (set_children t (k1 ++ x' :: k2)); split; [|eapply focus_below; eauto].
    rewrite (remove_below t k1 x k2 (id b) H Et Hbx Hne), mapTree_eq.
    assert (E1 : fn (set_children t (k1 ++ remove (id b) x :: k2)) c
                 = Ok (set_children t (k1 ++ remove (id b) x :: k2), c)).
    { apply Hmiss; simpl; intros Eta; apply Htx; rewrite Eta; exact Hax. }
    bind_with E1. simpl children.
    assert (Hk : mapM (mapTree fuel fn) (k1 ++ remove (id b) x :: k2) c
                 = Ok (k1 ++ x' :: k2, c)).
    { apply mapM_focus; [|exact Ex].
      intros y Hy; apply Hsame; [apply (Hsep (id a) Hax y Hy)|].
      assert (Hyt : In y (children t)).
      { rewrite Et; apply in_app_or in Hy; apply in_or_app; simpl; tauto. }
      pose proof (height_child t y Hyt); lia. }
    bind_with Hk. reflexivity.
Qed.

(** C5 (amended).  Where [b] is already a child of [a], [reparent] of [b]
    onto [a] is accepted: the resulting tree is the input with [b] moved to
    the end of [a]'s children, and it is the input tree itself when [b] was
    the last child already. *)
Theorem reparent_onto_current_parent (st : editor C) a l1 b l2 fuel (c : nat) :
  NoDup (ids (tree st)) ->
  In a (nodes (tree st)) -> children a = l1 ++ b :: l2 ->
  2 * height (tree st) <= fuel ->
  exists st',
    reparent fuel (id b) (id a) st c = Ok (st', c) /\
    focus a (set_children a (l1 ++ l2 ++ [b])) (tree st) (tree st') /\
    selectedId st' = Some (id b) /\
    (l2 = [] -> tree st' = tree st).
Proof.
  intros H Ha E Hfuel.
  assert (Hb : In b (children a)) by (rewrite E; apply in_elt).
  assert (Hbn : In b (nodes (tree st))).
  { apply (nodes_trans _ a); [exact Ha|].
    apply in_nodes; right; exists b; split; [exact Hb|apply nodes_self]. }
  assert (N1 : id b <> id (tree st)).
  { intros Eid; apply (proper_descendant_id _ a b H Ha Hb); rewrite <- Eid; apply ids_self. }
  assert (Hab : ~ In (id a) (ids b)).
  { apply (proper_descendant_id a a b); [eapply unique_sub; eauto|apply nodes_self|exact Hb]. }
  assert (N2 : id b <> id a).
  { intros Eid; apply Hab; rewrite <- Eid; apply ids_self. }
  assert (Hf : findNode (tree st) (id b) = Some b).
  { destruct (findNode_present _ _ (in_nodes_ids _ _ Hbn)) as [b' Hf'].
    destruct (findNode_in _ _ _ Hf') as [Hb' Eb'].
    rewrite (unique_node _ b' b H Hb' Hbn Eb') in Hf'; exact Hf'. }
  destruct (reattach_same_parent (tree st) a l1 b l2 c fuel H Ha E) as (t' & Et' & F).
  { pose proof (height_in _ _ Hbn); lia. }
  exists (setSelectedId (Some (id b)) (setTree t' (pushUnlessDragging st))).
  repeat split.
  - unfold reparent.
    destruct (String.eqb_spec (id b) (id (tree st))) as [|_]; [contradiction|].
    destruct (String.eqb_spec (id b) (id a)) as [|_]; [contradiction|].
    rewrite Hf. apply isDesc_false in Hab; rewrite Hab.
    rewrite clone_id, (removeMoved_found _ a l1 b l2 None H Ha E).
    bind_with Et'. reflexivity.
  - exact F.
  - intros ->; simpl in F; rewrite <- E, set_children_same in F.
    simpl; apply (focus_same _ _ _ F).
Qed.

(** ** Handlers on an id that is not in the tree *)

Variable nanoid : nat -> string.
Variable trim : string -> string.

Lemma mapTree_miss (hit : node C -> M (node C)) i t fuel (c : nat) :
  ~ In i (ids t) -> height t <= fuel ->
  mapTree fuel (fun n => if (id n =? i)%string then hit n else ret n) t c = Ok (t, c).
Proof.
  intros Hi Hf; apply mapTree_same; [exact Hf|].
  intros d Hd; destruct (String.eqb_spec (id d) i) as [E|_]; [|reflexivity].
  exfalso; apply Hi; rewrite <- E; apply in_nodes_ids; exact Hd.
Qed.

Lemma setTree_same (st : editor C) : setTree (tree st) st = st.
Proof. destruct st; reflexivity. Qed.

Lemma pushUnlessDragging_tree (st : editor C) :
  tree (pushUnlessDragging st) = tree st /\
  selectedId (pushUnlessDragging st) = selectedId st /\
  preDragSnapshot (pushUnlessDragging st) = preDragSnapshot st.
Proof. unfold pushUnlessDragging; destruct (preDragSnapshot st) eqn:E; simpl; auto. Qed.

Lemma ensureSelected_absent (st : editor C) i :
  selectedId st = Some i -> ~ In i (ids (tree st)) ->
  ensureSelected st = setSelectedId (Some (id (tree st))) st.
Proof.
  intros E H; unfold ensureSelected, selectedExists; rewrite E.
  apply findNode_none in H; rewrite H; reflexivity.
Qed.

Lemma step_eq fuel (o : op C) (st : editor C) (c : nat) :
  step nanoid trim fuel o st c =
  match handle nanoid trim fuel o st c with
  | Ok (st', c') => Ok (ensureSelected st', c')
  | Threw e => Threw e
  end.
Proof. unfold step, bind, ret; destruct (handle nanoid trim fuel o st c) as [[? ?]|]; reflexivity. Qed.

(** C7 (amended).  With an id that is not in the tree and a stack as deep as
    the tree, [addChild], [deleteNode], [renameNode] and [toggleCollapse]
    return without an error and with the tree they were given.  They still
    record the edit: when no pre-drag snapshot is pending, the tree and the
    selection are pushed on the undo stack and the redo stack is cleared;
    when one is pending, nothing else of the state changes.  [addChild] and
    [deleteNode] leave the selection on the root; the other two leave it to
    the effect that keeps the selection inside the tree. *)
Theorem edits_on_absent_id (st : editor C) i nm fuel (c : nat) :
  ~ In i (ids (tree st)) ->
  height (tree st) <= fuel ->
  tree (pushUnlessDragging st) = tree st /\
  step nanoid trim fuel (AddChild i) st c
    = Ok (setSelectedId (Some (id (tree st))) (pushUnlessDragging st), c) /\
  step nanoid trim fuel (DeleteNode i) st c
    = Ok (setSelectedId (Some (id (tree st))) (pushUnlessDragging st), c) /\
  step nanoid trim fuel (RenameNode i nm) st c
    = Ok (ensureSelected (pushUnlessDragging st), c) /\
  step nanoid trim fuel (ToggleCollapse i) st c
    = Ok (ensureSelected (pushUnlessDragging st), c) /\
  (preDragSnapshot st = None ->
   pushUnlessDragging st
   = Editor (tree st) (selectedId st)
            (capHistory (undoStack st ++ [Snapshot (tree st) (selectedId st)]))
            [] None) /\
  (preDragSnapshot st <> None -> pushUnlessDragging st = st).
Proof.
  intros Hi Hf.
  destruct (pushUnlessDragging_tree st) as (Et & Es & Ep).
  assert (Hset : setTree (tree st) (pushUnlessDragging st) = pushUnlessDragging st).
  { rewrite <- Et at 1; apply setTree_same. }
  split; [exact Et|]. split; [|split; [|split; [|split; [|split]]]].
  - rewrite step_eq; unfold handle, addChild. rewrite clone_id.
    bind_with (mapTree_miss
                 (fun n => child <- assignIds nanoid newNodeRaw ;;
                           ret (set_children n (children n ++ [child])))
                 i (tree st) fuel c Hi Hf).
    unfold ret; rewrite Hset.
    rewrite (ensureSelected_absent _ i); [|reflexivity|simpl; rewrite Et; exact Hi].
    simpl; rewrite Et; reflexivity.
  - unfold step, handle, bind, ret, deleteNode.
    destruct (String.eqb_spec (id (tree st)) i) as [E|_];
      [exfalso; apply Hi; rewrite <- E; apply ids_self|].
    rewrite clone_id, (remove_absent_ids i _ Hi), Hset.
    rewrite ensureSelected_root; [reflexivity|simpl; rewrite Et; reflexivity].
  - rewrite step_eq; unfold handle, renameNode. rewrite clone_id.
    bind_with (mapTree_miss
                 (fun n => ret (Node (id n) (orNode (trim (orNode nm))) (children n)
                                     (collapsed n) (px n) (py n)))
                 i (tree st) fuel c Hi Hf).
    unfold ret; rewrite Hset; reflexivity.
  - rewrite step_eq; unfold handle, toggleCollapse. rewrite clone_id.
    bind_with (mapTree_miss
                 (fun n => ret (Node (id n) (name n) (children n)
                                     (Some (notCollapsed n)) (px n) (py n)))
                 i (tree st) fuel c Hi Hf).
    unfold ret; rewrite Hset; reflexivity.
  - intros E; unfold pushUnlessDragging; rewrite E.
    unfold pushUndo, setRedoStack, setUndoStack; simpl; rewrite E; reflexivity.
  - intros E; unfold pushUnlessDragging; destruct (preDragSnapshot st); [reflexivity|congruence].
Qed.

(** [reparent] on a child id that no node has: [findNode] returns null and
    [isDesc] reads its [id]. *)
Lemma reparent_absent_child_throws (st : editor C) childId newParentId fuel (c : nat) :
  ~ In childId (ids (tree st)) -> childId <> newParentId ->
  reparent fuel childId newParentId st c = Threw TypeError.
Proof.
  intros Hc Hne; unfold reparent.
  destruct (String.eqb_spec childId (id (tree st))) as [E|_];
    [exfalso; apply Hc; rewrite E; apply ids_self|].
  destruct (String.eqb_spec childId newParentId) as [|_]; [contradiction|].
  apply findNode_none in Hc; rewrite Hc; reflexivity.
Qed.

(** ** Drag gestures *)

Lemma run_app fuel (os1 os2 : list (op C)) (st : editor C) (c : nat) :
  run nanoid trim fuel (os1 ++ os2) st c =
  match run nanoid trim fuel os1 st c with
  | Ok (st', c') => run nanoid trim fuel os2 st' c'
  | Threw e => Threw e
  end.
Proof.
  revert st c; induction os1 as [|o os1 IH]; intros st c; simpl; [reflexivity|].
  unfold bind.
  destruct (step nanoid trim fuel o st c) as [[st' c']|e]; [apply IH|reflexivity].
Qed.

Lemma run_one fuel (o : op C) (st : editor C) (c : nat) :
  run nanoid trim fuel [o] st c = step nanoid trim fuel o st c.
Proof.
  simpl; unfold bind, ret.
  destruct (step nanoid trim fuel o st c) as [[st' c']|e]; reflexivity.
Qed.

Lemma ensureSelected_fields (st : editor C) :
  tree (ensureSelected st) = tree st /\
  undoStack (ensureSelected st) = undoStack st /\
  redoStack (ensureSelected st) = redoStack st /\
  preDragSnapshot (ensureSelected st) = preDragSnapshot st.
Proof.
  unfold ensureSelected; destruct (selectedExists (tree st) (selectedId st)); simpl; auto.
Qed.

Lemma ensureSelected_exists (st : editor C) :
  selectedExists (tree (ensureSelected st)) (selectedId (ensureSelected st)) = true.
Proof.
  unfold ensureSelected.
  destruct (selectedExists (tree st) (selectedId st)) eqn:E; [exact E|].
  simpl; rewrite findNode_root; reflexivity.
Qed.

Lemma ensureSelected_rule (st : editor C) :
  tree (ensureSelected st) = tree st /\
  selectedId (ensureSelected st) =
    if selectedExists (tree st) (selectedId st) then selectedId st
    else Some (id (tree st)).
Proof.
  unfold ensureSelected; destruct (selectedExists (tree st) (selectedId st)); auto.
Qed.



Lemma capHistory_snoc (l : list (snapshot C)) x :
  exists older, capHistory (l ++ [x]) = older ++ [x] /\
                (List.length l < 10 -> older = l).
Proof.
  unfold capHistory; rewrite length_app; simpl.
  destruct (Nat.ltb_spec 10 (List.length l + 1)) as [Hlt|Hge].
  - exists (skipn (List.length l + 1 - 10) l); split; [|intros; lia].
    rewrite skipn_app.
    replace (List.length l + 1 - 10 - List.length l) with 0 by lia; reflexivity.
  - exists l; auto.
Qed.


(** ** Undo and redo *)

Lemma pop_snoc {A} (l : list A) x : pop (l ++ [x]) = Some (l, x).
Proof. unfold pop; rewrite rev_app_distr; simpl; rewrite removelast_last; reflexivity. Qed.

Lemma snoc_cases {A} (l : list A) : l = [] \/ exists l' x, l = l' ++ [x].
Proof.
  destruct (rev l) as [|x r] eqn:E.
  - left; rewrite <- (rev_involutive l), E; reflexivity.
  - right; exists (rev r), x; rewrite <- (rev_involutive l), E; reflexivity.
Qed.

Lemma undo_empty (st : editor C) : undoStack st = [] -> undo st = st.
Proof. intros E; unfold undo; rewrite E; reflexivity. Qed.

Lemma redo_empty (st : editor C) : redoStack st = [] -> redo st = st.
Proof. intros E; unfold redo; rewrite E; reflexivity. Qed.

Lemma undo_snoc (st : editor C) u s :
  undoStack st = u ++ [s] ->
  undo st = Editor (snap_tree s) (snap_selectedId s) u
                   (redoStack st ++ [takeSnapshot st]) (preDragSnapshot st).
Proof. intros E; unfold undo; rewrite E, pop_snoc; reflexivity. Qed.

(** [redo] takes back an [undo] that found something to undo. *)
Lemma redo_undo (st : editor C) : undoStack st <> [] -> redo (undo st) = st.
Proof.
  intros H; destruct (snoc_cases (undoStack st)) as [E|(u & s & E)]; [contradiction|].
  rewrite (undo_snoc st u s E); unfold redo; simpl; rewrite pop_snoc.
  destruct st as [t sel us rs pre], s as [ts ss]; simpl in *; subst us; reflexivity.
Qed.

Lemma undo_length (st : editor C) :
  List.length (undoStack (undo st)) = List.length (undoStack st) - 1.
Proof.
  destruct (snoc_cases (undoStack st)) as [E|(u & s & E)].
  - rewrite (undo_empty st E), E; reflexivity.
  - rewrite (undo_snoc st u s E), E, length_app; simpl; lia.
Qed.

Lemma undo_iter_length k (st : editor C) :
  List.length (undoStack (Nat.iter k (@undo C) st)) = List.length (undoStack st) - k.
Proof.
  induction k as [|k IH]; simpl; [lia|]. rewrite undo_length, IH; lia.
Qed.

Lemma undo_iter_empty k (st : editor C) :
  undoStack st = [] -> Nat.iter k (@undo C) st = st.
Proof. intros E; induction k as [|k IH]; simpl; [reflexivity|]. rewrite IH; apply undo_empty, E. Qed.

Lemma redo_iter_empty k (st : editor C) :
  redoStack st = [] -> Nat.iter k (@redo C) st = st.
Proof. intros E; induction k as [|k IH]; simpl; [reflexivity|]. rewrite IH; apply redo_empty, E. Qed.

(** As many [redo]s as [undo]s, when the undo stack holds that many entries. *)
Lemma redo_undo_iter k : forall (st : editor C),
  k <= List.length (undoStack st) ->
  Nat.iter k (@redo C) (Nat.iter k (@undo C) st) = st.
Proof.
  induction k as [|k IH]; intros st Hk; [reflexivity|].
  rewrite (Nat.iter_succ_r k _ (@undo C) st), Nat.iter_succ, IH.
  - apply redo_undo; intros E; rewrite E in Hk; simpl in Hk; lia.
  - rewrite undo_length; lia.
Qed.

(** The same when the undo stack is shorter but nothing is left to redo. *)
Lemma undo_redo_restore k (st : editor C) :
  redoStack st = [] \/ k <= List.length (undoStack st) ->
  Nat.iter k (@redo C) (Nat.iter k (@undo C) st) = st.
Proof.
  intros [E|Hk]; [|apply redo_undo_iter; exact Hk].
  destruct (Nat.le_gt_cases k (List.length (undoStack st))) as [Hk|Hk];
    [apply redo_undo_iter; exact Hk|].
  set (n := List.length (undoStack st)) in *.
  replace k with ((k - n) + n) by lia.
  rewrite (Nat.iter_add (k - n) n _ (@undo C)), (Nat.iter_add (k - n) n _ (@redo C)).
  rewrite (undo_iter_empty (k - n)).
  - rewrite redo_undo_iter; [apply redo_iter_empty; exact E|fold n; lia].
  - apply length_zero_iff_nil; rewrite undo_iter_length; fold n; lia.
Qed.




(** *** With the effect that keeps the selection inside the tree *)

Lemma ensureSelected_settled (st : editor C) : settled st -> ensureSelected st = st.
Proof. unfold settled, ensureSelected; intros ->; reflexivity. Qed.


Lemma redoOp_settled (st : editor C) : settled (redoOp st).
Proof. apply ensureSelected_exists. Qed.

















(** ** Selection *)

Lemma selectedExists_in t (s : option string) :
  selectedExists t s = true <-> exists i, s = Some i /\ In i (ids t).
Proof.
  unfold selectedExists; split.
  - destruct s as [i|]; [|discriminate].
    destruct (findNode t i) as [d|] eqn:E; [|discriminate].
    intros _; exists i; split; [reflexivity|].
    destruct (findNode_in _ _ _ E) as [Hd <-]; apply in_nodes_ids; exact Hd.
  - intros (i & -> & Hi); destruct (findNode_present t i Hi) as [d ->]; reflexivity.
Qed.

(** What the effect makes of the selection [s] the handler left on [t]. *)
Lemma selection_rule t (s r : option string) :
  r = (if selectedExists t s then s else Some (id t)) ->
  (forall j, s = Some j -> In j (ids t) -> r = Some j) /\
  ((forall j, s = Some j -> ~ In j (ids t)) -> r = Some (id t)).
Proof.
  intros ->; destruct (selectedExists t s) eqn:E; split.
  - intros j Hs _; exact Hs.
  - intros Habs; apply selectedExists_in in E; destruct E as (i & Hs & Hi).
    exfalso; exact (Habs i Hs Hi).
  - intros j -> Hj; rewrite selectedExists_present in E; [discriminate|exact Hj].
  - reflexivity.
Qed.

(** C10 (amended).  Whenever an operation returns, the selected id is the id
    of a node of the tree: the effect run after the handler keeps the id the
    handler left if a node of the tree has it and puts the root id otherwise.
    [deleteNode], import and reset end on the root id; [undo] and [redo] end
    on the selection of the snapshot they restore (the root id only if no
    node of the snapshot's tree has it). *)
Theorem selection_stays_in_tree fuel (o : op C) (st st' : editor C) (c c' : nat) :
  step nanoid trim fuel o st c = Ok (st', c') ->
  (exists i n, selectedId st' = Some i /\ In n (nodes (tree st')) /\ id n = i) /\
  (exists mid,
     handle nanoid trim fuel o st c = Ok (mid, c') /\
     tree st' = tree mid /\
     (forall j, selectedId mid = Some j -> In j (ids (tree mid)) ->
                selectedId st' = Some j) /\
     ((forall j, selectedId mid = Some j -> ~ In j (ids (tree mid))) ->
      selectedId st' = Some (id (tree mid)))) /\
  match o with
  | DeleteNode i => i <> id (tree st) -> selectedId st' = Some (id (tree st'))
  | ImportJSON _ | Reset => selectedId st' = Some (id (tree st'))
  | Undo =>
      forall u s, undoStack st = u ++ [s] ->
        tree st' = snap_tree s /\
        (forall j, snap_selectedId s = Some j -> In j (ids (snap_tree s)) ->
                   selectedId st' = Some j) /\
        ((forall j, snap_selectedId s = Some j -> ~ In j (ids (snap_tree s))) ->
         selectedId st' = Some (id (snap_tree s)))
  | Redo =>
      forall r s, redoStack st = r ++ [s] ->
        tree st' = snap_tree s /\
        (forall j, snap_selectedId s = Some j -> In j (ids (snap_tree s)) ->
                   selectedId st' = Some j) /\
        ((forall j, snap_selectedId s = Some j -> ~ In j (ids (snap_tree s))) ->
         selectedId st' = Some (id (snap_tree s)))
  | _ => True
  end.
Proof.
  rewrite step_eq; intros H.
  destruct (handle nanoid trim fuel o st c) as [[mid c1]|e] eqn:E; [|discriminate].
  injection H as <- <-.
  destruct (ensureSelected_rule mid) as [Et Es].
  split.
  { pose proof (ensureSelected_exists mid) as Hx.
    apply selectedExists_in in Hx; destruct Hx as (i & Hs & Hi).
    destruct (ids_in_nodes _ _ Hi) as (n & Hn & En).
    exists i, n; auto. }
  split; [exists mid; split; [reflexivity|split; [exact Et|apply selection_rule; exact Es]]|].
  destruct o as [i|i|i nm|i|ch np|i x y| | | |json| |i]; try exact I; simpl in E.
  - intros Hne; unfold ret in E; injection E as <- _.
    rewrite Es, Et; unfold deleteNode.
    destruct (String.eqb_spec (id (tree st)) i) as [Ei|_]; [congruence|].
    simpl; rewrite findNode_root; reflexivity.
  - intros u s Hu; unfold ret in E; injection E as <- _.
    rewrite Et; rewrite (undo_snoc st u s Hu) in Es |- *; simpl in Es |- *.
    split; [reflexivity|apply selection_rule; exact Es].
  - intros r s Hr; unfold ret in E; injection E as <- _.
    assert (Er : redo st = restore s (setUndoStack (undoStack st ++ [takeSnapshot st])
                                                   (setRedoStack r st))).
    { unfold redo; rewrite Hr, pop_snoc; reflexivity. }
    rewrite Et; rewrite Er in Es |- *; simpl in Es |- *.
    split; [reflexivity|apply selection_rule; exact Es].
  - unfold importJSON in E; apply bind_inv in E.
    destruct E as (t' & c2 & _ & E); unfold ret in E; injection E as <- _.
    rewrite Es, Et; simpl; rewrite findNode_root; reflexivity.
  - unfold reset in E; apply bind_inv in E.
    destruct E as (t' & c2 & _ & E); unfold ret in E; injection E as <- _.
    rewrite Es, Et; reflexivity.
Qed.

(** ** Export and import *)

Lemma mapM_compose {A B D} (f : B -> M D) (g : A -> B) l (c : nat) :
  mapM f (map g l) c = mapM (fun x => f (g x)) l c.
Proof.
  revert c; induction l as [|x l IH]; intros c; simpl; [reflexivity|].
  unfold bind; destruct (f (g x) c) as [[y c1]|e]; [|reflexivity].
  rewrite IH; reflexivity.
Qed.

(** [mapM] returns when its callback does; a property of each call that
    survives widening the interval of drawn ids holds for the whole run. *)
Lemma mapM_all {A B} (f : A -> M B) (P : A -> B -> nat -> nat -> Prop) l :
  (forall x y a b a' b', a' <= a -> b <= b' -> P x y a b -> P x y a' b') ->
  (forall x, In x l -> forall c, exists y c', f x c = Ok (y, c') /\ c <= c' /\ P x y c c') ->
  forall c, exists l' c',
    mapM f l c = Ok (l', c') /\ c <= c' /\ Forall2 (fun x y => P x y c c') l l'.
Proof.
  intros Hmono; induction l as [|x l IH]; intros H c.
  - exists [], c; simpl; repeat split; [lia|constructor].
  - destruct (H x (or_introl eq_refl) c) as (y & c1 & Ey & Hc1 & Py).
    destruct (IH (fun z Hz => H z (or_intror Hz)) c1) as (l' & c2 & El & Hc2 & Pl).
    exists (y :: l'), c2; simpl; repeat split; [|lia|].
    + bind_with Ey. bind_with El. reflexivity.
    + constructor; [apply (Hmono x y c c1); auto; lia|].
      eapply Forall2_impl; [|exact Pl].
      intros a b Pab; apply (Hmono a b c1 c2); auto; lia.
Qed.

Lemma Forall2_in_right {A B} (R : A -> B -> Prop) l l' y :
  Forall2 R l l' -> In y l' -> exists x, In x l /\ R x y.
Proof.
  induction 1 as [|a b l l' Hab _ IH]; simpl; [tauto|].
  intros [<-|Hy]; [exists a; auto|].
  destruct (IH Hy) as (x & Hx & Hr); exists x; auto.
Qed.

Lemma assignIds_eq (r : raw C) :
  assignIds nanoid r =
  (i' <- idOr nanoid (rid r) ;;
   kids <- mapM (assignIds nanoid) (rchildren r) ;;
   ret (Node i' (match rname r with Some s => s | None => "Node" end) kids
             (rcollapsed r) (rpx r) (rpy r))).
Proof. destruct r; reflexivity. Qed.

Lemma addIds_eq (r : raw C) :
  addIds nanoid r =
  (base <- assignIds nanoid (Raw None (rname r) (rchildren r) None None None) ;;
   kids <- mapM (addIds nanoid) (rchildren r) ;;
   ret (Node (id base) (name base) kids (collapsed base)
             (if bothPresent (rpx r) (rpy r) then rpx r else px base)
             (if bothPresent (rpx r) (rpy r) then rpy r else py base))).
Proof. destruct r; reflexivity. Qed.

(** [assignIds] always returns; a node without an id gets the next one. *)
Lemma assignIds_ok (r : raw C) : forall c : nat,
  exists n c',
    assignIds nanoid r c = Ok (n, c') /\ c <= c' /\
    name n = match rname r with Some s => s | None => "Node" end /\
    collapsed n = rcollapsed r /\ px n = rpx r /\ py n = rpy r /\
    (rid r = None -> id n = nanoid c /\ c < c').
Proof.
  induction r as [r IH] using raw_children_ind; intros c.
  rewrite Forall_forall in IH.
  assert (Hid : exists i' c1, idOr nanoid (rid r) c = Ok (i', c1) /\ c <= c1 /\
                              (rid r = None -> i' = nanoid c /\ c < c1)).
  { unfold idOr; destruct (rid r) as [s|].
    - destruct (s =? "")%string; eexists; eexists; repeat split; try lia; discriminate.
    - eexists; eexists; repeat split; lia. }
  destruct Hid as (i' & c1 & Ei & Hc1 & Hnone).
  destruct (mapM_all (assignIds nanoid) (fun _ _ _ _ => True) (rchildren r)
              (fun _ _ _ _ _ _ _ _ _ => I)) with (c := c1) as (kids & c2 & Ek & Hc2 & _).
  { intros x Hx c0; destruct (IH x Hx c0) as (n & c' & E & Hle & _); eauto. }
  eexists; exists c2; rewrite assignIds_eq.
  split; [bind_with Ei; bind_with Ek; reflexivity|].
  simpl; repeat split; try lia; destruct (Hnone H); auto; lia.
Qed.

(** [addIds] always returns, and every id of its result was drawn from the
    generator during the call: ids in the document play no part. *)
Lemma addIds_generated (r : raw C) : forall c : nat,
  exists n c',
    addIds nanoid r c = Ok (n, c') /\ c < c' /\
    forall i, In i (ids n) -> generated nanoid c c' i.
Proof.
  induction r as [r IH] using raw_children_ind; intros c.
  rewrite Forall_forall in IH.
  destruct (assignIds_ok (Raw None (rname r) (rchildren r) None None None) c)
    as (base & c1 & Eb & _ & _ & _ & _ & _ & Hid).
  destruct (Hid eq_refl) as [Eid Hc1].
  destruct (mapM_all (addIds nanoid)
              (fun _ y a b => forall i, In i (ids y) -> generated nanoid a b i)
              (rchildren r)) with (c := c1) as (kids & c2 & Ek & Hc2 & Pk).
  { intros x y a b a' b' Ha Hb Hy i Hi; destruct (Hy i Hi) as (k & Hk & ->).
    exists k; split; [lia|reflexivity]. }
  { intros x Hx c0; destruct (IH x Hx c0) as (n & c' & E & Hlt & Hg).
    exists n, c'; repeat split; [exact E|lia|exact Hg]. }
  eexists; exists c2; rewrite addIds_eq.
  split; [bind_with Eb; bind_with Ek; reflexivity|].
  split; [lia|].
  intros i Hi; rewrite ids_eq in Hi; simpl in Hi; destruct Hi as [<-|Hi].
  - exists c; split; [lia|exact Eid].
  - apply in_flat_map in Hi; destruct Hi as (y & Hy & Hi).
    destruct (Forall2_in_right _ _ _ y Pk Hy) as (x & _ & Hg).
    destruct (Hg i Hi) as (k & Hk & ->); exists k; split; [lia|reflexivity].
Qed.



(** * Further facts about the edit engine *)

(** ** Callbacks that rewrite fields: [renameNode], [toggleCollapse], [moveNode] *)

Lemma updateNodes_eq i (f : node C -> node C) n :
  updateNodes i f n =
  Node (id (if (id n =? i)%string then f n else n))
       (name (if (id n =? i)%string then f n else n))
       (map (updateNodes i f) (children n))
       (collapsed (if (id n =? i)%string then f n else n))
       (px (if (id n =? i)%string then f n else n))
       (py (if (id n =? i)%string then f n else n)).
Proof. destruct n; reflexivity. Qed.

Lemma mapTree_update i (f : node C -> node C) (c : nat) t :
  (forall d, children (f d) = children d) ->
  forall fuel, height t <= fuel ->
  mapTree fuel (fun n => if (id n =? i)%string then ret (f n) else ret n) t c
  = Ok (updateNodes i f t, c).
Proof.
  intros Hf; induction t as [t IH] using node_children_ind; intros fuel Hfuel.
  rewrite Forall_forall in IH.
  destruct fuel as [|fuel]; [exfalso; rewrite height_eq in Hfuel; lia|].
  rewrite mapTree_eq, updateNodes_eq.
  assert (Hk : mapM (mapTree fuel (fun n => if (id n =? i)%string
                                            then ret (f n) else ret n)) (children t) c
               = Ok (map (updateNodes i f) (children t), c)).
  { apply mapM_map; intros x Hx; apply IH; [exact Hx|].
    pose proof (height_child t x Hx); lia. }
  unfold bind at 1; destruct (id t =? i)%string; unfold ret at 1.
  - rewrite Hf. bind_with Hk. reflexivity.
  - bind_with Hk. reflexivity.
Qed.

Lemma children_update i (f : node C -> node C) t :
  children (updateNodes i f t) = map (updateNodes i f) (children t).
Proof. rewrite updateNodes_eq; reflexivity. Qed.

Lemma nodes_update i (f : node C -> node C) t :
  nodes (updateNodes i f t) = map (updateNodes i f) (nodes t).
Proof.
  induction t as [t IH] using node_children_ind.
  rewrite (nodes_eq (updateNodes i f t)), (nodes_eq t), children_update; simpl; f_equal.
  induction IH as [|x l Hx _ IHl]; simpl; [reflexivity|].
  rewrite map_app, Hx, IHl; reflexivity.
Qed.

Lemma label_update i (f : node C -> node C) d :
  label (updateNodes i f d) = if (id d =? i)%string then label (f d) else label d.
Proof. rewrite updateNodes_eq; unfold label; simpl; destruct (id d =? i)%string; reflexivity. Qed.

Lemma labels_update i (f : node C -> node C) g t :
  (forall d, label (f d) = g (label d)) ->
  labels (updateNodes i f t) = map (relabel i g) (labels t).
Proof.
  intros Hg; unfold labels; rewrite nodes_update, !map_map.
  apply map_ext; intros d; rewrite label_update; unfold relabel.
  change (fst (fst (fst (fst (label d))))) with (id d).
  destruct (id d =? i)%string; [apply Hg|reflexivity].
Qed.

Lemma shape_update i (f : node C -> node C) t :
  shape (updateNodes i f t) = shape t.
Proof.
  unfold shape; rewrite nodes_update, map_map.
  apply map_ext; intros d; rewrite updateNodes_eq; simpl; apply length_map.
Qed.

Lemma height_update i (f : node C -> node C) t :
  height (updateNodes i f t) = height t.
Proof.
  induction t as [t IH] using node_children_ind.
  rewrite (height_eq t), height_eq, updateNodes_eq; simpl; f_equal; f_equal.
  rewrite map_map; induction IH as [|x l Hx _ IHl]; simpl; congruence.
Qed.

Lemma ids_update i (f : node C -> node C) t :
  (forall d, id (f d) = id d) -> ids (updateNodes i f t) = ids t.
Proof.
  intros Hf; unfold ids; rewrite nodes_update, map_map.
  apply map_ext; intros d; rewrite updateNodes_eq; simpl.
  destruct (id d =? i)%string; [apply Hf|reflexivity].
Qed.

Lemma label_fields (a b : node C) :
  label a = label b ->
  id a = id b /\ name a = name b /\ collapsed a = collapsed b /\
  px a = px b /\ py a = py b.
Proof. unfold label; intros H; injection H; auto. Qed.

(** Rewriting twice with callbacks of which the second overwrites the first. *)
Lemma update_update i (f1 f2 : node C -> node C) t :
  (forall d, id (f1 d) = id d) ->
  (forall d d', label d = label d' -> label (f2 d) = label (f2 d')) ->
  (forall d, label (f2 (f1 d)) = label (f2 d)) ->
  updateNodes i f2 (updateNodes i f1 t) = updateNodes i f2 t.
Proof.
  intros H1 Hdep H12; induction t as [t IH] using node_children_ind.
  rewrite (updateNodes_eq i f2 (updateNodes i f1 t)), (updateNodes_eq i f2 t).
  assert (Ei : id (updateNodes i f1 t) = id t).
  { rewrite updateNodes_eq; simpl; destruct (id t =? i)%string; [apply H1|reflexivity]. }
  assert (Ec : map (updateNodes i f2) (children (updateNodes i f1 t))
               = map (updateNodes i f2) (children t)).
  { rewrite children_update, map_map.
    induction IH as [|x l Hx _ IHl]; simpl; congruence. }
  rewrite Ei, Ec.
  destruct (id t =? i)%string eqn:E.
  - assert (El : label (f2 (updateNodes i f1 t)) = label (f2 t)).
    { transitivity (label (f2 (f1 t))); [|apply H12].
      apply Hdep; rewrite label_update, E; reflexivity. }
    destruct (label_fields _ _ El) as (-> & -> & -> & -> & ->); reflexivity.
  - assert (El : label (updateNodes i f1 t) = label t) by (rewrite label_update, E; reflexivity).
    destruct (label_fields _ _ El) as (-> & -> & -> & -> & ->); reflexivity.
Qed.

Lemma findNode_update i (f : node C -> node C) t j :
  (forall d, id (f d) = id d) ->
  findNode (updateNodes i f t) j = option_map (updateNodes i f) (findNode t j).
Proof.
  intros Hf; induction t as [t IH] using node_children_ind.
  assert (Ei : id (updateNodes i f t) = id t).
  { rewrite updateNodes_eq; simpl; destruct (id t =? i)%string; [apply Hf|reflexivity]. }
  rewrite (findNode_eq (updateNodes i f t)), (findNode_eq t), Ei, children_update.
  destruct (id t =? j)%string; [reflexivity|].
  induction IH as [|x l Hx _ IHl]; simpl; [reflexivity|].
  rewrite Hx; destruct (findNode x j); [reflexivity|exact IHl].
Qed.

Lemma settled_update i (f : node C -> node C) (st : editor C) :
  (forall d, id (f d) = id d) -> settled st ->
  ensureSelected (setTree (updateNodes i f (tree st)) (pushUnlessDragging st))
  = setTree (updateNodes i f (tree st)) (pushUnlessDragging st).
Proof.
  intros Hf Hs; apply ensureSelected_settled; unfold settled in *; simpl.
  destruct (pushUnlessDragging_tree st) as (_ & -> & _).
  destruct (selectedId st) as [j|]; [|discriminate]; simpl in *.
  rewrite findNode_update by exact Hf.
  destruct (findNode (tree st) j); [reflexivity|discriminate].
Qed.

Lemma orNode_nonempty s : orNode s <> "".
Proof. unfold orNode; destruct (String.eqb_spec s ""); [discriminate|assumption]. Qed.

(** X1.  [renameNode] returns (given a stack as deep as the tree) with the
    same tree shape; the nodes with the id get the trimmed name, or ["Node"]
    when nothing is left of it, never an empty name; no other field and no
    other node changes, and the selection of a settled state stays. *)
Theorem renameNode_renames_only (st : editor C) i nm fuel (c : nat) :
  height (tree st) <= fuel ->
  exists st',
    step nanoid trim fuel (RenameNode i nm) st c = Ok (st', c) /\
    labels (tree st')
      = map (relabel i (fun l => (fst (fst (fst (fst l))), orNode (trim (orNode nm)),
                                  snd (fst (fst l)), snd (fst l), snd l)))
            (labels (tree st)) /\
    shape (tree st') = shape (tree st) /\
    orNode (trim (orNode nm)) <> "" /\
    (settled st -> selectedId st' = selectedId st).
Proof.
  intros Hf.
  set (f := fun n : node C => Node (id n) (orNode (trim (orNode nm))) (children n)
                                   (collapsed n) (px n) (py n)).
  exists (ensureSelected (setTree (updateNodes i f (tree st)) (pushUnlessDragging st))).
  destruct (ensureSelected_fields
              (setTree (updateNodes i f (tree st)) (pushUnlessDragging st))) as (Et & _).
  split; [|rewrite Et; simpl; repeat split].
  - rewrite step_eq; unfold handle, renameNode; rewrite clone_id.
    bind_with (mapTree_update i f c (tree st) (fun _ => eq_refl) fuel Hf). reflexivity.
  - apply labels_update; intros d; reflexivity.
  - apply shape_update.
  - apply orNode_nonempty.
  - intros Hs; rewrite (settled_update i f st (fun _ => eq_refl) Hs); simpl.
    apply (pushUnlessDragging_tree st).
Qed.

(** X2.  [toggleCollapse] flips the flag of the nodes with the id and
    touches nothing else; a second toggle brings every node back to the
    collapsed state it had (an absent flag comes back as [false]). *)
Theorem toggleCollapse_twice (st : editor C) i fuel (c : nat) :
  height (tree st) <= fuel ->
  exists st1 st2,
    step nanoid trim fuel (ToggleCollapse i) st c = Ok (st1, c) /\
    step nanoid trim fuel (ToggleCollapse i) st1 c = Ok (st2, c) /\
    labels (tree st1)
      = map (relabel i (fun l => (fst (fst (fst (fst l))), snd (fst (fst (fst l))),
                                  Some (negb (match snd (fst (fst l)) with
                                              | Some b => b | None => false end)),
                                  snd (fst l), snd l)))
            (labels (tree st)) /\
    labels (tree st2)
      = map (relabel i (fun l => (fst (fst (fst (fst l))), snd (fst (fst (fst l))),
                                  Some (match snd (fst (fst l)) with
                                        | Some b => b | None => false end),
                                  snd (fst l), snd l)))
            (labels (tree st)) /\
    map (@isCollapsed C) (nodes (tree st2)) = map (@isCollapsed C) (nodes (tree st)) /\
    shape (tree st1) = shape (tree st) /\ shape (tree st2) = shape (tree st).
Proof.
  intros Hf.
  set (f := fun n : node C => Node (id n) (name n) (children n)
                                   (Some (notCollapsed n)) (px n) (py n)).
  set (st1 := ensureSelected (setTree (updateNodes i f (tree st)) (pushUnlessDragging st))).
  set (st2 := ensureSelected (setTree (updateNodes i f (tree st1)) (pushUnlessDragging st1))).
  assert (T1 : tree st1 = updateNodes i f (tree st)).
  { unfold st1; destruct (ensureSelected_fields
      (setTree (updateNodes i f (tree st)) (pushUnlessDragging st))) as (-> & _); reflexivity. }
  assert (T2 : tree st2 = updateNodes i f (updateNodes i f (tree st))).
  { unfold st2; destruct (ensureSelected_fields
      (setTree (updateNodes i f (tree st1)) (pushUnlessDragging st1))) as (-> & _).
    simpl; rewrite T1; reflexivity. }
  assert (Hl : forall d, label (f d)
             = (fun l => (fst (fst (fst (fst l))), snd (fst (fst (fst l))),
                          Some (negb (match snd (fst (fst l)) with
                                      | Some b => b | None => false end)),
                          snd (fst l), snd l)) (label d)).
  { intros d; unfold f, label, notCollapsed; simpl; destruct (collapsed d); reflexivity. }
  exists st1, st2; repeat split.
  - rewrite step_eq; unfold handle, toggleCollapse; rewrite clone_id.
    bind_with (mapTree_update i f c (tree st) (fun _ => eq_refl) fuel Hf). reflexivity.
  - rewrite step_eq; unfold handle, toggleCollapse; rewrite clone_id.
    assert (Hf1 : height (tree st1) <= fuel) by (rewrite T1, height_update; exact Hf).
    bind_with (mapTree_update i f c (tree st1) (fun _ => eq_refl) fuel Hf1). reflexivity.
  - rewrite T1; apply labels_update; exact Hl.
  - rewrite T2, (labels_update i f _ _ Hl), (labels_update i f _ _ Hl), map_map.
    apply map_ext; intros [[[[j nmj] col] x] y]; unfold relabel; simpl.
    destruct (j =? i)%string eqn:E; simpl; rewrite ?E; [|reflexivity].
    destruct col as [[|]|]; reflexivity.
  - rewrite T2, !nodes_update, !map_map; apply map_ext; intros d.
    unfold isCollapsed; rewrite !updateNodes_eq; simpl.
    destruct (id d =? i)%string eqn:E; simpl; rewrite ?E; simpl; [|reflexivity].
    unfold notCollapsed; simpl; destruct (collapsed d) as [[|]|]; reflexivity.
  - rewrite T1; apply shape_update.
  - rewrite T2, !shape_update; reflexivity.
Qed.

Lemma moveNode_exact (st : editor C) i x y fuel (c : nat) :
  height (tree st) <= fuel ->
  step nanoid trim fuel (MoveNode i x y) st c
  = Ok (ensureSelected
          (setTree (updateNodes i (fun n => Node (id n) (name n) (children n)
                                                 (collapsed n) (Some x) (Some y))
                                (tree st))
                   match preDragSnapshot st with
                   | Some _ => st
                   | None => setPreDragSnapshot (Some (takeSnapshot st)) st
                   end), c).
Proof.
  intros Hf; rewrite step_eq; unfold handle, moveNode; rewrite clone_id.
  bind_with (mapTree_update i (fun n => Node (id n) (name n) (children n)
                                             (collapsed n) (Some x) (Some y))
                            c (tree st) (fun _ => eq_refl) fuel Hf).
  reflexivity.
Qed.

Lemma moves_same_id i fuel ms : forall (st : editor C) (c : nat),
  Forall (fun m : string * C * C => fst (fst m) = i) ms ->
  height (tree st) <= fuel ->
  exists st',
    run nanoid trim fuel (moveOps ms) st c = Ok (st', c) /\
    height (tree st') = height (tree st) /\
    forall x y,
      updateNodes i (fun n => Node (id n) (name n) (children n)
                                   (collapsed n) (Some x) (Some y)) (tree st')
      = updateNodes i (fun n => Node (id n) (name n) (children n)
                                     (collapsed n) (Some x) (Some y)) (tree st).
Proof.
  induction ms as [|[[j x1] y1] ms IH]; intros st c Hall Hf.
  - exists st; repeat split.
  - pose proof (Forall_inv Hall) as Hj; pose proof (Forall_inv_tail Hall) as Hms.
    simpl in Hj; subst j.
    pose proof (moveNode_exact st i x1 y1 fuel c Hf) as E1.
    set (st1 := ensureSelected _) in E1.
    assert (T1 : tree st1 = updateNodes i (fun n => Node (id n) (name n) (children n)
                                                 (collapsed n) (Some x1) (Some y1)) (tree st)).
    { unfold st1; match goal with |- tree (ensureSelected ?s) = _ =>
        destruct (ensureSelected_fields s) as (-> & _) end.
      destruct (preDragSnapshot st); reflexivity. }
    destruct (IH st1 c Hms) as (st' & E' & H' & U'); [rewrite T1, height_update; exact Hf|].
    exists st'; repeat split.
    + simpl. bind_with E1. exact E'.
    + rewrite H', T1; apply height_update.
    + intros x y; rewrite U', T1.
      apply update_update; [reflexivity| |reflexivity].
      intros d d' Hl; destruct (label_fields _ _ Hl) as (Hi & Hn & Hc & _ & _).
      unfold label; simpl; rewrite Hi, Hn, Hc; reflexivity.
Qed.

(** X3.  Of consecutive [moveNode] calls on one id only the last position
    shows: the tree is the one before the calls with the coordinates of the
    last call written on the nodes with that id; id, name, collapsed flag and
    shape are untouched. *)
Theorem moveNode_last_position (st : editor C) i ms x y fuel (c : nat) :
  Forall (fun m : string * C * C => fst (fst m) = i) ms ->
  height (tree st) <= fuel ->
  exists st',
    run nanoid trim fuel (moveOps (ms ++ [(i, x, y)])) st c = Ok (st', c) /\
    tree st' = updateNodes i (fun n => Node (id n) (name n) (children n)
                                            (collapsed n) (Some x) (Some y)) (tree st) /\
    labels (tree st')
      = map (relabel i (fun l => (fst (fst (fst (fst l))), snd (fst (fst (fst l))),
                                  snd (fst (fst l)), Some x, Some y)))
            (labels (tree st)) /\
    shape (tree st') = shape (tree st).
Proof.
  intros Hall Hf.
  destruct (moves_same_id i fuel ms st c Hall Hf) as (st1 & E1 & H1 & U1).
  assert (Hf1 : height (tree st1) <= fuel) by (rewrite H1; exact Hf).
  pose proof (moveNode_exact st1 i x y fuel c Hf1) as E2.
  set (st' := ensureSelected _) in E2.
  assert (T : tree st' = updateNodes i (fun n => Node (id n) (name n) (children n)
                                              (collapsed n) (Some x) (Some y)) (tree st)).
  { rewrite <- U1; unfold st'; match goal with |- tree (ensureSelected ?s) = _ =>
      destruct (ensureSelected_fields s) as (-> & _) end.
    destruct (preDragSnapshot st1); reflexivity. }
  exists st'; repeat split.
  - unfold moveOps; rewrite map_app; fold (moveOps ms).
    rewrite run_app, E1; simpl. bind_with E2. reflexivity.
  - exact T.
  - rewrite T; apply labels_update; intros d; reflexivity.
  - rewrite T; apply shape_update.
Qed.

(** ** [addChild] on a node of the tree *)

Lemma mapM_focus_gen {A} (f : A -> M A) l1 y y' l2 (c c' : nat) :
  (forall x, In x l1 -> f x c = Ok (x, c)) ->
  f y c = Ok (y', c') ->
  (forall x, In x l2 -> f x c' = Ok (x, c')) ->
  mapM f (l1 ++ y :: l2) c = Ok (l1 ++ y' :: l2, c').
Proof.
  induction l1 as [|x l1 IH]; intros H1 Hy H2; simpl.
  - bind_with Hy. bind_with (mapM_same f l2 c' H2). reflexivity.
  - bind_with (H1 x (or_introl eq_refl)).
    bind_with (IH (fun z Hz => H1 z (or_intror Hz)) Hy H2). reflexivity.
Qed.

Lemma mapTree_addChild i (c : nat) t a :
  forall fuel,
  NoDup (ids t) -> In a (nodes t) -> id a = i -> nanoid c <> i ->
  height t + 1 <= fuel ->
  exists t',
    mapTree fuel (fun n => if (id n =? i)%string
                           then child <- assignIds nanoid newNodeRaw ;;
                                ret (set_children n (children n ++ [child]))
                           else ret n) t c = Ok (t', S c) /\
    focus a (set_children a (children a ++ [Node (nanoid c) "New Node" [] None None None]))
          t t'.
Proof.
  set (fn := fun n : node C => if (id n =? i)%string
                      then child <- assignIds nanoid newNodeRaw ;;
                           ret (set_children n (children n ++ [child]))
                      else ret n).
  assert (Hsame : forall x fuel (k : nat), ~ In i (ids x) -> height x <= fuel ->
                                           mapTree fuel fn x k = Ok (x, k)).
  { intros x fuel k; apply mapTree_miss. }
  induction t as [t IH] using node_children_ind; intros fuel H Ha Ea Hfresh Hf.
  rewrite Forall_forall in IH.
  destruct fuel as [|fuel]; [exfalso; lia|].
  apply in_nodes in Ha; destruct Ha as [Eat|[x [Hx Ha]]].
  - subst t.
    exists (set_children a (children a ++ [Node (nanoid c) "New Node" [] None None None]));
      split; [|constructor].
    rewrite mapTree_eq.
    assert (E1 : fn a c = Ok (set_children a (children a ++
                   [Node (nanoid c) "New Node" [] None None None]), S c)).
    { unfold fn; rewrite Ea, String.eqb_refl; reflexivity. }
    bind_with E1. simpl children.
    assert (Hk : mapM (mapTree fuel fn)
                   (children a ++ [Node (nanoid c) "New Node" [] None None None]) (S c)
                 = Ok (children a ++ [Node (nanoid c) "New Node" [] None None None], S c)).
    { apply mapM_same; intros y Hy; apply in_app_or in Hy; destruct Hy as [Hy|[<-|[]]].
      - apply Hsame; [|pose proof (height_child a y Hy); lia].
        destruct (in_split _ _ Hy) as (k1 & k2 & E).
        rewrite <- Ea; exact (proj1 (proj2 (unique_split a k1 y k2 H E))).
      - apply Hsame; [|rewrite (height_eq a) in Hf; simpl; lia].
        rewrite ids_eq; simpl; intros [E|[]]; congruence. }
    bind_with Hk. reflexivity.
  - destruct (in_split _ _ Hx) as (k1 & k2 & Et).
    destruct (unique_split t k1 x k2 H Et) as (Hux & Htx & Hsep & _).
    assert (Hix : In i (ids x)) by (rewrite <- Ea; apply in_nodes_ids; exact Ha).
    destruct (IH x Hx fuel Hux Ha Ea Hfresh) as (x' & Ex & Fx).
    { pose proof (height_child t x Hx); lia. }
    exists (set_children t (k1 ++ x' :: k2)); split; [|eapply focus_below; eauto].
    rewrite mapTree_eq.
    assert (E1 : fn t c = Ok (t, c)).
    { unfold fn; destruct (String.eqb_spec (id t) i) as [E|_]; [|reflexivity].
      exfalso; apply Htx; rewrite E; exact Hix. }
    bind_with E1. rewrite Et.
    assert (Hother : forall y (k : nat), In y (k1 ++ k2) -> mapTree fuel fn y k = Ok (y, k)).
    { intros y k Hy; apply Hsame; [apply (Hsep i Hix y Hy)|].
      assert (In y (children t)).
      { rewrite Et; apply in_app_or in Hy; apply in_or_app; simpl; tauto. }
      pose proof (height_child t y H0); lia. }
    assert (Hk : mapM (mapTree fuel fn) (k1 ++ x :: k2) c = Ok (k1 ++ x' :: k2, S c)).
    { apply mapM_focus_gen; [|exact Ex|]; intros y Hy; apply Hother, in_or_app; auto. }
    bind_with Hk. reflexivity.
Qed.

Lemma ids_of_labels t :
  ids t = map (fun l : string * string * option bool * option C * option C =>
                 fst (fst (fst (fst l)))) (labels t).
Proof. unfold ids, labels; rewrite map_map; reflexivity. Qed.

(** X4.  On a tree with unique ids, [addChild] on the id of one of its nodes,
    with a generator whose next id is not in the tree, returns with one id
    drawn: the tree gets a new leaf named ["New Node"] as the last child of
    that node and nothing else changes, the ids are still unique, and the
    selection is the parent. *)
Theorem addChild_appends_leaf (st : editor C) i fuel (c : nat) :
  NoDup (ids (tree st)) ->
  In i (ids (tree st)) ->
  ~ In (nanoid c) (ids (tree st)) ->
  height (tree st) + 1 <= fuel ->
  exists st',
    step nanoid trim fuel (AddChild i) st c = Ok (st', S c) /\
    attached i (Node (nanoid c) "New Node" [] None None None) (tree st) (tree st') /\
    Permutation (ids (tree st')) (nanoid c :: ids (tree st)) /\
    NoDup (ids (tree st')) /\
    selectedId st' = Some i.
Proof.
  intros H Hi Hfresh Hf.
  destruct (ids_in_nodes _ _ Hi) as (a & Ha & Ea).
  assert (Hne : nanoid c <> i) by (intros E; apply Hfresh; rewrite E; exact Hi).
  destruct (mapTree_addChild i c (tree st) a fuel H Ha Ea Hne Hf) as (t' & Et & F).
  set (leaf := Node (nanoid c) "New Node" [] None None None) in *.
  assert (Hperm : Permutation (ids t') (nanoid c :: ids (tree st))).
  { destruct (focus_map_nodes (@id C) _ _ _ _ (fun _ _ => eq_refl) F) as (L1 & L2 & H1 & H2).
    fold (ids (tree st)) in H1; fold (ids t') in H2; fold (ids a) in H1.
    assert (Ea' : map (@id C) (nodes (set_children a (children a ++ [leaf])))
                  = ids a ++ [nanoid c]).
    { fold (ids (set_children a (children a ++ [leaf]))).
      rewrite ids_eq, (ids_eq a); simpl; rewrite flat_map_app; simpl.
      rewrite ?app_nil_r; reflexivity. }
    rewrite Ea' in H2; rewrite H1, H2.
    replace (L1 ++ (ids a ++ [nanoid c]) ++ L2) with ((L1 ++ ids a) ++ nanoid c :: L2)
      by (rewrite <- !app_assoc; reflexivity).
    replace (L1 ++ ids a ++ L2) with ((L1 ++ ids a) ++ L2)
      by (rewrite app_assoc; reflexivity).
    apply Permutation_sym, Permutation_middle. }
  assert (Hnd : NoDup (ids t')).
  { apply (Permutation_NoDup (Permutation_sym Hperm)); constructor; assumption. }
  assert (Hit : In i (ids t')).
  { apply (Permutation_in _ (Permutation_sym Hperm)); right; exact Hi. }
  exists (setSelectedId (Some i) (setTree t' (pushUnlessDragging st))).
  repeat split; try assumption.
  - rewrite step_eq; unfold handle, addChild; rewrite clone_id.
    bind_with Et. unfold ret.
    rewrite (ensureSelected_present _ i); [reflexivity|reflexivity|exact Hit].
  - exists a; split; [exact Ea|exact F].
Qed.

(** ** [reparent] loses and duplicates nothing *)

Lemma labels_set_children_snoc (p m : node C) :
  labels (set_children p (children p ++ [m])) = labels p ++ labels m.
Proof.
  unfold labels; rewrite (nodes_eq (set_children _ _)), (nodes_eq p); simpl.
  rewrite flat_map_app; simpl; rewrite app_nil_r, map_app; reflexivity.
Qed.

Lemma remove_gone i t : id t <> i -> ~ In i (ids (remove i t)).
Proof.
  induction t as [t IH] using node_children_ind; intros Hne.
  rewrite Forall_forall in IH.
  rewrite remove_eq, ids_eq; simpl; intros [E|Hin]; [contradiction|].
  apply in_flat_map in Hin; destruct Hin as (x' & Hx' & Hi).
  apply in_map_iff in Hx'; destruct Hx' as (x & <- & Hx).
  apply filter_In in Hx; destruct Hx as [Hx Hk].
  apply (IH x Hx); [|exact Hi].
  unfold keeps in Hk; destruct (String.eqb_spec (id x) i); [discriminate|assumption].
Qed.

(** X5.  On a tree with unique ids, a [reparent] that passes its guards
    returns.  When the new parent is the id of a node of the tree, every node
    is kept with all its fields, none lost and none twice: the labels of the
    new tree are a permutation of the old ones, and the ids are still unique.
    When no node has that id, the new tree is the old one without the child's
    subtree, which is attached nowhere. *)
Theorem reparent_keeps_every_node (st : editor C) childId newParentId d fuel (c : nat) :
  NoDup (ids (tree st)) ->
  findNode (tree st) childId = Some d ->
  childId <> id (tree st) ->
  ~ In newParentId (ids d) ->
  2 * height (tree st) <= fuel ->
  exists st',
    reparent fuel childId newParentId st c = Ok (st', c) /\
    (In newParentId (ids (tree st)) ->
     Permutation (labels (tree st')) (labels (tree st)) /\
     NoDup (ids (tree st'))) /\
    (~ In newParentId (ids (tree st)) ->
     detached d (tree st) (tree st') /\
     ~ In childId (ids (tree st'))).
Proof.
  intros H Hf N1 Hnd Hfuel.
  assert (Ei : id d = childId) by (apply (findNode_in _ _ _ Hf)).
  assert (N2 : childId <> newParentId).
  { intros E; apply Hnd; rewrite <- E, <- Ei; apply ids_self. }
  assert (Hrun : forall t',
             mapTree fuel (fun n => if (id n =? newParentId)%string
                                    then ret (set_children n (children n ++ [d]))
                                    else ret n) (remove childId (tree st)) c = Ok (t', c) ->
             removeMoved childId (tree st) None = (remove childId (tree st), Some d) ->
             reparent fuel childId newParentId st c
             = Ok (setSelectedId (Some childId) (setTree t' (pushUnlessDragging st)), c)).
  { intros t' Et' Erm; unfold reparent.
    destruct (String.eqb_spec childId (id (tree st))) as [|_]; [contradiction|].
    destruct (String.eqb_spec childId newParentId) as [|_]; [contradiction|].
    rewrite Hf. apply isDesc_false in Hnd; rewrite Hnd.
    rewrite clone_id, Erm. bind_with Et'. reflexivity. }
  destruct (in_dec string_dec newParentId (ids (tree st))) as [Hp|Hp].
  - destruct (reparent_tree (tree st) childId newParentId d fuel c H Hf N1 Hp Hnd Hfuel)
      as (Erm & Hdet & t' & Et' & (p & _ & F)).
    assert (Hperm : Permutation (labels t') (labels (tree st))).
    { destruct (detached_map_nodes (@label C) _ _ _ (fun _ _ => eq_refl) Hdet)
        as (L1 & L2 & H1 & H2).
      destruct (focus_map_nodes (@label C) _ _ _ _ (fun _ _ => eq_refl) F)
        as (M1 & M2 & H3 & H4).
      fold (labels (tree st)) in H1; fold (labels d) in H1.
      fold (labels (remove childId (tree st))) in H2, H3.
      fold (labels p) in H3; fold (labels t') in H4.
      fold (labels (set_children p (children p ++ [d]))) in H4.
      rewrite labels_set_children_snoc in H4.
      apply (Permutation_trans (l' := labels d ++ labels (remove childId (tree st)))).
      - rewrite H4, H3.
        replace (M1 ++ (labels p ++ labels d) ++ M2)
          with ((M1 ++ labels p) ++ labels d ++ M2) by (rewrite <- !app_assoc; reflexivity).
        replace (M1 ++ labels p ++ M2) with ((M1 ++ labels p) ++ M2)
          by (rewrite app_assoc; reflexivity).
        apply Permutation_app_swap_app.
      - rewrite H1, H2; apply Permutation_sym, Permutation_app_swap_app. }
    exists (setSelectedId (Some childId) (setTree t' (pushUnlessDragging st))).
    split; [exact (Hrun t' Et' Erm)|]. split; [|contradiction].
    intros _; split; [exact Hperm|].
    simpl; rewrite ids_of_labels.
    apply (Permutation_NoDup (Permutation_sym (Permutation_map _ Hperm))).
    rewrite <- ids_of_labels; exact H.
  - pose proof (remove_detached (tree st) childId d H Hf N1) as Hdet.
    destruct (found_has_parent (tree st) childId d Hf N1) as (_ & a & l1 & l2 & Ha & E).
    assert (Erm : removeMoved childId (tree st) None = (remove childId (tree st), Some d)).
    { rewrite <- Ei; apply (removeMoved_found (tree st) a l1 d l2 None H Ha E). }
    assert (Hpw : ~ In newParentId (ids (remove childId (tree st)))).
    { destruct (detached_map_nodes (@id C) _ _ _ (fun _ _ => eq_refl) Hdet)
        as (L1 & L2 & H1 & H2).
      fold (ids (tree st)) in H1; fold (ids (remove childId (tree st))) in H2.
      rewrite H2; intros Hin; apply Hp; rewrite H1.
      apply in_app_or in Hin; destruct Hin as [Hin|Hin];
        apply in_or_app; [auto|right; apply in_or_app; auto]. }
    assert (Et' : mapTree fuel (fun n => if (id n =? newParentId)%string
                                         then ret (set_children n (children n ++ [d]))
                                         else ret n) (remove childId (tree st)) c
                  = Ok (remove childId (tree st), c)).
    { apply (mapTree_miss (fun n => ret (set_children n (children n ++ [d])))
                          newParentId _ fuel c Hpw).
      pose proof (height_remove childId (tree st)); lia. }
    exists (setSelectedId (Some childId)
              (setTree (remove childId (tree st)) (pushUnlessDragging st))).
    split; [exact (Hrun _ Et' Erm)|]. split; [contradiction|].
    intros _; simpl; split; [exact Hdet|].
    apply remove_gone; auto.
Qed.

(** ** [deleteNode] only deletes *)

Lemma sublist_refl {A} (l : list A) : sublist l l.
Proof. induction l; [constructor|apply sublist_keep; assumption]. Qed.

Lemma sublist_app {A} (l1 l1' l2 l2' : list A) :
  sublist l1 l1' -> sublist l2 l2' -> sublist (l1 ++ l2) (l1' ++ l2').
Proof.
  intros H1 H2; induction H1 as [|x a b _ IH|x a b _ IH]; simpl;
    [exact H2|apply sublist_skip; exact IH|apply sublist_keep; exact IH].
Qed.

Lemma sublist_skip_app {A} (l l1 l2 : list A) : sublist l l2 -> sublist l (l1 ++ l2).
Proof. intros H; induction l1; simpl; [exact H|apply sublist_skip; exact IHl1]. Qed.

Lemma sublist_in {A} (l l' : list A) x : sublist l l' -> In x l -> In x l'.
Proof. induction 1; simpl; intuition. Qed.

Lemma sublist_map {A B} (g : A -> B) (l l' : list A) :
  sublist l l' -> sublist (map g l) (map g l').
Proof.
  induction 1; simpl; [constructor|apply sublist_skip; assumption|apply sublist_keep; assumption].
Qed.

Lemma sublist_NoDup {A} (l l' : list A) : sublist l l' -> NoDup l' -> NoDup l.
Proof.
  induction 1 as [|x l1 l2 _ IH|x l1 l2 Hs IH]; intros Hnd; [constructor| |].
  - inversion Hnd; auto.
  - inversion Hnd as [|? ? Hx Hnd']; subst; constructor; [|auto].
    intros Hin; apply Hx; eapply sublist_in; eauto.
Qed.

Lemma remove_sublist i t : sublist (labels (remove i t)) (labels t).
Proof.
  induction t as [t IH] using node_children_ind.
  unfold labels; rewrite remove_eq, (nodes_eq (set_children _ _)), (nodes_eq t); simpl.
  change (label (set_children t (map (remove i) (filter (keeps i) (children t)))))
    with (label t).
  apply sublist_keep.
  induction IH as [|x l Hx _ IHl]; simpl; [constructor|].
  destruct (keeps i x); simpl.
  - rewrite !map_app; apply sublist_app; [exact Hx|exact IHl].
  - rewrite map_app; apply sublist_skip_app; exact IHl.
Qed.


(** X6.  Whatever the tree (ids need not be unique), [deleteNode] of an id
    other than the root's only deletes: the nodes that remain are nodes of the
    old tree, in their order and with their fields; no node with the id is
    left, at any depth; unique ids stay unique. *)
Theorem deleteNode_only_deletes (st : editor C) i :
  i <> id (tree st) ->
  sublist (labels (tree (deleteNode i st))) (labels (tree st)) /\
  ~ In i (ids (tree (deleteNode i st))) /\
  (NoDup (ids (tree st)) -> NoDup (ids (tree (deleteNode i st)))).
Proof.
  intros Hne.
  assert (Et : tree (deleteNode i st) = remove i (tree st)).
  { unfold deleteNode; destruct (String.eqb_spec (id (tree st)) i) as [E|_]; [congruence|].
    simpl; rewrite clone_id; reflexivity. }
  rewrite Et; repeat split.
  - apply remove_sublist.
  - apply remove_gone; congruence.
  - intros H; rewrite ids_of_labels.
    apply (sublist_NoDup _ _ (sublist_map _ _ _ (remove_sublist i (tree st)))).
    rewrite <- ids_of_labels; exact H.
Qed.

(** ** What the handlers do to the history *)

Lemma capHistory_length (l : list (snapshot C)) : List.length (capHistory l) <= 10.
Proof.
  unfold capHistory; destruct (Nat.ltb_spec 10 (List.length l)); [|lia].
  rewrite length_skipn; lia.
Qed.

(** The two stacks and the pending snapshot after each handler. *)
Lemma handle_history fuel (o : op C) (st st' : editor C) (c c' : nat) :
  handle nanoid trim fuel o st c = Ok (st', c') ->
  match o with
  | AddChild _ | RenameNode _ _ | ToggleCollapse _ =>
      undoStack st' = undoStack (pushUnlessDragging st) /\
      redoStack st' = redoStack (pushUnlessDragging st) /\
      preDragSnapshot st' = preDragSnapshot st
  | DeleteNode i =>
      if (id (tree st) =? i)%string then st' = st
      else undoStack st' = undoStack (pushUnlessDragging st) /\
           redoStack st' = redoStack (pushUnlessDragging st) /\
           preDragSnapshot st' = preDragSnapshot st
  | Reparent _ _ =>
      st' = st \/
      (undoStack st' = undoStack (pushUnlessDragging st) /\
       redoStack st' = redoStack (pushUnlessDragging st) /\
       preDragSnapshot st' = preDragSnapshot st)
  | MoveNode _ _ _ =>
      undoStack st' = undoStack st /\ redoStack st' = redoStack st /\
      preDragSnapshot st' = Some (match preDragSnapshot st with
                                  | None => takeSnapshot st
                                  | Some pre => pre
                                  end)
  | MoveCommit => st' = moveCommit st
  | Undo => st' = undo st
  | Redo => st' = redo st
  | ImportJSON _ | Reset =>
      undoStack st' = [] /\ redoStack st' = [] /\
      preDragSnapshot st' = preDragSnapshot st
  | Select _ =>
      undoStack st' = undoStack st /\ redoStack st' = redoStack st /\
      preDragSnapshot st' = preDragSnapshot st
  end.
Proof.
  destruct (pushUnlessDragging_tree st) as (_ & _ & Hp).
  destruct o as [i|i|i nm|i|ch np|i x y| | | |json| |i]; simpl; intros H.
  - unfold addChild in H; apply bind_inv in H; destruct H as (t' & c1 & _ & H).
    unfold ret in H; injection H as <- _; simpl; auto.
  - unfold ret in H; injection H as <- _; unfold deleteNode.
    destruct (id (tree st) =? i)%string; simpl; auto.
  - unfold renameNode in H; apply bind_inv in H; destruct H as (t' & c1 & _ & H).
    unfold ret in H; injection H as <- _; simpl; auto.
  - unfold toggleCollapse in H; apply bind_inv in H; destruct H as (t' & c1 & _ & H).
    unfold ret in H; injection H as <- _; simpl; auto.
  - unfold reparent in H.
    destruct (ch =? id (tree st))%string; [unfold ret in H; injection H as <- _; auto|].
    destruct (ch =? np)%string; [unfold ret in H; injection H as <- _; auto|].
    destruct (findNode (tree st) ch) as [d|]; [|discriminate].
    destruct (isDesc d np); [unfold ret in H; injection H as <- _; auto|].
    destruct (removeMoved ch (clone (tree st)) None) as [w [m|]].
    + apply bind_inv in H; destruct H as (t' & c1 & _ & H).
      unfold ret in H; injection H as <- _; simpl; auto.
    + unfold ret in H; injection H as <- _; auto.
  - unfold moveNode in H; apply bind_inv in H; destruct H as (t' & c1 & _ & H).
    unfold ret in H; injection H as <- _.
    destruct (preDragSnapshot st) eqn:E; simpl; rewrite ?E; auto.
  - unfold ret in H; injection H as <- _; reflexivity.
  - unfold ret in H; injection H as <- _; reflexivity.
  - unfold ret in H; injection H as <- _; reflexivity.
  - unfold importJSON in H; apply bind_inv in H; destruct H as (t' & c1 & _ & H).
    unfold ret in H; injection H as <- _; simpl; auto.
  - unfold reset in H; apply bind_inv in H; destruct H as (t' & c1 & _ & H).
    unfold ret in H; injection H as <- _; simpl; auto.
  - unfold ret in H; injection H as <- _; simpl; auto.
Qed.

Lemma step_inv fuel (o : op C) (st st' : editor C) (c c' : nat) :
  step nanoid trim fuel o st c = Ok (st', c') ->
  exists mid, handle nanoid trim fuel o st c = Ok (mid, c') /\ st' = ensureSelected mid.
Proof.
  rewrite step_eq; destruct (handle nanoid trim fuel o st c) as [[mid c1]|]; [|discriminate].
  intros H; injection H as <- <-; eauto.
Qed.

Lemma pushUnlessDragging_bounded (st : editor C) :
  historyBounded st -> historyBounded (pushUnlessDragging st).
Proof.
  unfold historyBounded, pushUnlessDragging; destruct (preDragSnapshot st); [auto|].
  intros _; simpl; pose proof (capHistory_length (undoStack st ++ [takeSnapshot st])); lia.
Qed.

(** X7.  The history never grows past ten snapshots, the undo and the redo
    stack counted together: every operation that returns keeps that bound,
    although [redo] pushes on the undo stack without capping it. *)
Theorem history_stays_bounded fuel (o : op C) (st st' : editor C) (c c' : nat) :
  historyBounded st ->
  step nanoid trim fuel o st c = Ok (st', c') ->
  historyBounded st' /\ List.length (undoStack st') <= 10.
Proof.
  intros Hb H; destruct (step_inv _ _ _ _ _ _ H) as (mid & Hm & ->).
  assert (Hmid : historyBounded mid).
  { pose proof (handle_history _ _ _ _ _ _ Hm) as Hh.
    pose proof (pushUnlessDragging_bounded st Hb) as Hpb.
    unfold historyBounded in *.
    destruct o as [i|i|i nm|i|ch np|i x y| | | |json| |i].
    - destruct Hh as (-> & -> & _); exact Hpb.
    - destruct (id (tree st) =? i)%string; [subst; exact Hb|].
      destruct Hh as (-> & -> & _); exact Hpb.
    - destruct Hh as (-> & -> & _); exact Hpb.
    - destruct Hh as (-> & -> & _); exact Hpb.
    - destruct Hh as [->|(-> & -> & _)]; assumption.
    - destruct Hh as (-> & -> & _); exact Hb.
    - subst mid; unfold moveCommit; destruct (preDragSnapshot st) as [pre|]; [|exact Hb].
      simpl; pose proof (capHistory_length (undoStack st ++ [pre])); lia.
    - subst mid; destruct (snoc_cases (undoStack st)) as [E|(u & s & E)].
      + rewrite (undo_empty st E); exact Hb.
      + rewrite (undo_snoc st u s E); simpl.
        rewrite E in Hb; rewrite !length_app in *; simpl in *; lia.
    - subst mid; destruct (snoc_cases (redoStack st)) as [E|(r & s & E)].
      + rewrite (redo_empty st E); exact Hb.
      + unfold redo; rewrite E, pop_snoc; simpl.
        rewrite E in Hb; rewrite !length_app in *; simpl in *; lia.
    - destruct Hh as (-> & -> & _); simpl; lia.
    - destruct Hh as (-> & -> & _); simpl; lia.
    - destruct Hh as (-> & -> & _); exact Hb. }
  destruct (ensureSelected_fields mid) as (_ & Eu & Er & _).
  unfold historyBounded in *; rewrite Eu, Er; split; [exact Hmid|lia].
Qed.

(** X8.  A pending pre-drag snapshot is dropped by [moveCommit] only: every
    other operation that returns leaves it pending, and as long as it is, no
    structural edit and no [moveNode] touches the undo or the redo stack. *)
Theorem pending_snapshot_blocks_history fuel (o : op C) (st st' : editor C) pre
        (c c' : nat) :
  preDragSnapshot st = Some pre ->
  step nanoid trim fuel o st c = Ok (st', c') ->
  (o <> MoveCommit -> preDragSnapshot st' = Some pre) /\
  match o with
  | AddChild _ | DeleteNode _ | RenameNode _ _ | ToggleCollapse _
  | Reparent _ _ | MoveNode _ _ _ =>
      undoStack st' = undoStack st /\ redoStack st' = redoStack st
  | _ => True
  end.
Proof.
  intros Hp H; destruct (step_inv _ _ _ _ _ _ H) as (mid & Hm & ->).
  destruct (ensureSelected_fields mid) as (_ & -> & -> & ->).
  pose proof (handle_history _ _ _ _ _ _ Hm) as Hh.
  assert (Hpud : pushUnlessDragging st = st).
  { unfold pushUnlessDragging; rewrite Hp; reflexivity. }
  rewrite Hpud in Hh.
  destruct o as [i|i|i nm|i|ch np|i x y| | | |json| |i].
  - destruct Hh as (-> & -> & ->); auto.
  - destruct (id (tree st) =? i)%string; [subst; auto|destruct Hh as (-> & -> & ->); auto].
  - destruct Hh as (-> & -> & ->); auto.
  - destruct Hh as (-> & -> & ->); auto.
  - destruct Hh as [->|(-> & -> & ->)]; auto.
  - destruct Hh as (-> & -> & ->); rewrite Hp; auto.
  - split; [congruence|exact I].
  - subst mid; split; [intros _|exact I].
    unfold undo; destruct (pop (undoStack st)) as [[rest l]|]; simpl; exact Hp.
  - subst mid; split; [intros _|exact I].
    unfold redo; destruct (pop (redoStack st)) as [[rest l]|]; simpl; exact Hp.
  - destruct Hh as (_ & _ & ->); auto.
  - destruct Hh as (_ & _ & ->); auto.
  - destruct Hh as (_ & _ & ->); auto.
Qed.

Lemma moves_history fuel moves : forall (st st' : editor C) (c c' : nat),
  run nanoid trim fuel (moveOps moves) st c = Ok (st', c') ->
  undoStack st' = undoStack st /\ redoStack st' = redoStack st /\
  preDragSnapshot st' = match preDragSnapshot st, moves with
                        | Some pre, _ => Some pre
                        | None, [] => None
                        | None, _ :: _ => Some (takeSnapshot st)
                        end.
Proof.
  induction moves as [|[[i x] y] moves IH]; intros st st' c c' H.
  - simpl in H; unfold ret in H; injection H as <- _.
    destruct (preDragSnapshot st); auto.
  - simpl in H; apply bind_inv in H; destruct H as (st1 & c1 & H1 & H).
    destruct (step_inv _ _ _ _ _ _ H1) as (mid & Hm & ->).
    pose proof (handle_history _ _ _ _ _ _ Hm) as (Eu & Er & Ep); simpl in Eu, Er, Ep.
    destruct (ensureSelected_fields mid) as (_ & Eu' & Er' & Ep').
    destruct (IH _ _ _ _ H) as (-> & -> & ->).
    rewrite Eu', Er', Ep', Eu, Er, Ep.
    destruct (preDragSnapshot st); auto.
Qed.

(** A recorded edit pushes the snapshot of the state it ran in. *)
Lemma recorded_history fuel e (st st' : editor C) (c c' : nat) :
  recorded e st ->
  run nanoid trim fuel (edit_ops e) st c = Ok (st', c') ->
  undoStack st' = capHistory (undoStack st ++ [takeSnapshot st]) /\
  redoStack st' = [] /\ preDragSnapshot st' = None.
Proof.
  intros [Hp Hrec] H.
  assert (Hpush : undoStack (pushUnlessDragging st)
                  = capHistory (undoStack st ++ [takeSnapshot st]) /\
                  redoStack (pushUnlessDragging st) = []).
  { unfold pushUnlessDragging; rewrite Hp; auto. }
  destruct Hpush as (Pu & Pr).
  destruct e as [i|i|i nm|i|ch np|moves]; simpl edit_ops in H;
    try (rewrite run_one in H; destruct (step_inv _ _ _ _ _ _ H) as (mid & Hm & ->);
         destruct (ensureSelected_fields mid) as (_ & -> & -> & ->);
         pose proof (handle_history _ _ _ _ _ _ Hm) as Hh; simpl in Hh).
  - destruct Hh as (-> & -> & ->); auto.
  - destruct (String.eqb_spec (id (tree st)) i) as [E|_]; [contradiction|].
    destruct Hh as (-> & -> & ->); auto.
  - destruct Hh as (-> & -> & ->); auto.
  - destruct Hh as (-> & -> & ->); auto.
  - destruct Hrec as (N1 & N2 & d & Hf & Hd).
    simpl in Hm; unfold reparent in Hm.
    destruct (String.eqb_spec ch (id (tree st))) as [|_]; [contradiction|].
    destruct (String.eqb_spec ch np) as [|_]; [contradiction|].
    rewrite Hf, Hd in Hm.
    destruct (removeMoved ch (clone (tree st)) None) as [w [m|]].
    + apply bind_inv in Hm; destruct Hm as (t' & c1 & _ & Hm).
      unfold ret in Hm; injection Hm as <- _; simpl; rewrite Pu, Pr.
      destruct (pushUnlessDragging_tree st) as (_ & _ & ->); auto.
    + unfold ret in Hm; injection Hm as <- _; rewrite Pu, Pr.
      destruct (pushUnlessDragging_tree st) as (_ & _ & ->); auto.
  - unfold drag in H; rewrite run_app in H.
    destruct (run nanoid trim fuel (moveOps moves) st c) as [[st1 c1]|] eqn:E; [|discriminate].
    destruct (moves_history _ _ _ _ _ _ E) as (Eu & Er & Ep).
    rewrite Hp in Ep; destruct moves as [|m moves]; [congruence|].
    rewrite run_one in H; destruct (step_inv _ _ _ _ _ _ H) as (mid & Hm & ->).
    destruct (ensureSelected_fields mid) as (_ & -> & -> & ->).
    simpl in Hm; unfold ret in Hm; injection Hm as <- _.
    unfold moveCommit; rewrite Ep; simpl; rewrite Eu; auto.
Qed.

(** X9.  One [undo] takes back one recorded edit: from a state whose
    selection is in the tree, after any edit that is recorded (whatever it
    did to the tree), [undo] returns the tree and the selection from before
    the edit, and the edit can be redone. *)
Theorem undo_reverts_recorded_edit fuel e (st st' : editor C) (c c' : nat) :
  settled st ->
  recorded e st ->
  run nanoid trim fuel (edit_ops e) st c = Ok (st', c') ->
  exists st'',
    step nanoid trim fuel Undo st' c' = Ok (st'', c') /\
    tree st'' = tree st /\
    selectedId st'' = selectedId st /\
    redoStack st'' = [takeSnapshot st'] /\
    (List.length (undoStack st) < 10 -> undoStack st'' = undoStack st).
Proof.
  intros Hs Hrec H.
  destruct (recorded_history fuel e st st' c c' Hrec H) as (Eu & Er & _).
  destruct (capHistory_snoc (undoStack st) (takeSnapshot st)) as (older & Eo & Hlt).
  rewrite Eo in Eu.
  exists (ensureSelected (undo st')); split; [rewrite step_eq; reflexivity|].
  rewrite (undo_snoc st' older (takeSnapshot st) Eu).
  rewrite ensureSelected_settled by exact Hs.
  simpl; rewrite Er; repeat split; auto.
Qed.

(** ** [findNode] and [isDesc] *)

Lemma find_flat_map {A B} (p : B -> bool) (g : A -> list B) (l : list A) :
  find p (flat_map g l) = firstSome (fun a => find p (g a)) l.
Proof.
  induction l as [|a l IH]; simpl; [reflexivity|].
  rewrite <- IH; clear IH.
  induction (g a) as [|b bs IHb]; simpl; [reflexivity|].
  destruct (p b); [reflexivity|exact IHb].
Qed.

(** X10.  [findNode] returns the first node, in document order, that has the
    id, and null when no node has it. *)
Theorem findNode_first_in_document_order (t : node C) i :
  findNode t i = find (fun n => (id n =? i)%string) (nodes t).
Proof.
  induction t as [t IH] using node_children_ind.
  rewrite findNode_eq, nodes_eq; simpl.
  destruct (id t =? i)%string; [reflexivity|].
  rewrite find_flat_map.
  induction IH as [|x l Hx _ IHl]; simpl; [reflexivity|].
  rewrite Hx, IHl; reflexivity.
Qed.

(** X11.  The descendant walk of [reparent] and [findNode] agree: [isDesc]
    answers true exactly when [findNode] finds a node with the id in that
    subtree, which is when the id is among the ids of the subtree. *)
Theorem isDesc_agrees_with_findNode (n : node C) i :
  isDesc n i = (match findNode n i with Some _ => true | None => false end) /\
  (isDesc n i = true <-> In i (ids n)).
Proof.
  split; [|apply isDesc_true].
  destruct (findNode n i) as [d|] eqn:E.
  - apply isDesc_true; destruct (findNode_in _ _ _ E) as [Hd <-].
    apply in_nodes_ids; exact Hd.
  - apply isDesc_false, findNode_none; exact E.
Qed.

(** ** More on import, export and [assignIds] *)

Lemma mapM_inv {A B} (f : A -> M B) l : forall (c : nat) l' c',
  mapM f l c = Ok (l', c') ->
  Forall2 (fun x y => exists c0 c1, f x c0 = Ok (y, c1)) l l'.
Proof.
  induction l as [|a l IH]; intros c l' c' H; simpl in H.
  - unfold ret in H; injection H as <- _; constructor.
  - apply bind_inv in H; destruct H as (b & c1 & Hb & H).
    apply bind_inv in H; destruct H as (bs & c2 & Hbs & H).
    unfold ret in H; injection H as <- _.
    constructor; [eauto|exact (IH _ _ _ Hbs)].
Qed.

(** The ids of an imported tree, read as the calls that returned them. *)
Lemma addIds_calls (r : raw C) : forall c : nat,
  exists n c' ks,
    addIds nanoid r c = Ok (n, c') /\ c <= c' /\
    ids n = map nanoid ks /\ NoDup ks /\ forall k, In k ks -> c <= k < c'.
Proof.
  induction r as [r IH] using raw_children_ind; intros c.
  destruct (assignIds_ok (Raw None (rname r) (rchildren r) None None None) c)
    as (base & c1 & Eb & _ & _ & _ & _ & _ & Hid).
  destruct (Hid eq_refl) as [Eid Hc1].
  assert (Hk : forall c0 : nat, exists l' c' ks,
             mapM (addIds nanoid) (rchildren r) c0 = Ok (l', c') /\ c0 <= c' /\
             flat_map (@ids C) l' = map nanoid ks /\ NoDup ks /\
             forall k, In k ks -> c0 <= k < c').
  { clear -IH; induction IH as [|x l Hx _ IHl]; intros c0.
    - exists [], c0, []; simpl; repeat split; [lia|constructor|tauto|tauto].
    - destruct (Hx c0) as (y & c2 & ks1 & Ey & Hc2 & Iy & Ny & By).
      destruct (IHl c2) as (l' & c3 & ks2 & El & Hc3 & Il & Nl & Bl).
      exists (y :: l'), c3, (ks1 ++ ks2); simpl; repeat split.
      + bind_with Ey. bind_with El. reflexivity.
      + lia.
      + rewrite Iy, Il, map_app; reflexivity.
      + apply NoDup_app; [exact Ny|exact Nl|].
        intros k H1 H2; specialize (By k H1); specialize (Bl k H2); lia.
      + apply in_app_or in H; destruct H as [H|H];
          [specialize (By k H)|specialize (Bl k H)]; lia.
      + apply in_app_or in H; destruct H as [H|H];
          [specialize (By k H)|specialize (Bl k H)]; lia. }
  destruct (Hk c1) as (kids & c2 & ks & Ek & Hc2 & Ik & Nk & Bk).
  eexists; exists c2, (c :: ks); rewrite addIds_eq.
  split; [bind_with Eb; bind_with Ek; reflexivity|].
  split; [lia|]. split; [rewrite ids_eq; simpl; rewrite Eid, Ik; reflexivity|].
  split.
  - constructor; [|exact Nk]. intros Hin; specialize (Bk c Hin); lia.
  - intros k [<-|Hin]; [lia|specialize (Bk k Hin); lia].
Qed.

Lemma NoDup_map_injective {A B} (g : A -> B) (l : list A) :
  (forall a b, g a = g b -> a = b) -> NoDup l -> NoDup (map g l).
Proof.
  intros Hg; induction 1 as [|x l Hx _ IH]; simpl; constructor; [|exact IH].
  intros Hin; apply in_map_iff in Hin; destruct Hin as (y & E & Hy).
  apply Hg in E; subst; contradiction.
Qed.

(** X12.  With a generator that never returns the same id twice, the import
    of a document that is a tree of objects returns, and the imported tree
    has unique ids (ids the document carries are not used, repeated names do
    not matter). *)
Theorem importJSON_unique_ids (json : raw C) (st : editor C) (c : nat) :
  (forall j k, nanoid j = nanoid k -> j = k) ->
  exists st' c',
    importJSON nanoid json st c = Ok (st', c') /\ NoDup (ids (tree st')).
Proof.
  intros Hinj; destruct (addIds_calls json c) as (n & c' & ks & En & _ & Ei & Nk & _).
  eexists; exists c'; unfold importJSON.
  split; [bind_with En; reflexivity|].
  simpl; rewrite Ei; apply NoDup_map_injective; assumption.
Qed.

Lemma strip_exportShaped (t : node C) : exportShaped (strip t) = true.
Proof.
  induction t as [t IH] using node_children_ind.
  destruct t as [i nm cs col x y]; simpl in *.
  apply andb_true_iff; split.
  - destruct x, y; reflexivity.
  - rewrite forallb_forall; intros r Hr; apply in_map_iff in Hr.
    destruct Hr as (d & <- & Hd); rewrite Forall_forall in IH; auto.
Qed.

Lemma addIds_forgets (r : raw C) : forall (c : nat) n c',
  addIds nanoid r c = Ok (n, c') ->
  Forall (fun d => collapsed d = None /\ (px d = None <-> py d = None)) (nodes n).
Proof.
  induction r as [r IH] using raw_children_ind; intros c n c' H.
  rewrite addIds_eq in H; apply bind_inv in H; destruct H as (base & c1 & Eb & H).
  apply bind_inv in H; destruct H as (kids & c2 & Ek & H).
  unfold ret in H; injection H as <- _.
  destruct (assignIds_ok (Raw None (rname r) (rchildren r) None None None) c)
    as (base' & c1' & Eb' & _ & _ & Ecol & Ex & Ey & _).
  rewrite Eb in Eb'; injection Eb' as <- <-; simpl in Ecol, Ex, Ey.
  rewrite nodes_eq; simpl; constructor; simpl.
  - split; [exact Ecol|]. rewrite Ex, Ey.
    destruct (rpx r), (rpy r); simpl; split; congruence.
  - apply Forall_forall; intros d Hd; apply in_flat_map in Hd.
    destruct Hd as (y & Hy & Hd).
    destruct (Forall2_in_right _ _ _ y (mapM_inv _ _ _ _ _ Ek) Hy) as (x & Hx & c0 & c3 & E).
    rewrite Forall_forall in IH.
    exact (proj1 (Forall_forall _ _) (IH x Hx c0 y c3 E) d Hd).
Qed.

(** X13.  The exported document never carries an id or a collapsed flag, and
    [px] only together with [py]; and after the import of a document that is
    a tree of objects, every node of the imported tree is without a collapsed
    flag and has [px] exactly when it has [py], with the values the document
    gives them: collapse state does not survive an export and import. *)
Theorem export_import_forget (st : editor C) (c : nat) :
  exportShaped (exportJSON st) = true /\
  forall json, exists st' c',
    importJSON nanoid json st c = Ok (st', c') /\
    Forall (fun d => collapsed d = None /\ (px d = None <-> py d = None))
           (nodes (tree st')).
Proof.
  split; [apply strip_exportShaped|].
  intros json; destruct (addIds_generated json c) as (n & c' & En & _).
  eexists; exists c'; unfold importJSON.
  split; [bind_with En; reflexivity|].
  simpl; exact (addIds_forgets json c n c' En).
Qed.

(** X14.  [assignIds] leaves a tree that has its ids alone: on a document
    whose nodes all carry a non-empty id it draws no id and returns the same
    tree. *)
Theorem assignIds_keeps_ids (t : node C) (c : nat) :
  Forall (fun i => i <> "") (ids t) ->
  assignIds nanoid (rawOf t) c = Ok (t, c) /\
  normalize nanoid (rawOf t) c = Ok (t, c).
Proof.
  assert (H : forall t (c : nat), Forall (fun i => i <> "") (ids t) ->
                                  assignIds nanoid (rawOf t) c = Ok (t, c)).
  { clear t c; induction t as [t IH] using node_children_ind; intros c Hne.
    rewrite Forall_forall in IH, Hne.
    assert (Er : rawOf t = Raw (Some (id t)) (Some (name t)) (map (@rawOf C) (children t))
                                (collapsed t) (px t) (py t)) by (destruct t; reflexivity).
    rewrite assignIds_eq, Er; simpl.
    assert (E1 : idOr nanoid (Some (id t)) c = Ok (id t, c)).
    { unfold idOr; destruct (String.eqb_spec (id t) "") as [E|_]; [|reflexivity].
      exfalso; apply (Hne (id t)); [apply ids_self|exact E]. }
    bind_with E1.
    assert (Ek : mapM (assignIds nanoid) (map (@rawOf C) (children t)) c
                 = Ok (children t, c)).
    { rewrite mapM_compose.
      rewrite (mapM_map (fun x => assignIds nanoid (rawOf x)) (fun x => x));
        [rewrite map_id; reflexivity|].
      intros x Hx; apply IH; [exact Hx|].
      apply Forall_forall; intros j Hj; apply Hne, in_ids; right; eauto. }
    bind_with Ek. unfold ret; destruct t; reflexivity. }
  intros Hne; split; [|unfold normalize]; apply H; exact Hne.
Qed.

(** X15.  [assignIds] and [stripIds] undo each other on documents of names
    and children: labelling such a document always returns, and stripping the
    ids gives the document back. *)
Theorem stripIds_assignIds (r : raw C) (c : nat) :
  plain r = true ->
  exists n c', assignIds nanoid r c = Ok (n, c') /\ stripIds n = r.
Proof.
  assert (H : forall r, plain r = true -> forall c : nat,
              exists n c', assignIds nanoid r c = Ok (n, c') /\ c <= c' /\ stripIds n = r).
  { clear r c; induction r as [r IH] using raw_children_ind; intros Hp c.
    rewrite Forall_forall in IH.
    destruct r as [i nm cs col x y]; simpl in *.
    destruct i; [discriminate|]. destruct nm as [nm|]; [|discriminate].
    destruct col; [discriminate|]. destruct x; [discriminate|].
    destruct y; [discriminate|].
    rewrite forallb_forall in Hp.
    destruct (mapM_all (assignIds nanoid) (fun x y _ _ => stripIds y = x) cs
                (fun _ _ _ _ _ _ _ _ H => H)) with (c := S c)
      as (kids & c2 & Ek & Hc2 & Pk).
    { intros x Hx c0; apply (IH x Hx (Hp x Hx) c0). }
    eexists; exists c2.
    split; [unfold bind at 1, idOr; bind_with Ek; reflexivity|].
    split; [lia|]. simpl; f_equal.
    clear -Pk; induction Pk as [|a b l l' Hab _ IHl]; simpl; congruence. }
  intros Hp; destruct (H r Hp c) as (n & c' & E & _ & Hs); eauto.
Qed.

(** ** The toolbar *)

Lemma selected_in_tree (st : editor C) : In (selected st) (nodes (tree st)).
Proof.
  unfold selected; destruct (selectedId st) as [i|]; [|apply nodes_self].
  destruct (findNode (tree st) i) as [d|] eqn:E; [|apply nodes_self].
  apply (findNode_in _ _ _ E).
Qed.

Lemma toolbarTarget_in_tree (st : editor C) : In (toolbarTarget st) (ids (tree st)).
Proof.
  unfold toolbarTarget; destruct (id (selected st) =? "")%string; [apply ids_self|].
  apply in_nodes_ids, selected_in_tree.
Qed.

(** X16.  Whatever the state, an enabled toolbar button acts on a node of
    the tree: "+ Child" and "Toggle" get the id of a node that exists,
    "Delete" such an id other than the root's (the button is disabled on the
    root), "Undo" and "Redo" are enabled only with something to undo or
    redo. *)
Theorem toolbar_acts_on_the_tree (b : button) (st : editor C) (o : op C) :
  toolbarOp b st = Some o ->
  match o with
  | AddChild i | ToggleCollapse i => In i (ids (tree st))
  | DeleteNode i => In i (ids (tree st)) /\ i <> id (tree st)
  | Undo => undoStack st <> []
  | Redo => redoStack st <> []
  | Reset => True
  | _ => False
  end.
Proof.
  pose proof (toolbarTarget_in_tree st) as Ht.
  destruct b; simpl; intros H.
  - injection H as <-; exact Ht.
  - injection H as <-; exact Ht.
  - destruct (String.eqb_spec (toolbarTarget st) (id (tree st))) as [|Hne]; [discriminate|].
    injection H as <-; auto.
  - destruct (undoStack st); [discriminate|injection H as <-; discriminate].
  - destruct (redoStack st); [discriminate|injection H as <-; discriminate].
  - injection H as <-; exact I.
Qed.

Lemma list_max_mono_mid (l1 l2 : list nat) (x y k : nat) :
  y <= x + k -> list_max (l1 ++ y :: l2) <= list_max (l1 ++ x :: l2) + k.
Proof.
  intros H; rewrite !list_max_app; simpl; lia.
Qed.

Lemma focus_height a a' t t' (k : nat) :
  focus a a' t t' -> height a' <= height a + k -> height t' <= height t + k.
Proof.
  induction 1 as [|t l1 x x' l2 E _ IH]; intros H; [exact H|].
  specialize (IH H).
  assert (E' : height (set_children t (l1 ++ x' :: l2))
               = S (list_max (map (@height C) (l1 ++ x' :: l2))))
    by (destruct t; reflexivity).
  rewrite E', (height_eq t), E, !map_app; simpl.
  pose proof (list_max_mono_mid (map (@height C) l1) (map (@height C) l2) _ _ k IH).
  lia.
Qed.

(** ** The keyboard *)

Lemma focus_root_id a a' t t' : focus a a' t t' -> id a' = id a -> id t' = id t.
Proof.
  induction 1 as [|t l1 x x' l2 E _ IH]; intros H; [exact H|].
  destruct t; reflexivity.
Qed.

Lemma focus_leaf_ids a t t' (leaf : node C) :
  children leaf = [] ->
  focus a (set_children a (children a ++ [leaf])) t t' ->
  Permutation (ids t') (id leaf :: ids t).
Proof.
  intros Hl F.
  destruct (focus_map_nodes (@id C) _ _ _ _ (fun _ _ => eq_refl) F) as (L1 & L2 & H1 & H2).
  fold (ids t) in H1; fold (ids t') in H2; fold (ids a) in H1.
  assert (Ea' : map (@id C) (nodes (set_children a (children a ++ [leaf])))
                = ids a ++ [id leaf]).
  { fold (ids (set_children a (children a ++ [leaf]))).
    rewrite ids_eq, (ids_eq a); simpl; rewrite flat_map_app; simpl.
    rewrite (ids_eq leaf), Hl; simpl; rewrite ?app_nil_r; reflexivity. }
  rewrite Ea' in H2; rewrite H1, H2.
  replace (L1 ++ (ids a ++ [id leaf]) ++ L2) with ((L1 ++ ids a) ++ id leaf :: L2)
    by (rewrite <- !app_assoc; reflexivity).
  replace (L1 ++ ids a ++ L2) with ((L1 ++ ids a) ++ L2)
    by (rewrite app_assoc; reflexivity).
  apply Permutation_sym, Permutation_middle.
Qed.

Lemma sameOption_refl (a : option string) : sameOption a a = true.
Proof. destruct a; simpl; [apply String.eqb_refl|reflexivity]. Qed.

Lemma relisten_same (l st : editor C) :
  selectedId st = selectedId l -> id (tree st) = id (tree l) -> relisten l st = l.
Proof.
  intros E1 E2; unfold relisten; rewrite E1, E2, sameOption_refl, String.eqb_refl.
  reflexivity.
Qed.

Lemma addChild_run (v : editor C) i fuel (c c' : nat) t' :
  mapTree fuel (fun n => if (id n =? i)%string
                         then child <- assignIds nanoid newNodeRaw ;;
                              ret (set_children n (children n ++ [child]))
                         else ret n) (tree v) c = Ok (t', c') ->
  addChild nanoid fuel i v c
  = Ok (setSelectedId (Some i) (setTree t' (pushUnlessDragging v)), c').
Proof.
  intros Et; unfold addChild; rewrite clone_id. bind_with Et. reflexivity.
Qed.

(** Enter, with the listener of the render [l], in any state [st]. *)
Lemma enter_step (st l : editor C) i fuel (c : nat) :
  selectedId l = Some i -> i <> "" ->
  NoDup (ids (tree l)) -> In i (ids (tree l)) -> nanoid c <> i ->
  height (tree l) + 1 <= fuel ->
  exists t',
    appStep nanoid trim fuel (Key KeyEnter) (App st l) c
    = Ok (App (Editor t' (Some i)
                      (match preDragSnapshot l with
                       | None => capHistory (undoStack st ++ [takeSnapshot l])
                       | Some _ => undoStack st
                       end)
                      (match preDragSnapshot l with
                       | None => []
                       | Some _ => redoStack st
                       end)
                      (preDragSnapshot st)) l, S c) /\
    attached i (Node (nanoid c) "New Node" [] None None None) (tree l) t' /\
    Permutation (ids t') (nanoid c :: ids (tree l)).
Proof.
  intros Es Hne H Hi Hfresh Hf.
  destruct (ids_in_nodes _ _ Hi) as (a & Ha & Ea).
  destruct (mapTree_addChild i c (tree l) a fuel H Ha Ea Hfresh Hf) as (t' & Et & F).
  pose proof (focus_leaf_ids a (tree l) t' (Node (nanoid c) "New Node" [] None None None)
                eq_refl F) as Hperm; simpl in Hperm.
  assert (Hit : In i (ids t')).
  { apply (Permutation_in _ (Permutation_sym Hperm)); right; exact Hi. }
  assert (Hid : id t' = id (tree l)).
  { apply (focus_root_id _ _ _ _ F); destruct a; reflexivity. }
  exists t'; split; [|split; [exists a; auto|exact Hperm]].
  pose proof (addChild_run (seenBy l st) i fuel c (S c) t' Et) as Ead.
  unfold appStep, onKey; cbn [listener current]; rewrite Es.
  destruct (String.eqb_spec i "") as [E|_]; [contradiction|].
  unfold bind; rewrite Ead; unfold ret.
  set (mid := setPreDragSnapshot _ _).
  assert (Em : mid = Editor t' (Some i)
                 (match preDragSnapshot l with
                  | None => capHistory (undoStack st ++ [takeSnapshot l])
                  | Some _ => undoStack st
                  end)
                 (match preDragSnapshot l with
                  | None => []
                  | Some _ => redoStack st
                  end)
                 (preDragSnapshot st)).
  { unfold mid, pushUnlessDragging, seenBy; simpl.
    destruct (preDragSnapshot l); reflexivity. }
  rewrite Em.
  rewrite (ensureSelected_present _ i); [|reflexivity|exact Hit].
  rewrite (relisten_same l) by (simpl; congruence).
  rewrite (relisten_same l) by (simpl; congruence).
  reflexivity.
Qed.

(** X19.  Enter adds the child to the tree of the render its listener is
    of, not to the current tree: whatever the current state, the new tree is
    the listener's tree with one new leaf under the listener's selection,
    the snapshot pushed is the listener's, and the listener stays. *)
Theorem enter_acts_on_the_listeners_tree (st l : editor C) i fuel (c : nat) :
  selectedId l = Some i -> i <> "" ->
  NoDup (ids (tree l)) -> In i (ids (tree l)) -> nanoid c <> i ->
  preDragSnapshot l = None ->
  height (tree l) + 1 <= fuel ->
  exists a',
    appStep nanoid trim fuel (Key KeyEnter) (App st l) c = Ok (a', S c) /\
    attached i (Node (nanoid c) "New Node" [] None None None)
             (tree l) (tree (current a')) /\
    Permutation (ids (tree (current a'))) (nanoid c :: ids (tree l)) /\
    selectedId (current a') = Some i /\
    undoStack (current a') = capHistory (undoStack st ++ [takeSnapshot l]) /\
    listener a' = l.
Proof.
  intros Es Hne H Hi Hfresh Hp Hf.
  destruct (enter_step st l i fuel c Es Hne H Hi Hfresh Hf) as (t' & E & Ha & Hperm).
  rewrite Hp in E.
  eexists; split; [exact E|]; simpl; auto.
Qed.

(** X20.  Enter pressed twice keeps one new child: the second press starts
    again from the tree the first one started from, so the first child is
    gone, and the same snapshot is pushed twice.  Two clicks on "+ Child"
    in the same state add two children. *)
Theorem enter_twice_keeps_one_child (st : editor C) i fuel (c : nat) :
  selectedId st = Some i -> i <> "" ->
  NoDup (ids (tree st)) -> In i (ids (tree st)) ->
  ~ In (nanoid c) (ids (tree st)) -> ~ In (nanoid (S c)) (ids (tree st)) ->
  nanoid c <> nanoid (S c) ->
  preDragSnapshot st = None ->
  height (tree st) + 2 <= fuel ->
  (exists a2,
     appRun nanoid trim fuel [Key KeyEnter; Key KeyEnter] (App st st) c
     = Ok (a2, S (S c)) /\
     attached i (Node (nanoid (S c)) "New Node" [] None None None)
              (tree st) (tree (current a2)) /\
     Permutation (ids (tree (current a2))) (nanoid (S c) :: ids (tree st)) /\
     ~ In (nanoid c) (ids (tree (current a2))) /\
     undoStack (current a2)
     = capHistory (capHistory (undoStack st ++ [takeSnapshot st]) ++ [takeSnapshot st])) /\
  (exists b2,
     appRun nanoid trim fuel [Call (AddChild i); Call (AddChild i)] (App st st) c
     = Ok (b2, S (S c)) /\
     Permutation (ids (tree (current b2)))
                 (nanoid (S c) :: nanoid c :: ids (tree st))).
Proof.
  intros Es Hne H Hi Hf1 Hf2 Hd Hp Hf.
  assert (Hn1 : nanoid c <> i) by (intros E; apply Hf1; rewrite E; exact Hi).
  assert (Hn2 : nanoid (S c) <> i) by (intros E; apply Hf2; rewrite E; exact Hi).
  split.
  - destruct (enter_step st st i fuel c Es Hne H Hi Hn1 ltac:(lia)) as (t1 & E1 & _ & _).
    rewrite Hp in E1.
    destruct (enter_step (Editor t1 (Some i) (capHistory (undoStack st ++ [takeSnapshot st]))
                                 [] (preDragSnapshot st))
                st i fuel (S c) Es Hne H Hi Hn2 ltac:(lia)) as (t2 & E2 & A2 & P2).
    rewrite Hp in E2; simpl in E2.
    eexists; split; [|split; [|split; [|split]]].
    + simpl. bind_with E1. bind_with E2. reflexivity.
    + exact A2.
    + exact P2.
    + simpl; intros Hin; apply (Permutation_in _ P2) in Hin.
      destruct Hin as [E|Hin]; [congruence|contradiction].
    + reflexivity.
  - destruct (ids_in_nodes _ _ Hi) as (a & Ha & Ea).
    destruct (mapTree_addChild i c (tree st) a fuel H Ha Ea Hn1 ltac:(lia)) as (t1 & Et1 & F1).
    pose proof (focus_leaf_ids a (tree st) t1 (Node (nanoid c) "New Node" [] None None None)
                  eq_refl F1) as P1; simpl in P1.
    assert (H1 : NoDup (ids t1)).
    { apply (Permutation_NoDup (Permutation_sym P1)); constructor; assumption. }
    assert (Hi1 : In i (ids t1)).
    { apply (Permutation_in _ (Permutation_sym P1)); right; exact Hi. }
    destruct (ids_in_nodes _ _ Hi1) as (a1 & Ha1 & Ea1).
    assert (Hh : height t1 <= height (tree st) + 1).
    { apply (focus_height _ _ _ _ 1 F1).
      rewrite (height_eq a), height_eq; simpl.
      rewrite map_app, list_max_app; simpl; lia. }
    destruct (mapTree_addChild i (S c) t1 a1 fuel H1 Ha1 Ea1 Hn2 ltac:(lia)) as (t2 & Et2 & F2).
    pose proof (focus_leaf_ids a1 t1 t2 (Node (nanoid (S c)) "New Node" [] None None None)
                  eq_refl F2) as P2; simpl in P2.
    assert (Hi2 : In i (ids t2)).
    { apply (Permutation_in _ (Permutation_sym P2)); right; exact Hi1. }
    eexists; split.
    + pose proof (addChild_run st i fuel c (S c) t1 Et1) as E1.
      pose proof (addChild_run (setSelectedId (Some i) (setTree t1 (pushUnlessDragging st)))
                    i fuel (S c) (S (S c)) t2 Et2) as E2.
      cbn [appRun]; unfold appStep; cbn [listener current handle].
      unfold bind; rewrite E1; unfold ret.
      rewrite (ensureSelected_present _ i); [|reflexivity|exact Hi1].
      cbn [listener current]; rewrite E2.
      rewrite (ensureSelected_present _ i); [|reflexivity|exact Hi2].
      reflexivity.
    + simpl. rewrite P2; apply perm_skip; exact P1.
Qed.

Lemma sameOption_eq (a b : option string) : sameOption a b = true -> a = b.
Proof.
  destruct a as [x|], b as [y|]; simpl; try discriminate; [|reflexivity].
  intros H; apply String.eqb_eq in H; congruence.
Qed.

Lemma relisten_deps (l st : editor C) :
  selectedId (relisten l st) = selectedId st /\
  id (tree (relisten l st)) = id (tree st).
Proof.
  unfold relisten.
  destruct (sameOption (selectedId l) (selectedId st)) eqn:E1; simpl; [|auto].
  destruct (String.eqb_spec (id (tree l)) (id (tree st))) as [E2|_]; [|auto].
  apply sameOption_eq in E1; auto.
Qed.

(** X24.  After every event the [keydown] listener is of a render with the
    current selection and the current root id, whatever it was of before:
    Enter and Delete never act on another id than the current selection's,
    even when the tree they work on is an older one. *)
Theorem listener_has_the_current_selection fuel (e : event C) (a a' : app C) (c c' : nat) :
  appStep nanoid trim fuel e a c = Ok (a', c') ->
  selectedId (listener a') = selectedId (current a') /\
  id (tree (listener a')) = id (tree (current a')).
Proof.
  unfold appStep; intros H; apply bind_inv in H; destruct H as (mid & c1 & _ & H).
  unfold ret in H; injection H as <- _; simpl.
  apply relisten_deps.
Qed.

End Facts.

(** ** Layout geometry *)

Section LayoutFacts.

Variable d3_tree : (node R -> list (node R)) -> R -> R -> node R -> laidOut.

Open Scope R_scope.

Lemma polar_on_circle (r a : R) :
  (r * cos a) * (r * cos a) + (r * sin a) * (r * sin a) = r * r.
Proof.
  pose proof (sin2_cos2 a) as H; unfold Rsqr in H.
  replace (r * cos a * (r * cos a) + r * sin a * (r * sin a))
    with (r * r * (sin a * sin a + cos a * cos a)) by ring.
  rewrite H; ring.
Qed.

(** C8 (amended).  Every node [d] of the laid-out hierarchy, which d3 builds
    from the children that are not under a collapsed node and from the radius
    [max 260 (0.42 * min w h)], yields a layout node with
    [autoX = r * cos (angle - PI/2)] and [autoY = r * sin (angle - PI/2)], so
    that [autoX^2 + autoY^2 = r^2].  The resolved position is decided per
    coordinate: [x] is [px] when present and [autoX] otherwise, [y] is [py]
    when present and [autoY] otherwise; it is [(px, py)] when both are present
    and [(autoX, autoY)] when both are absent. *)
Theorem layout_polar_to_cartesian (w h : R) (data : node R) (d : hnode) :
  In d (descendants (laid d3_tree w h data)) ->
  laid d3_tree w h data
    = d3_tree visibleChildren (2 * PI) (Rmax 260 (0.42 * Rmin w h)) data /\
  In (layoutNode d) (layoutNodes d3_tree w h data) /\
  ln_angle (layoutNode d) = h_x d /\
  ln_r (layoutNode d) = h_y d /\
  ln_autoX (layoutNode d) = ln_r (layoutNode d) * cos (ln_angle (layoutNode d) - PI / 2) /\
  ln_autoY (layoutNode d) = ln_r (layoutNode d) * sin (ln_angle (layoutNode d) - PI / 2) /\
  ln_autoX (layoutNode d) * ln_autoX (layoutNode d)
    + ln_autoY (layoutNode d) * ln_autoY (layoutNode d)
    = ln_r (layoutNode d) * ln_r (layoutNode d) /\
  ln_x (layoutNode d) = match px (h_data d) with
                        | Some v => v
                        | None => ln_autoX (layoutNode d)
                        end /\
  ln_y (layoutNode d) = match py (h_data d) with
                        | Some v => v
                        | None => ln_autoY (layoutNode d)
                        end /\
  (forall a b, px (h_data d) = Some a -> py (h_data d) = Some b ->
               (ln_x (layoutNode d), ln_y (layoutNode d)) = (a, b)) /\
  (px (h_data d) = None -> py (h_data d) = None ->
   (ln_x (layoutNode d), ln_y (layoutNode d))
   = (ln_autoX (layoutNode d), ln_autoY (layoutNode d))).
Proof.
  intros Hd; repeat split; try reflexivity.
  - unfold laid, radius; rewrite (Rmult_comm (Rmin w h)); reflexivity.
  - unfold layoutNodes; apply in_map; exact Hd.
  - simpl; apply polar_on_circle.
  - intros a b Ha Hb; simpl; rewrite Ha, Hb; reflexivity.
  - intros Ha Hb; simpl; rewrite Ha, Hb; reflexivity.
Qed.

Lemma hypot_nonneg (dx dy : R) : 0 <= hypot dx dy.
Proof. apply sqrt_pos. Qed.

Lemma hypot_same (x y : R) : hypot (x - x) (y - y) = 0.
Proof.
  unfold hypot. replace ((x - x) * (x - x) + (y - y) * (y - y)) with 0 by ring.
  apply sqrt_0.
Qed.

Lemma divisor_nonzero (dist : R) : divisor dist <> 0.
Proof. unfold divisor; destruct (Req_dec_T dist 0); [lra|assumption]. Qed.

Lemma bendOf_clamp (dist : R) : bendOf dist = clamp (dist * 0.2) 20 80.
Proof.
  unfold bendOf, clamp, Rmin, Rmax.
  repeat (destruct (Rle_dec _ _)); lra.
Qed.

(** C9 (amended).  The connector of any parent and child divides by
    [dist || 1], which is never zero: it is 1 when the distance is zero, as
    for identical positions, and the distance itself otherwise.  The bend is
    [clamp (dist * 0.2) 20 80] and the stroke width
    [max 1.5 (4 - depth * 0.4)], with the depth of the child for every link
    of the laid-out hierarchy. *)
Theorem connector_curve (s t : LayoutNode) (depth : nat) :
  let dx := ln_x t - ln_x s in
  let dy := ln_y t - ln_y s in
  let dist := hypot dx dy in
  divisor dist <> 0 /\
  (dist = 0 -> divisor dist = 1) /\
  (dist <> 0 -> divisor dist = dist) /\
  ((ln_x s, ln_y s) = (ln_x t, ln_y t) -> dist = 0 /\ divisor dist = 1) /\
  bendOf dist = clamp (dist * 0.2) 20 80 /\
  l_c1 (curve s t depth)
    = (ln_x s + dx * 0.33 + - (dy / divisor dist) * bendOf dist * 0.2,
       ln_y s + dy * 0.33 + dx / divisor dist * bendOf dist * 0.2) /\
  l_c2 (curve s t depth)
    = (ln_x s + dx * 0.66 - - (dy / divisor dist) * bendOf dist * 0.2,
       ln_y s + dy * 0.66 - dx / divisor dist * bendOf dist * 0.2) /\
  l_width (curve s t depth) = Rmax 1.5 (4 - INR depth * 0.4) /\
  (forall nodes l lk,
     linkOf nodes l = Ok lk ->
     l_depth lk = h_depth (snd l) /\
     l_width lk = Rmax 1.5 (4 - INR (h_depth (snd l)) * 0.4) /\
     exists s' t', idMapGet nodes (id (h_data (fst l))) = Some s' /\
                   idMapGet nodes (id (h_data (snd l))) = Some t' /\
                   lk = curve s' t' (h_depth (snd l))).
Proof.
  intros dx dy dist.
  assert (H0 : dist = 0 -> divisor dist = 1).
  { intros E; unfold divisor; destruct (Req_dec_T dist 0); [reflexivity|contradiction]. }
  split; [apply divisor_nonzero|].
  split; [exact H0|].
  split; [intros E; unfold divisor; destruct (Req_dec_T dist 0); [contradiction|reflexivity]|].
  split.
  { intros H; injection H as Ex Ey.
    assert (E : dist = 0) by (unfold dist, dx, dy; rewrite Ex, Ey; apply hypot_same).
    split; [exact E|exact (H0 E)]. }
  split; [apply bendOf_clamp|].
  split; [reflexivity|]. split; [reflexivity|]. split; [reflexivity|].
  intros nodes l lk H; unfold linkOf in H.
  destruct (idMapGet nodes (id (h_data (fst l)))) as [s'|]; [|discriminate].
  destruct (idMapGet nodes (id (h_data (snd l)))) as [t'|]; [|discriminate].
  injection H as <-; repeat split; eauto.
Qed.

(** ** The connector as a curve *)

Lemma hypot_square (dx dy : R) : hypot dx dy * hypot dx dy = dx * dx + dy * dy.
Proof.
  unfold hypot; apply sqrt_def.
  pose proof (Rle_0_sqr dx) as Hx; pose proof (Rle_0_sqr dy) as Hy.
  unfold Rsqr in Hx, Hy; lra.
Qed.

Lemma hypot_zero (dx dy : R) : hypot dx dy = 0 -> dx = 0 /\ dy = 0.
Proof.
  intros H; pose proof (hypot_square dx dy) as E; rewrite H in E.
  pose proof (Rle_0_sqr dx) as Hx; pose proof (Rle_0_sqr dy) as Hy.
  unfold Rsqr in Hx, Hy.
  split; apply Rsqr_0_uniq; unfold Rsqr; lra.
Qed.

Lemma bendOf_bounds (dist : R) : 20 <= bendOf dist <= 80.
Proof.
  unfold bendOf, Rmin, Rmax; repeat (destruct (Rle_dec _ _)); lra.
Qed.

Lemma widthOf_bounds (depth : nat) : 1.5 <= widthOf depth <= 4.
Proof.
  pose proof (pos_INR depth) as H.
  unfold widthOf, Rmax; destruct (Rle_dec _ _); lra.
Qed.

(** X17.  The connector starts at the source and ends at the target.  Its
    control points sit at 33% and 66% of the segment, pushed sideways by
    opposite offsets: the offset is perpendicular to the segment and its
    length is a fifth of the bend, so between 4 and 16, unless the two ends
    coincide, when there is no offset and all four points are the same.  The
    stroke width is between 1.5 and 4. *)
Theorem curve_geometry (s t : LayoutNode) (depth : nat) :
  let dx := ln_x t - ln_x s in
  let dy := ln_y t - ln_y s in
  let dist := hypot dx dy in
  let o1x := fst (l_c1 (curve s t depth)) - (ln_x s + dx * 0.33) in
  let o1y := snd (l_c1 (curve s t depth)) - (ln_y s + dy * 0.33) in
  let o2x := fst (l_c2 (curve s t depth)) - (ln_x s + dx * 0.66) in
  let o2y := snd (l_c2 (curve s t depth)) - (ln_y s + dy * 0.66) in
  l_from (curve s t depth) = (ln_x s, ln_y s) /\
  l_to (curve s t depth) = (ln_x t, ln_y t) /\
  o2x = - o1x /\ o2y = - o1y /\
  o1x * dx + o1y * dy = 0 /\
  (dist <> 0 ->
   o1x * o1x + o1y * o1y = (bendOf dist * 0.2) * (bendOf dist * 0.2) /\
   4 * 4 <= o1x * o1x + o1y * o1y <= 16 * 16) /\
  (dist = 0 ->
   l_c1 (curve s t depth) = l_from (curve s t depth) /\
   l_c2 (curve s t depth) = l_from (curve s t depth) /\
   l_to (curve s t depth) = l_from (curve s t depth)) /\
  1.5 <= l_width (curve s t depth) <= 4.
Proof.
  intros dx dy dist o1x o1y o2x o2y.
  pose proof (divisor_nonzero dist) as Hd.
  pose proof (bendOf_bounds dist) as Hb.
  assert (E1x : o1x = - (dy / divisor dist) * bendOf dist * 0.2)
    by (unfold o1x; simpl; fold dx dy dist; ring).
  assert (E1y : o1y = dx / divisor dist * bendOf dist * 0.2)
    by (unfold o1y; simpl; fold dx dy dist; ring).
  assert (E2x : o2x = - o1x) by (rewrite E1x; unfold o2x; simpl; fold dx dy dist; ring).
  assert (E2y : o2y = - o1y) by (rewrite E1y; unfold o2y; simpl; fold dx dy dist; ring).
  split; [reflexivity|]. split; [reflexivity|].
  split; [exact E2x|]. split; [exact E2y|].
  split; [rewrite E1x, E1y; field; exact Hd|].
  split; [|split].
  - intros Hne.
    assert (Ed : divisor dist = dist)
      by (unfold divisor; destruct (Req_dec_T dist 0); [contradiction|reflexivity]).
    assert (Esq : o1x * o1x + o1y * o1y = (bendOf dist * 0.2) * (bendOf dist * 0.2)).
    { rewrite E1x, E1y, Ed.
      replace (- (dy / dist) * bendOf dist * 0.2 * (- (dy / dist) * bendOf dist * 0.2)
               + dx / dist * bendOf dist * 0.2 * (dx / dist * bendOf dist * 0.2))
        with ((dx * dx + dy * dy) / (dist * dist)
              * ((bendOf dist * 0.2) * (bendOf dist * 0.2))) by (field; exact Hne).
      rewrite <- (hypot_square dx dy); fold dist; field; exact Hne. }
    split; [exact Esq|rewrite Esq; nra].
  - intros H0; destruct (hypot_zero dx dy H0) as [Ex Ey].
    assert (Et : ln_x t = ln_x s /\ ln_y t = ln_y s) by (unfold dx, dy in Ex, Ey; lra).
    destruct Et as [Etx Ety].
    unfold curve; simpl; fold dx dy dist; rewrite Ex, Ey, Etx, Ety.
    repeat split; f_equal; field; exact Hd.
  - simpl; apply widthOf_bounds.
Qed.

Lemma find_unique {A} (k : A -> string) (l : list A) (x : A) :
  NoDup (map k l) -> In x l ->
  find (fun n => (k n =? k x)%string) l = Some x.
Proof.
  induction l as [|a l IH]; simpl; intros Hnd Hin; [contradiction|].
  inversion Hnd as [|? ? Hna Hnd']; subst.
  destruct Hin as [->|Hin]; [rewrite String.eqb_refl; reflexivity|].
  destruct (String.eqb_spec (k a) (k x)) as [E|_]; [|auto].
  exfalso; apply Hna; rewrite E; apply in_map; exact Hin.
Qed.

Lemma find_some_of_in {A} (p : A -> bool) (l : list A) (x : A) :
  In x l -> p x = true -> exists y, find p l = Some y.
Proof.
  induction l as [|a l IH]; simpl; intros Hin Hp; [contradiction|].
  destruct (p a) eqn:Ea; [eauto|].
  destruct Hin as [->|Hin]; [congruence|auto].
Qed.

Lemma find_app_first {A} (p : A -> bool) (l1 l2 : list A) :
  find p (l1 ++ l2) = match find p l1 with
                      | Some y => Some y
                      | None => find p l2
                      end.
Proof.
  induction l1 as [|a l1 IH]; simpl; [reflexivity|].
  destruct (p a); [reflexivity|exact IH].
Qed.

(** What [find] returns on the reversed list is the last hit of the list. *)
Lemma find_rev_last {A} (p : A -> bool) (l : list A) (x : A) :
  find p (rev l) = Some x ->
  exists l1 l2, l = l1 ++ x :: l2 /\ p x = true /\ Forall (fun y => p y = false) l2.
Proof.
  induction l as [|a l IH]; simpl; [discriminate|].
  rewrite find_app_first.
  destruct (find p (rev l)) as [y|] eqn:E.
  - intros [= ->]; destruct (IH eq_refl) as (l1 & l2 & -> & Hx & Hl2).
    exists (a :: l1), l2; auto.
  - simpl; destruct (p a) eqn:Ea; [|discriminate].
    intros [= ->]; exists [], l; repeat split; [exact Ea|].
    apply Forall_forall; intros y Hy.
    apply (find_none _ _ E); rewrite <- in_rev; exact Hy.
Qed.

Lemma idMapGet_layoutNodes (D : list hnode) (d : hnode) :
  In d D ->
  (exists s l1 l2,
     idMapGet (map layoutNode D) (id (h_data d)) = Some s /\
     map layoutNode D = l1 ++ s :: l2 /\
     id (ln_data s) = id (h_data d) /\
     Forall (fun n => id (ln_data n) <> id (h_data d)) l2) /\
  (NoDup (map (fun e => id (h_data e)) D) ->
   idMapGet (map layoutNode D) (id (h_data d)) = Some (layoutNode d)).
Proof.
  intros Hd; unfold idMapGet; split.
  - destruct (find_some_of_in (fun n => (id (ln_data n) =? id (h_data d))%string)
                (rev (map layoutNode D)) (layoutNode d)) as (s & Es).
    + rewrite <- in_rev; apply in_map; exact Hd.
    + simpl; apply String.eqb_refl.
    + destruct (find_rev_last _ _ _ Es) as (l1 & l2 & El & Hid & Hl2).
      exists s, l1, l2; split; [exact Es|]. split; [exact El|].
      split; [apply String.eqb_eq; exact Hid|].
      apply Forall_forall; intros n Hn; rewrite Forall_forall in Hl2.
      apply String.eqb_neq, Hl2; exact Hn.
  - intros Hnd.
    apply (find_unique (fun n => id (ln_data n)) (rev (map layoutNode D)) (layoutNode d)).
    + rewrite map_rev, map_map; simpl; apply NoDup_rev; exact Hnd.
    + rewrite <- in_rev; apply in_map; exact Hd.
Qed.

(** X18.  A link of two laid-out nodes never reads a missing node: it is
    always drawn, from the position of the last layout node that has the id
    of its source to the position of the last layout node that has the id of
    its target, with the width of the target's depth.  When the ids of the
    laid-out nodes are unique, these are the resolved positions of the source
    and of the target themselves. *)
Theorem links_join_resolved_positions (w h : R) (data : node R) (l : hnode * hnode) :
  In (fst l) (descendants (laid d3_tree w h data)) ->
  In (snd l) (descendants (laid d3_tree w h data)) ->
  (exists s t,
     linkOf (layoutNodes d3_tree w h data) l = Ok (curve s t (h_depth (snd l))) /\
     (exists l1 l2,
        layoutNodes d3_tree w h data = l1 ++ s :: l2 /\
        id (ln_data s) = id (h_data (fst l)) /\
        Forall (fun n => id (ln_data n) <> id (h_data (fst l))) l2) /\
     (exists l1 l2,
        layoutNodes d3_tree w h data = l1 ++ t :: l2 /\
        id (ln_data t) = id (h_data (snd l)) /\
        Forall (fun n => id (ln_data n) <> id (h_data (snd l))) l2)) /\
  (NoDup (map (fun e => id (h_data e)) (descendants (laid d3_tree w h data))) ->
   linkOf (layoutNodes d3_tree w h data) l
   = Ok (curve (layoutNode (fst l)) (layoutNode (snd l)) (h_depth (snd l))) /\
   l_from (curve (layoutNode (fst l)) (layoutNode (snd l)) (h_depth (snd l)))
   = (ln_x (layoutNode (fst l)), ln_y (layoutNode (fst l))) /\
   l_to (curve (layoutNode (fst l)) (layoutNode (snd l)) (h_depth (snd l)))
   = (ln_x (layoutNode (snd l)), ln_y (layoutNode (snd l)))).
Proof.
  intros Hs Ht; unfold layoutNodes, linkOf.
  destruct (idMapGet_layoutNodes _ _ Hs) as ((s & l1 & l2 & Es & Els & Ids & Hls) & Us).
  destruct (idMapGet_layoutNodes _ _ Ht) as ((t & m1 & m2 & Et & Elt & Idt & Hlt) & Ut).
  split.
  - exists s, t; rewrite Es, Et; split; [reflexivity|].
    split; [exists l1, l2; auto|exists m1, m2; auto].
  - intros Hnd; rewrite (Us Hnd), (Ut Hnd); auto.
Qed.

End LayoutFacts.

Section PointerFacts.

Variable nanoid : nat -> string.
Variable trim : string -> string.

Open Scope R_scope.

Lemma pointerRun_cons (v : props) (e : mouse) es (p : pointer) :
  pointerRun ((v, e) :: es) p
  = (fst (pointerRun es (fst (pointerStep v e p))),
     snd (pointerStep v e p) ++ snd (pointerRun es (fst (pointerStep v e p)))).
Proof.
  simpl; destruct (pointerStep v e p) as [p1 ops1]; simpl.
  destruct (pointerRun es p1); reflexivity.
Qed.

Lemma nearer_keeps dragId gx gy seen acc nd :
  nearestAmong dragId gx gy seen acc ->
  nearestAmong dragId gx gy (seen ++ [nd]) (nearer dragId gx gy acc nd).
Proof.
  unfold nearer; intros H.
  destruct (String.eqb_spec (id (ln_data nd)) dragId) as [E|E].
  - destruct acc as [[m n0]|]; simpl in *.
    + destruct H as (Hm & Hin & Hne & Hmin).
      repeat split; [exact Hm|apply in_or_app; auto|exact Hne|].
      intros x Hx Hxne; apply in_app_or in Hx.
      destruct Hx as [Hx|[<-|[]]]; [auto|contradiction].
    + intros x Hx; apply in_app_or in Hx; destruct Hx as [Hx|[<-|[]]]; auto.
  - destruct acc as [[m n0]|]; simpl in *.
    + destruct H as (Hm & Hin & Hne & Hmin).
      destruct (Rlt_dec (dist2 gx gy nd) m) as [Hlt|Hge].
      * repeat split; [apply in_or_app; simpl; auto|exact E|].
        intros x Hx Hxne; apply in_app_or in Hx.
        destruct Hx as [Hx|[<-|[]]]; [specialize (Hmin x Hx Hxne); lra|lra].
      * repeat split; [exact Hm|apply in_or_app; auto|exact Hne|].
        intros x Hx Hxne; apply in_app_or in Hx.
        destruct Hx as [Hx|[<-|[]]]; [auto|lra].
    + repeat split; [apply in_or_app; simpl; auto|exact E|].
      intros x Hx Hxne; apply in_app_or in Hx.
      destruct Hx as [Hx|[<-|[]]]; [|lra].
      exfalso; apply Hxne, H; exact Hx.
Qed.

Lemma nearest_fold dragId gx gy nodes : forall seen acc,
  nearestAmong dragId gx gy seen acc ->
  nearestAmong dragId gx gy (seen ++ nodes) (fold_left (nearer dragId gx gy) nodes acc).
Proof.
  induction nodes as [|nd nodes IH]; intros seen acc H; simpl.
  - rewrite app_nil_r; exact H.
  - replace (seen ++ nd :: nodes) with ((seen ++ [nd]) ++ nodes)
      by (rewrite <- app_assoc; reflexivity).
    apply IH, nearer_keeps; exact H.
Qed.

Lemma dist2_nonneg gx gy nd : 0 <= dist2 gx gy nd.
Proof.
  unfold dist2.
  pose proof (Rle_0_sqr (ln_x nd - gx)) as Hx; pose proof (Rle_0_sqr (ln_y nd - gy)) as Hy.
  unfold Rsqr in Hx, Hy; lra.
Qed.

Lemma hoverOf_spec k dragId gx gy nodes :
  match hoverOf k dragId gx gy nodes with
  | Some h =>
      exists nd, In nd nodes /\ id (ln_data nd) = h /\ h <> dragId /\
                 sqrt (dist2 gx gy nd) < 60 / divisor k /\
                 forall nd', In nd' nodes -> id (ln_data nd') <> dragId ->
                             dist2 gx gy nd <= dist2 gx gy nd'
  | None =>
      forall nd, In nd nodes -> id (ln_data nd) <> dragId ->
                 60 / divisor k <= sqrt (dist2 gx gy nd)
  end.
Proof.
  pose proof (nearest_fold dragId gx gy nodes [] None (fun _ (H : In _ []) => match H with end))
    as H; simpl in H.
  unfold hoverOf, nearest.
  destruct (fold_left (nearer dragId gx gy) nodes None) as [[m n0]|]; simpl in H.
  - destruct H as (Hm & Hin & Hne & Hmin).
    destruct (Rlt_dec (sqrt m) (60 / divisor k)) as [Hlt|Hge].
    + exists n0; rewrite <- Hm; auto.
    + intros nd Hnd Hndne.
      pose proof (sqrt_le_1_alt _ _ (Hmin nd Hnd Hndne)); lra.
  - intros nd Hnd Hndne; exfalso; apply Hndne, H; exact Hnd.
Qed.

(** X21.  While a node is dragged with Shift held, the drop target shown is
    the laid-out node nearest to the pointer among those with another id
    than the dragged node's, when it is less than [60 / (k || 1)] away; with
    no such node in reach there is no drop target.  The move calls
    nothing. *)
Theorem hover_target_is_nearest_in_reach (v : props) (p : pointer) (d : dragState)
                                         (gx gy : R) :
  lockCanvas v = false ->
  dragging p = Some d ->
  snd (handleMouseMove v true gx gy p) = [] /\
  dragging (fst (handleMouseMove v true gx gy p))
  = Some (Dragging (dg_id d) ReparentMode (dg_dx d) (dg_dy d)) /\
  match hoverTargetId (fst (handleMouseMove v true gx gy p)) with
  | Some h =>
      exists nd, In nd (p_nodes v) /\ id (ln_data nd) = h /\ h <> dg_id d /\
                 sqrt (dist2 gx gy nd) < 60 / divisor (p_k v) /\
                 forall nd', In nd' (p_nodes v) -> id (ln_data nd') <> dg_id d ->
                             dist2 gx gy nd <= dist2 gx gy nd'
  | None =>
      forall nd, In nd (p_nodes v) -> id (ln_data nd) <> dg_id d ->
                 60 / divisor (p_k v) <= sqrt (dist2 gx gy nd)
  end.
Proof.
  intros Hl Hd; unfold handleMouseMove; rewrite Hl, Hd; simpl.
  split; [reflexivity|]. split; [reflexivity|].
  apply hoverOf_spec.
Qed.

Lemma moveEvents_run (i : string) (dx dy : R) rest : forall moves h,
  Forall (fun m => lockCanvas (fst m) = false) moves ->
  pointerRun (moveEvents moves ++ rest) (Pointer (Some (Dragging i MoveMode dx dy)) h)
  = (fst (pointerRun rest (Pointer (Some (Dragging i MoveMode dx dy))
                                   (match moves with [] => h | _ :: _ => None end))),
     moveOps (map (fun m => (i, fst (snd m) + dx, snd (snd m) + dy)) moves)
     ++ snd (pointerRun rest (Pointer (Some (Dragging i MoveMode dx dy))
                                      (match moves with [] => h | _ :: _ => None end)))).
Proof.
  induction moves as [|[v [gx gy]] moves IH]; intros h Hl.
  - simpl; destruct (pointerRun rest _); reflexivity.
  - pose proof (Forall_inv Hl) as Hv; simpl in Hv.
    change (moveEvents ((v, (gx, gy)) :: moves) ++ rest)
      with ((v, MouseMove false gx gy) :: moveEvents moves ++ rest).
    rewrite pointerRun_cons; simpl pointerStep.
    unfold handleMouseMove; rewrite Hv; simpl.
    rewrite (IH None (Forall_inv_tail Hl)); simpl.
    destruct moves; reflexivity.
Qed.

(** X22.  Pressing a node without Shift, moving and releasing calls
    [onSelect] for the node, [onMoveNode] once per move with the pointer's
    position shifted by the offset at which the node was grabbed, and
    [onMoveCommit] once at the end: the calls of one drag.  The gesture ends
    with nothing dragged and no drop target. *)
Theorem drag_gesture_calls (v0 v1 : props) (n : LayoutNode) (gx0 gy0 : R)
                           (moves : list (props * (R * R))) (p : pointer) :
  lockCanvas v0 = false ->
  Forall (fun m => lockCanvas (fst m) = false) moves ->
  lockCanvas v1 = false ->
  pointerRun ((v0, MouseDownNode n false gx0 gy0) :: moveEvents moves ++ [(v1, MouseUp)]) p
  = (Pointer None None,
     Select (id (ln_data n))
     :: drag (map (fun m => (id (ln_data n),
                             fst (snd m) + (ln_x n - gx0),
                             snd (snd m) + (ln_y n - gy0))) moves)).
Proof.
  intros H0 Hm H1.
  rewrite pointerRun_cons; simpl pointerStep.
  unfold handleMouseDownNode; rewrite H0; cbn [fst snd].
  rewrite (moveEvents_run _ _ _ _ moves _ Hm).
  simpl; unfold handleMouseUp; rewrite H1; simpl.
  unfold drag; reflexivity.
Qed.

(** X23.  A drag that moved the node and is released after a move with
    Shift held never calls [onMoveCommit]: it calls [onSelect], [onMoveNode]
    for the moves and at most one [onReparent].  In the editor these leave
    the undo and redo stacks as they were and the snapshot taken at the
    first move pending, so the drag is not on the undo stack. *)
Theorem drag_released_with_shift_stays_pending
        (v0 vs v1 : props) (n : LayoutNode) (gx0 gy0 gxs gys : R)
        (m1 : props * (R * R)) (moves : list (props * (R * R))) (p : pointer) :
  lockCanvas v0 = false ->
  Forall (fun m => lockCanvas (fst m) = false) (m1 :: moves) ->
  lockCanvas vs = false ->
  lockCanvas v1 = false ->
  let res := pointerRun ((v0, MouseDownNode n false gx0 gy0)
                         :: moveEvents (m1 :: moves)
                         ++ [(vs, MouseMove true gxs gys); (v1, MouseUp)]) p in
  fst res = Pointer None None /\
  ~ In MoveCommit (snd res) /\
  forall fuel (st st' : editor R) (c c' : nat),
    preDragSnapshot st = None ->
    run nanoid trim fuel (snd res) st c = Ok (st', c') ->
    undoStack st' = undoStack st /\ redoStack st' = redoStack st /\
    preDragSnapshot st'
    = Some (takeSnapshot (ensureSelected (setSelectedId (Some (id (ln_data n))) st))).
Proof.
  intros H0 Hm Hs H1 res.
  set (i := id (ln_data n)).
  set (mv := map (fun m : props * (R * R) =>
                    (i, fst (snd m) + (ln_x n - gx0), snd (snd m) + (ln_y n - gy0)))
                 (m1 :: moves)).
  assert (E : exists rep,
             res = (Pointer None None, Select i :: moveOps mv ++ rep) /\
             (rep = [] \/ exists h, rep = [Reparent i h])).
  { unfold res; rewrite pointerRun_cons; simpl pointerStep.
    unfold handleMouseDownNode; rewrite H0; cbn [fst snd].
    rewrite (moveEvents_run _ _ _ _ (m1 :: moves) _ Hm).
    fold i; fold mv.
    rewrite !pointerRun_cons; simpl pointerStep; simpl pointerRun.
    unfold handleMouseMove; rewrite Hs; simpl.
    unfold handleMouseUp; rewrite H1; simpl.
    destruct (hoverOf (p_k vs) i gxs gys (p_nodes vs)) as [h|].
    - destruct (h =? "")%string; [exists []; rewrite !app_nil_r; auto|].
      destruct (h =? i)%string; [exists []; rewrite !app_nil_r; auto|].
      exists [Reparent i h]; rewrite !app_nil_r; eauto.
    - exists []; rewrite !app_nil_r; auto. }
  destruct E as (rep & -> & Hrep); cbn [fst snd].
  split; [reflexivity|]. split.
  - intros [Hin|Hin]; [discriminate|].
    apply in_app_or in Hin; destruct Hin as [Hin|Hin].
    + unfold moveOps in Hin; apply in_map_iff in Hin.
      destruct Hin as (x & Hx & _); discriminate.
    + destruct Hrep as [->|[h ->]]; [contradiction|].
      destruct Hin as [Hin|[]]; discriminate.
  - intros fuel st st' c c' Hp Hrun.
    change (Select i :: moveOps mv ++ rep) with ([Select i] ++ moveOps mv ++ rep) in Hrun.
    rewrite run_app, run_one, step_eq in Hrun; cbn [handle ret] in Hrun.
    set (st1 := ensureSelected (setSelectedId (Some i) st)) in *.
    assert (E1 : undoStack st1 = undoStack st /\ redoStack st1 = redoStack st /\
                 preDragSnapshot st1 = None).
    { destruct (ensureSelected_fields _ (setSelectedId (Some i) st)) as (_ & Eu & Er & Ep).
      unfold st1; rewrite Eu, Er, Ep; simpl; auto. }
    destruct E1 as (Eu1 & Er1 & Ep1).
    rewrite run_app in Hrun.
    destruct (run nanoid trim fuel (moveOps mv) st1 c) as [[st2 c2]|] eqn:E2; [|discriminate].
    destruct (moves_history _ _ _ _ _ _ _ _ _ E2) as (Eu2 & Er2 & Ep2).
    rewrite Ep1 in Ep2; simpl in Ep2.
    destruct Hrep as [->|[h ->]].
    + simpl in Hrun; unfold ret in Hrun; injection Hrun as <- _.
      rewrite Eu2, Er2, Ep2; auto.
    + rewrite run_one in Hrun.
      destruct (step_inv _ _ _ _ _ _ _ _ _ Hrun) as (mid & Hh & ->).
      destruct (ensureSelected_fields _ mid) as (_ & Eu & Er & Ep).
      rewrite Eu, Er, Ep.
      pose proof (handle_history _ _ _ _ _ _ _ _ _ Hh) as Hr; simpl in Hr.
      unfold pushUnlessDragging in Hr; rewrite Ep2 in Hr.
      destruct Hr as [->|(-> & -> & ->)]; rewrite ?Eu2, ?Er2, ?Ep2; auto.
Qed.

Lemma pointerRun_app es1 es2 (p : pointer) :
  pointerRun (es1 ++ es2) p
  = (fst (pointerRun es2 (fst (pointerRun es1 p))),
     snd (pointerRun es1 p) ++ snd (pointerRun es2 (fst (pointerRun es1 p)))).
Proof.
  revert p; induction es1 as [|[v e] es1 IH]; intros p.
  - simpl; destruct (pointerRun es2 p); reflexivity.
  - change (((v, e) :: es1) ++ es2) with ((v, e) :: es1 ++ es2).
    rewrite !pointerRun_cons, IH; cbn [fst snd]; rewrite app_assoc; reflexivity.
Qed.

Lemma locked_step (v : props) (e : mouse) (p : pointer) :
  lockCanvas v = true -> pointerStep v e p = (p, []).
Proof.
  intros H; destruct e; simpl;
    unfold handleMouseDownNode, handleMouseMove, handleMouseUp; rewrite H; reflexivity.
Qed.

(** X25.  While the canvas is locked, the three handlers of the drag gesture
    (mouse down on a node, mouse move, mouse up) call nothing and leave the
    gesture as it is: a drag in progress when the canvas is locked stays in
    progress, its release is ignored, and the first move on the unlocked
    canvas moves the node again, from the offset at which it was grabbed. *)
Theorem locked_canvas_freezes_the_gesture (es : list (props * mouse)) (p : pointer)
        (v : props) (d : dragState) (gx gy : R) :
  Forall (fun ve => lockCanvas (fst ve) = true) es ->
  dragging p = Some d ->
  lockCanvas v = false ->
  pointerRun es p = (p, []) /\
  pointerRun (es ++ [(v, MouseMove false gx gy)]) p
  = (Pointer (Some (Dragging (dg_id d) MoveMode (dg_dx d) (dg_dy d))) None,
     [MoveNode (dg_id d) (gx + dg_dx d) (gy + dg_dy d)]).
Proof.
  intros Hl Hd Hv.
  assert (E : pointerRun es p = (p, [])).
  { clear Hd; induction Hl as [|[v' e] es Hv' _ IH]; [reflexivity|].
    rewrite pointerRun_cons, (locked_step v' e p Hv'); cbn [fst snd].
    rewrite IH; reflexivity. }
  split; [exact E|].
  rewrite pointerRun_app, E; cbn [fst snd]; simpl.
  unfold handleMouseMove; rewrite Hv, Hd; reflexivity.
Qed.

End PointerFacts.

(** * The theorems at concrete inputs *)

Lemma nodupb_sound (l : list string) : nodupb l = true -> NoDup l.
Proof.
  induction l as [|x l IH]; simpl; intros H; [constructor|].
  apply andb_true_iff in H; destruct H as [Hx Hl].
  constructor; [|apply IH; exact Hl].
  intros Hin; apply negb_true_iff in Hx.
  assert (existsb (String.eqb x) l = true); [|congruence].
  apply existsb_exists; exists x; split; [exact Hin|apply String.eqb_refl].
Qed.

Lemma sampleTree_unique : NoDup (ids sampleTree).
Proof. apply nodupb_sound; reflexivity. Qed.


Lemma deleteNode_removes_exactly_witness :
  detached sampleA sampleTree (tree (deleteNode "a" sampleEditor)) /\
  (exists L1 L2, labels sampleTree = L1 ++ labels sampleA ++ L2 /\
                 labels (tree (deleteNode "a" sampleEditor)) = L1 ++ L2) /\
  selectedId (deleteNode "a" sampleEditor) = Some "r" /\
  selectedId (ensureSelected (deleteNode "a" sampleEditor)) = Some "r" /\
  id (tree (deleteNode "a" sampleEditor)) = "r" /\
  deleteNode "r" sampleEditor = sampleEditor.
Proof.
  apply (deleteNode_removes_exactly Z sampleEditor "a" sampleA);
    [exact sampleTree_unique|reflexivity|discriminate].
Defined.

Lemma reparent_guards_and_move_witness :
  reparent 6 "a" "a1" sampleEditor 0 = Ok (sampleEditor, 0) /\
  exists st' w,
    reparent 6 "b1" "a" sampleEditor 0 = Ok (st', 0) /\
    detached (leaf "b1" "Detail B1") sampleTree w /\
    attached "a" (leaf "b1" "Detail B1") w (tree st') /\
    selectedId st' = Some "b1" /\
    selectedId (ensureSelected st') = Some "b1".
Proof.
  split.
  - apply (proj1 (reparent_guards_and_move Z sampleEditor "a" "a1" sampleA 6 0
                    sampleTree_unique ltac:(vm_compute; tauto) eq_refl
                    ltac:(vm_compute; tauto))).
    right; right; vm_compute; tauto.
  - apply (proj2 (reparent_guards_and_move Z sampleEditor "b1" "a" (leaf "b1" "Detail B1") 6 0
                    sampleTree_unique ltac:(vm_compute; tauto) eq_refl
                    ltac:(vm_compute; tauto)));
      [discriminate|discriminate|vm_compute; intuition discriminate|vm_compute; lia].
Defined.

Lemma reparent_onto_current_parent_witness :
  exists st',
    reparent 6 "a1" "a" sampleEditor 0 = Ok (st', 0) /\
    focus sampleA (set_children sampleA ([] ++ [leaf "a2" "Detail A2"] ++ [leaf "a1" "Detail A1"]))
          sampleTree (tree st') /\
    selectedId st' = Some "a1" /\
    ([leaf "a2" "Detail A2"] = [] -> tree st' = sampleTree).
Proof.
  apply (reparent_onto_current_parent Z sampleEditor sampleA [] (leaf "a1" "Detail A1")
           [leaf "a2" "Detail A2"] 6 0);
    [exact sampleTree_unique|vm_compute; tauto|reflexivity|vm_compute; lia].
Defined.

Lemma edits_on_absent_id_witness :
  tree (pushUnlessDragging sampleEditor) = sampleTree /\
  step sample_nanoid ascii_trim 3 (AddChild "zz") sampleEditor 0
    = Ok (setSelectedId (Some "r") (pushUnlessDragging sampleEditor), 0) /\
  step sample_nanoid ascii_trim 3 (DeleteNode "zz") sampleEditor 0
    = Ok (setSelectedId (Some "r") (pushUnlessDragging sampleEditor), 0) /\
  step sample_nanoid ascii_trim 3 (RenameNode "zz" " x ") sampleEditor 0
    = Ok (ensureSelected (pushUnlessDragging sampleEditor), 0) /\
  step sample_nanoid ascii_trim 3 (ToggleCollapse "zz") sampleEditor 0
    = Ok (ensureSelected (pushUnlessDragging sampleEditor), 0) /\
  pushUnlessDragging sampleEditor
  = Editor sampleTree (Some "a") [Snapshot sampleTree (Some "a")] [] None.
Proof.
  destruct (edits_on_absent_id Z sample_nanoid ascii_trim sampleEditor "zz" " x " 3 0
              ltac:(vm_compute; intuition discriminate) ltac:(vm_compute; lia))
    as (Ht & Ea & Ed & Er & Et & Hnone & _).
  split; [exact Ht|]. split; [exact Ea|]. split; [exact Ed|].
  split; [exact Er|]. split; [exact Et|].
  exact (Hnone eq_refl).
Defined.


Lemma selection_stays_in_tree_witness :
  exists st',
    step sample_nanoid ascii_trim 3 (DeleteNode "a") sampleEditor 0 = Ok (st', 0) /\
    (exists i n, selectedId st' = Some i /\ In n (nodes (tree st')) /\ id n = i) /\
    selectedId st' = Some (id (tree st')).
Proof.
  eexists; split; [vm_compute; reflexivity|].
  destruct (selection_stays_in_tree Z sample_nanoid ascii_trim 3 (DeleteNode "a")
              sampleEditor _ 0 0 eq_refl) as (Hin & _ & Hroot).
  split; [exact Hin|apply Hroot; discriminate].
Defined.

Lemma layout_polar_to_cartesian_witness :
  In (layoutNode (HNode sampleData 0 0 (radius 800 600) None 0))
     (layoutNodes sample_d3 800 600 sampleData) /\
  (ln_autoX (layoutNode (HNode sampleData 0 0 (radius 800 600) None 0))
   * ln_autoX (layoutNode (HNode sampleData 0 0 (radius 800 600) None 0))
   + ln_autoY (layoutNode (HNode sampleData 0 0 (radius 800 600) None 0))
     * ln_autoY (layoutNode (HNode sampleData 0 0 (radius 800 600) None 0))
   = radius 800 600 * radius 800 600)%R.
Proof.
  destruct (layout_polar_to_cartesian sample_d3 800 600 sampleData
              (HNode sampleData 0 0 (radius 800 600) None 0) (or_introl eq_refl))
    as (_ & Hin & _ & _ & _ & _ & Hcircle & _).
  split; [exact Hin|exact Hcircle].
Defined.

(** ** Further properties at concrete inputs *)

Lemma sample_nanoid_injective (j k : nat) : sample_nanoid j = sample_nanoid k -> j = k.
Proof.
  unfold sample_nanoid; simpl; intros H; injection H as H.
  apply (f_equal NilEmpty.uint_of_string) in H.
  rewrite !NilEmpty.usu in H; injection H as H.
  apply (f_equal Nat.of_uint) in H.
  rewrite !DecimalNat.Unsigned.of_to in H; exact H.
Qed.

Lemma renameNode_renames_only_witness :
  exists st',
    step sample_nanoid ascii_trim 3 (RenameNode "a" "  Plan ") sampleEditor 0 = Ok (st', 0) /\
    shape (tree st') = shape sampleTree /\
    selectedId st' = Some "a".
Proof.
  destruct (renameNode_renames_only Z sample_nanoid ascii_trim sampleEditor "a" "  Plan " 3 0
              ltac:(vm_compute; lia)) as (st' & E & _ & Hs & _ & Hsel).
  exists st'; repeat split; [exact E|exact Hs|apply Hsel; reflexivity].
Defined.

Lemma toggleCollapse_twice_witness :
  exists st1 st2,
    step sample_nanoid ascii_trim 3 (ToggleCollapse "a") sampleEditor 0 = Ok (st1, 0) /\
    step sample_nanoid ascii_trim 3 (ToggleCollapse "a") st1 0 = Ok (st2, 0) /\
    map (@isCollapsed Z) (nodes (tree st2)) = map (@isCollapsed Z) (nodes sampleTree).
Proof.
  destruct (toggleCollapse_twice Z sample_nanoid ascii_trim sampleEditor "a" 3 0
              ltac:(vm_compute; lia)) as (st1 & st2 & E1 & E2 & _ & _ & Hc & _).
  exists st1, st2; repeat split; assumption.
Defined.

Lemma moveNode_last_position_witness :
  exists st',
    run sample_nanoid ascii_trim 3 (moveOps ([("a", 1%Z, 2%Z)] ++ [("a", 5%Z, 6%Z)]))
        sampleEditor 0 = Ok (st', 0) /\
    shape (tree st') = shape sampleTree.
Proof.
  destruct (moveNode_last_position Z sample_nanoid ascii_trim sampleEditor "a"
              [("a", 1%Z, 2%Z)] 5%Z 6%Z 3 0
              ltac:(repeat constructor) ltac:(vm_compute; lia)) as (st' & E & _ & _ & Hs).
  exists st'; split; assumption.
Defined.

Lemma addChild_appends_leaf_witness :
  exists st',
    step sample_nanoid ascii_trim 4 (AddChild "a") sampleEditor 0 = Ok (st', 1) /\
    attached "a" (Node (sample_nanoid 0) "New Node" [] None None None)
             sampleTree (tree st') /\
    NoDup (ids (tree st')).
Proof.
  destruct (addChild_appends_leaf Z sample_nanoid ascii_trim sampleEditor "a" 4 0
              sampleTree_unique ltac:(vm_compute; tauto)
              ltac:(vm_compute; intuition discriminate) ltac:(vm_compute; lia))
    as (st' & E & Ha & _ & Hn & _).
  exists st'; repeat split; assumption.
Defined.

Lemma reparent_keeps_every_node_witness :
  (exists st',
     reparent 6 "b1" "a" sampleEditor 0 = Ok (st', 0) /\
     Permutation (labels (tree st')) (labels sampleTree) /\
     NoDup (ids (tree st'))) /\
  (exists st',
     reparent 6 "a" "zz" sampleEditor 0 = Ok (st', 0) /\
     detached sampleA sampleTree (tree st') /\
     ~ In "a" (ids (tree st'))).
Proof.
  split.
  - destruct (reparent_keeps_every_node Z sampleEditor "b1" "a" (leaf "b1" "Detail B1") 6 0
                sampleTree_unique eq_refl ltac:(discriminate)
                ltac:(vm_compute; intuition discriminate) ltac:(vm_compute; lia))
      as (st' & E & Hin & _).
    exists st'; split; [exact E|apply Hin; vm_compute; tauto].
  - destruct (reparent_keeps_every_node Z sampleEditor "a" "zz" sampleA 6 0
                sampleTree_unique eq_refl ltac:(discriminate)
                ltac:(vm_compute; intuition discriminate) ltac:(vm_compute; lia))
      as (st' & E & _ & Hout).
    exists st'; split; [exact E|apply Hout; vm_compute; intuition discriminate].
Defined.

Lemma deleteNode_only_deletes_witness :
  sublist (labels (tree (deleteNode "a" sampleEditor))) (labels sampleTree) /\
  ~ In "a" (ids (tree (deleteNode "a" sampleEditor))) /\
  (NoDup (ids sampleTree) -> NoDup (ids (tree (deleteNode "a" sampleEditor)))).
Proof.
  apply (deleteNode_only_deletes Z sampleEditor "a"); discriminate.
Defined.

Lemma history_stays_bounded_witness :
  exists st',
    step sample_nanoid ascii_trim 4 (AddChild "a") sampleEditor 0 = Ok (st', 1) /\
    historyBounded st' /\ List.length (undoStack st') <= 10.
Proof.
  eexists; split; [vm_compute; reflexivity|].
  apply (history_stays_bounded Z sample_nanoid ascii_trim 4 (AddChild "a") sampleEditor _ 0 1);
    [vm_compute; lia|vm_compute; reflexivity].
Defined.

Lemma pending_snapshot_blocks_history_witness :
  exists st',
    step sample_nanoid ascii_trim 4 (AddChild "a")
         (setPreDragSnapshot (Some (takeSnapshot sampleEditor)) sampleEditor) 0
      = Ok (st', 1) /\
    preDragSnapshot st' = Some (takeSnapshot sampleEditor) /\
    undoStack st' = [] /\ redoStack st' = [].
Proof.
  eexists; split; [vm_compute; reflexivity|].
  destruct (pending_snapshot_blocks_history Z sample_nanoid ascii_trim 4 (AddChild "a")
              (setPreDragSnapshot (Some (takeSnapshot sampleEditor)) sampleEditor) _
              (takeSnapshot sampleEditor) 0 1 eq_refl ltac:(vm_compute; reflexivity))
    as (Hp & Hu & Hr).
  split; [apply Hp; discriminate|split; [exact Hu|exact Hr]].
Defined.

Lemma undo_reverts_recorded_edit_witness :
  exists st' st'',
    run sample_nanoid ascii_trim 3 (edit_ops (ERenameNode "a" " Plan ")) sampleEditor 0
      = Ok (st', 0) /\
    step sample_nanoid ascii_trim 3 Undo st' 0 = Ok (st'', 0) /\
    tree st'' = sampleTree /\ selectedId st'' = Some "a".
Proof.
  eexists.
  destruct (undo_reverts_recorded_edit Z sample_nanoid ascii_trim 3 (ERenameNode "a" " Plan ")
              sampleEditor _ 0 0 eq_refl (conj eq_refl I) ltac:(vm_compute; reflexivity))
    as (st'' & E & Ht & Hs & _).
  exists st''; repeat split; [exact E|exact Ht|exact Hs].
Defined.

Lemma importJSON_unique_ids_witness :
  exists st' c',
    importJSON sample_nanoid
               (Raw (Some "x") (Some "Plan")
                    [Raw (Some "x") (Some "Plan") [] None None None] None None None)
               sampleEditor 0 = Ok (st', c') /\
    NoDup (ids (tree st')).
Proof.
  apply (importJSON_unique_ids Z sample_nanoid); exact sample_nanoid_injective.
Defined.

Lemma assignIds_keeps_ids_witness :
  assignIds sample_nanoid (rawOf sampleTree) 0 = Ok (sampleTree, 0) /\
  normalize sample_nanoid (rawOf sampleTree) 0 = Ok (sampleTree, 0).
Proof.
  apply (assignIds_keeps_ids Z sample_nanoid sampleTree 0).
  repeat constructor; discriminate.
Defined.

Lemma stripIds_assignIds_witness :
  exists n c',
    assignIds sample_nanoid (stripIds sampleTree) 0 = Ok (n, c') /\
    stripIds n = stripIds sampleTree.
Proof.
  apply (stripIds_assignIds Z sample_nanoid (stripIds sampleTree) 0); reflexivity.
Defined.

Lemma toolbar_acts_on_the_tree_witness :
  In "a" (ids sampleTree) /\ ("a" : string) <> "r".
Proof.
  apply (toolbar_acts_on_the_tree Z BtnDelete sampleEditor (DeleteNode "a")); reflexivity.
Defined.

Lemma links_join_resolved_positions_witness :
  linkOf (layoutNodes twin_d3 800 600 twinData) (twinRoot, twinFirst)
  = Ok (curve (layoutNode twinRoot) (layoutNode twinLast) 1) /\
  l_to (curve (layoutNode twinRoot) (layoutNode twinLast) 1) = (2, 2)%R.
Proof.
  destruct (links_join_resolved_positions twin_d3 800 600 twinData (twinRoot, twinFirst)
              (or_introl eq_refl) (or_intror (or_introl eq_refl)))
    as ((s & t & E & (l1 & l2 & El & Ids & Hl) & (m1 & m2 & Em & Idt & Hm)) & _).
  assert (Es : s = layoutNode twinRoot).
  { destruct l1 as [|a [|b [|b' l1]]]; simpl in El.
    - injection El as <- _; reflexivity.
    - injection El as _ <- _; discriminate Ids.
    - injection El as _ _ <- _; discriminate Ids.
    - injection El as _ _ _ El; destruct l1; discriminate El. }
  assert (Et : t = layoutNode twinLast).
  { destruct m1 as [|a [|b [|b' m1]]]; simpl in Em.
    - injection Em as <- _; discriminate Idt.
    - injection Em as _ <- <-.
      exfalso; apply (Forall_inv Hm); reflexivity.
    - injection Em as _ _ <- _; reflexivity.
    - injection Em as _ _ _ Em; destruct m1; discriminate Em. }
  rewrite E, Es, Et; split; reflexivity.
Defined.

Lemma enter_acts_on_the_listeners_tree_witness :
  exists a',
    appStep sample_nanoid ascii_trim 4 (Key KeyEnter)
            (App (deleteNode "b" sampleEditor) sampleEditor) 0 = Ok (a', 1) /\
    attached "a" (Node (sample_nanoid 0) "New Node" [] None None None)
             sampleTree (tree (current a')) /\
    listener a' = sampleEditor.
Proof.
  destruct (enter_acts_on_the_listeners_tree Z sample_nanoid ascii_trim
              (deleteNode "b" sampleEditor) sampleEditor "a" 4 0
              eq_refl ltac:(discriminate) sampleTree_unique ltac:(vm_compute; tauto)
              ltac:(vm_compute; discriminate) eq_refl ltac:(vm_compute; lia))
    as (a' & E & Ha & _ & _ & _ & Hl).
  exists a'; repeat split; assumption.
Defined.

Lemma enter_twice_keeps_one_child_witness :
  (exists a2,
     appRun sample_nanoid ascii_trim 5 [Key KeyEnter; Key KeyEnter]
            (App sampleEditor sampleEditor) 0 = Ok (a2, 2) /\
     Permutation (ids (tree (current a2))) (sample_nanoid 1 :: ids sampleTree)) /\
  (exists b2,
     appRun sample_nanoid ascii_trim 5 [Call (AddChild "a"); Call (AddChild "a")]
            (App sampleEditor sampleEditor) 0 = Ok (b2, 2) /\
     Permutation (ids (tree (current b2)))
                 (sample_nanoid 1 :: sample_nanoid 0 :: ids sampleTree)).
Proof.
  destruct (enter_twice_keeps_one_child Z sample_nanoid ascii_trim sampleEditor "a" 5 0
              eq_refl ltac:(discriminate) sampleTree_unique ltac:(vm_compute; tauto)
              ltac:(vm_compute; intuition discriminate)
              ltac:(vm_compute; intuition discriminate)
              ltac:(vm_compute; discriminate) eq_refl ltac:(vm_compute; lia))
    as ((a2 & E & _ & Hp & _) & Hb).
  split; [exists a2; split; assumption|exact Hb].
Defined.

Lemma hover_target_is_nearest_in_reach_witness :
  snd (handleMouseMove (Props false [sampleRoot] 1) true 3 4
                       (Pointer (Some (Dragging "a" MoveMode 0 0)) None)) = [] /\
  dragging (fst (handleMouseMove (Props false [sampleRoot] 1) true 3 4
                                 (Pointer (Some (Dragging "a" MoveMode 0 0)) None)))
  = Some (Dragging "a" ReparentMode 0 0) /\
  match hoverTargetId (fst (handleMouseMove (Props false [sampleRoot] 1) true 3 4
                                            (Pointer (Some (Dragging "a" MoveMode 0 0)) None)))
  with
  | Some h =>
      exists nd, In nd [sampleRoot] /\ id (ln_data nd) = h /\ h <> "a" /\
                 (sqrt (dist2 3 4 nd) < 60 / divisor 1)%R /\
                 forall nd', In nd' [sampleRoot] -> id (ln_data nd') <> "a" ->
                             (dist2 3 4 nd <= dist2 3 4 nd')%R
  | None =>
      forall nd, In nd [sampleRoot] -> id (ln_data nd) <> "a" ->
                 (60 / divisor 1 <= sqrt (dist2 3 4 nd))%R
  end.
Proof.
  apply (hover_target_is_nearest_in_reach (Props false [sampleRoot] 1)
           (Pointer (Some (Dragging "a" MoveMode 0 0)) None)
           (Dragging "a" MoveMode 0 0) 3 4); reflexivity.
Defined.

Lemma drag_gesture_calls_witness :
  pointerRun ((sampleProps, MouseDownNode sampleRoot false 1 2)
              :: moveEvents [(sampleProps, (3, 4)%R)] ++ [(sampleProps, MouseUp)])
             (Pointer None None)
  = (Pointer None None,
     Select "r" :: drag [("r", 3 + (0 - 1), 4 + (0 - 2))%R]).
Proof.
  apply (drag_gesture_calls sampleProps sampleProps sampleRoot 1 2
           [(sampleProps, (3, 4)%R)] (Pointer None None));
    [reflexivity|repeat constructor|reflexivity].
Defined.

Lemma drag_released_with_shift_stays_pending_witness :
  ~ In MoveCommit
       (snd (pointerRun ((sampleProps, MouseDownNode sampleRoot false 1 2)
                         :: moveEvents [(sampleProps, (3, 4)%R)]
                         ++ [(sampleProps, MouseMove true 5 6); (sampleProps, MouseUp)])
                        (Pointer None None))) /\
  exists st',
    run sample_nanoid ascii_trim 1
        (snd (pointerRun ((sampleProps, MouseDownNode sampleRoot false 1 2)
                          :: moveEvents [(sampleProps, (3, 4)%R)]
                          ++ [(sampleProps, MouseMove true 5 6); (sampleProps, MouseUp)])
                         (Pointer None None)))
        sampleEditorR 0 = Ok (st', 0) /\
    undoStack st' = [] /\
    preDragSnapshot st' = Some (takeSnapshot sampleEditorR).
Proof.
  destruct (drag_released_with_shift_stays_pending sample_nanoid ascii_trim
              sampleProps sampleProps sampleProps sampleRoot 1 2 5 6
              (sampleProps, (3, 4)%R) [] (Pointer None None)
              eq_refl ltac:(repeat constructor) eq_refl eq_refl) as (_ & Hn & Hr).
  split; [exact Hn|].
  eexists; split; [reflexivity|].
  destruct (Hr 1 sampleEditorR _ 0 0 eq_refl eq_refl) as (Hu & _ & Hp).
  split; [exact Hu|exact Hp].
Defined.

Lemma listener_has_the_current_selection_witness :
  exists a',
    appStep sample_nanoid ascii_trim 3 (Call (Select "b"))
            (App sampleEditor sampleEditor) 0 = Ok (a', 0) /\
    selectedId (listener a') = selectedId (current a') /\
    id (tree (listener a')) = id (tree (current a')).
Proof.
  eexists; split; [vm_compute; reflexivity|].
  apply (listener_has_the_current_selection Z sample_nanoid ascii_trim 3 (Call (Select "b"))
           (App sampleEditor sampleEditor) _ 0 0).
  vm_compute; reflexivity.
Defined.

Lemma locked_canvas_freezes_the_gesture_witness :
  pointerRun [(Props true [] 1, MouseUp)]
             (Pointer (Some (Dragging "r" MoveMode 0 0)) None)
  = (Pointer (Some (Dragging "r" MoveMode 0 0)) None, []) /\
  pointerRun ([(Props true [] 1, MouseUp)] ++ [(sampleProps, MouseMove false 3 4)])
             (Pointer (Some (Dragging "r" MoveMode 0 0)) None)
  = (Pointer (Some (Dragging "r" MoveMode 0 0)) None,
     [MoveNode "r" (3 + 0)%R (4 + 0)%R]).
Proof.
  apply (locked_canvas_freezes_the_gesture [(Props true [] 1, MouseUp)]
           (Pointer (Some (Dragging "r" MoveMode 0 0)) None)
           sampleProps (Dragging "r" MoveMode 0 0) 3 4);
    [repeat constructor|reflexivity|reflexivity].
Defined.

(** * Where the specification and the code part *)



(** C5, as stated, fails: [a1] is the first of the two children of [a], and
    [reparent] of [a1] onto [a] puts it last. *)
Lemma reparent_onto_current_parent_reorders :
  findNode sampleTree "a" = Some sampleA /\
  children sampleA = [leaf "a1" "Detail A1"; leaf "a2" "Detail A2"] /\
  exists st',
    reparent 6 "a1" "a" sampleEditor 0 = Ok (st', 0) /\
    findNode (tree st') "a"
      = Some (set_children sampleA [leaf "a2" "Detail A2"; leaf "a1" "Detail A1"]) /\
    tree st' <> tree sampleEditor.
Proof.
  split; [reflexivity|]. split; [reflexivity|].
  eexists; split; [vm_compute; reflexivity|].
  split; [reflexivity|vm_compute; discriminate].
Qed.

(** C7, as stated, fails: [addChild] with an id that no node has still
    records the edit and moves the selection to the root. *)
Lemma addChild_on_absent_id_is_recorded :
  ~ In "zz" (ids (tree sampleEditor)) /\
  exists st',
    step sample_nanoid ascii_trim 3 (AddChild "zz") sampleEditor 0 = Ok (st', 0) /\
    tree st' = tree sampleEditor /\
    undoStack st' <> undoStack sampleEditor /\
    selectedId st' <> selectedId sampleEditor.
Proof.
  split; [vm_compute; intuition discriminate|].
  eexists; split; [vm_compute; reflexivity|].
  split; [reflexivity|split; vm_compute; discriminate].
Qed.

(** C8, as stated, fails: a node with [px] and no [py] is placed at
    [(px, autoY)], which is neither a manual position [(px, py)] nor the
    automatic one. *)
Lemma one_coordinate_override :
  px (h_data halfPlaced) = Some 5%R /\ py (h_data halfPlaced) = None /\
  (ln_x (layoutNode halfPlaced), ln_y (layoutNode halfPlaced))
    = (5%R, ln_autoY (layoutNode halfPlaced)) /\
  (ln_x (layoutNode halfPlaced), ln_y (layoutNode halfPlaced))
    <> (ln_autoX (layoutNode halfPlaced), ln_autoY (layoutNode halfPlaced)).
Proof.
  repeat split.
  intros H; injection H as H; simpl in H.
  replace (0 - PI / 2)%R with (- (PI / 2))%R in H by lra.
  rewrite cos_neg, cos_PI2 in H; lra.
Qed.

(** C9, as stated, fails: at distance 1/2 the divisor is 1/2, not the floor
    [max dist 1]. *)
Lemma divisor_is_not_a_floor :
  hypot (1 / 2 - 0) (0 - 0) = (1 / 2)%R /\
  divisor (hypot (1 / 2 - 0) (0 - 0)) = (1 / 2)%R /\
  divisor (hypot (1 / 2 - 0) (0 - 0)) <> Rmax (hypot (1 / 2 - 0) (0 - 0)) 1.
Proof.
  assert (E : hypot (1 / 2 - 0) (0 - 0) = (1 / 2)%R).
  { unfold hypot.
    replace ((1 / 2 - 0) * (1 / 2 - 0) + (0 - 0) * (0 - 0))%R
      with ((1 / 2) * (1 / 2))%R by lra.
    apply sqrt_square; lra. }
  rewrite E; unfold divisor, Rmax.
  destruct (Req_dec_T (1 / 2) 0); [lra|].
  destruct (Rle_dec (1 / 2) 1); repeat split; lra.
Qed.

(** C10, as stated, fails: the selected node is the child just added; [undo]
    removes it, and the selection becomes the one of the snapshot, which is
    not the root. *)
Lemma undo_restores_snapshot_selection :
  exists st1 st2,
    run sample_nanoid ascii_trim 4 [AddChild "a"; Select (sample_nanoid 0)] sampleEditor 0
      = Ok (st1, 1) /\
    selectedId st1 = Some (sample_nanoid 0) /\
    step sample_nanoid ascii_trim 4 Undo st1 1 = Ok (st2, 1) /\
    selectedExists (tree st2) (selectedId st1) = false /\
    selectedId st2 = Some "a" /\
    selectedId st2 <> Some (id (tree st2)).
Proof.
  eexists; eexists; split; [vm_compute; reflexivity|].
  split; [reflexivity|].
  split; [vm_compute; reflexivity|].
  split; [reflexivity|].
  split; [reflexivity|vm_compute; discriminate].
Qed.

(** * The examples of the specification, run on the model *)

(** Root [R] (id [r]) with child [A] (id [a]): [addChild r] appends the new
    node after [A], and [undo] gives [R.children = [A]] again. *)
Example addChild_then_undo :
  let A := leaf "a" "A" in
  let st0 := Editor (Node "r" "R" [A] None None None) (Some "r") [] [] None in
  exists st1 st2,
    step sample_nanoid ascii_trim 3 (AddChild "r") st0 0 = Ok (st1, 1) /\
    children (tree st1) = [A; Node (sample_nanoid 0) "New Node" [] None None None] /\
    selectedId st1 = Some "r" /\
    step sample_nanoid ascii_trim 3 Undo st1 1 = Ok (st2, 1) /\
    children (tree st2) = [A] /\
    tree st2 = tree st0.
Proof.
  intros A st0; eexists; eexists.
  split; [vm_compute; reflexivity|].
  split; [reflexivity|]. split; [reflexivity|].
  split; [vm_compute; reflexivity|].
  split; reflexivity.
Qed.

(** [renameNode] trims its input and falls back on ["Node"]. *)
Example renameNode_trims :
  exists st1 st2,
    step sample_nanoid ascii_trim 3 (RenameNode "b" "  Plan B ") sampleEditor 0 = Ok (st1, 0) /\
    option_map (@name Z) (findNode (tree st1) "b") = Some "Plan B" /\
    step sample_nanoid ascii_trim 3 (RenameNode "b" "   ") st1 0 = Ok (st2, 0) /\
    option_map (@name Z) (findNode (tree st2) "b") = Some "Node".
Proof.
  eexists; eexists.
  split; [vm_compute; reflexivity|]. split; [reflexivity|].
  split; [vm_compute; reflexivity|reflexivity].
Qed.

Lemma mapM_ok_each {A B} (f : A -> M B) l x :
  In x l -> forall (c : nat) l' c',
  mapM f l c = Ok (l', c') -> exists c0 y c1, f x c0 = Ok (y, c1).
Proof.
  induction l as [|a l IH]; intros Hx c l' c' H; [contradiction|].
  simpl in H; apply bind_inv in H; destruct H as (b & c1 & Hb & H).
  apply bind_inv in H; destruct H as (bs & c2 & Hbs & _).
  destruct Hx as [<-|Hx]; [eauto|exact (IH Hx c1 bs c2 Hbs)].
Qed.

(** Were the generator to return the id of the parent itself, the callback
    of [addChild] would keep adding a child that matches again: [mapTree]
    returns for no stack depth. *)
Example addChild_colliding_id_never_returns :
  forall fuel st' c',
    addChild (fun _ => "r") fuel "r" sampleEditor 0 <> Ok (st', c').
Proof.
  intros fuel st' c' H; unfold addChild in H.
  apply bind_inv in H; destruct H as (t' & c1 & H & _).
  set (fn := fun n : node Z => _) in H.
  assert (Hno : forall fuel (n : node Z) (c : nat) r,
                  id n = "r" -> mapTree fuel fn n c <> Ok r).
  { clear; induction fuel as [|fuel IH]; intros n c [t' c1] En H; [discriminate|].
    rewrite mapTree_eq in H; apply bind_inv in H; destruct H as (next & c2 & Hn & H).
    apply bind_inv in H; destruct H as (kids & c3 & Hk & _).
    unfold fn in Hn; rewrite En in Hn; simpl in Hn.
    unfold bind, ret in Hn; simpl in Hn; injection Hn as <- <-.
    simpl in Hk.
    assert (Hin : In (Node "r" "New Node" [] None None None : node Z)
                     (children n ++ [Node "r" "New Node" [] None None None]))
      by (apply in_or_app; right; left; reflexivity).
    destruct (mapM_ok_each (mapTree fuel fn) _ _ Hin _ _ _ Hk) as (c0 & y & c4 & Hy).
    apply (IH (Node "r" "New Node" [] None None None) c0 (y, c4)); [reflexivity|exact Hy]. }
  apply (Hno fuel (clone (tree sampleEditor)) 0 (t', c1)); [reflexivity|exact H].
Qed.
